(** * LightingGradient: the lighting-gradient operator of augraphy

    A shallow embedding of [augraphy/augmentations/lightinggradient.py]:
    the two decay-profile kernels, the mask generator
    [generate_parallel_light_mask] and the operator's [__call__].

    Conventions of the embedding.
    - Python [int]s are [Z]; Python and NumPy floating-point numbers are
      idealised as real numbers [R] (no rounding, no overflow, no NaN);
      [uint8] samples are [Z] with the wrap-around modulo 256 written out.
    - A NumPy array is a nested list ([ndarray]); arrays whose identity
      matters (the caller's image, its copy, the buffers [__call__]
      creates and writes in place) live in a heap of buffers indexed by
      locations, and a Python reference to such an array is a location
      together with the slice it views.
    - Exceptions and the two effects (the global [random] generator, the
      heap) are threaded by a small state-and-error monad [M].
    - OpenCV and the [Augmentation] base class are not part of the
      sources: the numeric kernels of the former are an interface
      ([Cv2]), the gate [should_run] of the latter is a section
      variable.

    The sibling operator of [augraphy/augmentations/subtlenoise.py] is
    embedded in module [SubtleNoise]. *)

From Stdlib Require Import ZArith List String Reals Lra Lia.
From stdpp Require Import base gmap list sorting.

Local Open Scope Z_scope.

(** ** Numbers *)

(** [int(x)] on a float: truncation toward zero. *)
Definition py_int (x : R) : Z :=
  if Rle_dec 0 x then Zfloor x else Zceil x.

(** Conversion of a float sample to [uint8], as done by
    [np.asarray(_, dtype=np.uint8)] and by assignment into a [uint8]
    array: the fractional part is dropped and the integer is reduced
    modulo 256. *)
Definition astype_uint8 (x : R) : Z := py_int x mod 256.

(** [255 - v] on [uint8] operands. *)
Definition uint8_rsub (c v : Z) : Z := (c - v) mod 256.

(** ** Exceptions and results *)

Inductive exn : Type :=
| ValueError          (* numpy: negative dimensions, shape mismatch;
                         random: empty range *)
| ZeroDivisionError
| IndexError
| UnboundLocalError
| TypeError           (* the operand is not an array *)
| Cv2Error.           (* an assertion of OpenCV failed *)

Definition exn_name (e : exn) : string :=
  match e with
  | ValueError => "ValueError"
  | ZeroDivisionError => "ZeroDivisionError"
  | IndexError => "IndexError"
  | UnboundLocalError => "UnboundLocalError"
  | TypeError => "TypeError"
  | Cv2Error => "cv2.error"
  end.

Inductive result (A : Type) : Type :=
| Ok (a : A)
| Raise (e : exn).
Arguments Ok {A} a.
Arguments Raise {A} e.

Definition rbind {A B} (r : result A) (f : A -> result B) : result B :=
  match r with
  | Ok a => f a
  | Raise e => Raise e
  end.

(** ** Arrays *)

(** A two-dimensional buffer, row by row. *)
Abbreviation matrix A := (list (list A)) (only parsing).

(** The arrays [__call__] handles: shape [(h, w)] or [(h, w, c)], samples
    of type [uint8]. *)
Inductive ndarray : Type :=
| A2 (rows : matrix Z)
| A3 (rows : matrix (list Z)).

Definition ncols {A} (m : matrix A) : nat := length (hd [] m).

Definition nchan (m : matrix (list Z)) : nat := length (hd [] (hd [] m)).

(** [a.shape] *)
Definition shape (a : ndarray) : list nat :=
  match a with
  | A2 m => [length m; ncols m]
  | A3 m => [length m; ncols m; nchan m]
  end.

(** Every row has [w] entries and there are [h] rows. *)
Definition dims2 {A} (m : matrix A) (h w : nat) : Prop :=
  length m = h /\ Forall (fun row => length row = w) m.

(** Moreover every pixel has [c] channels. *)
Definition dims3 (m : matrix (list Z)) (h w c : nat) : Prop :=
  dims2 m h w /\ Forall (Forall (fun px => length px = c)) m.

(** [has_shape a s]: [a] is a well-formed (rectangular) array of shape
    [s]. *)
Definition has_shape (a : ndarray) (s : list nat) : Prop :=
  match a, s with
  | A2 m, [h; w] => dims2 m h w
  | A3 m, [h; w; c] => dims3 m h w c
  | _, _ => False
  end.

(** The channel [k] of a three-dimensional array, [a[:, :, k]]. *)
Definition channel (k : nat) (m : matrix (list Z)) : matrix Z :=
  map (map (fun px => nth k px 0)) m.

(** [a[:, :, :3]] *)
Definition first3 (m : matrix (list Z)) : matrix (list Z) :=
  map (map (take 3)) m.

(** ** State: heap of buffers and random generator *)

Abbreviation loc := nat (only parsing).

(** The slice of a buffer a reference views. *)
Inductive view : Type :=
| Whole
| Chans3          (* [_[:, :, :3]] *)
| Chan (k : nat). (* [_[:, :, k]] *)

Definition ref : Type := (loc * view)%type.

(** The state of the generator of module [random] is the tape of raw
    words it is going to produce; an exhausted tape keeps producing
    0. *)
Record state : Type := State {
  heap : gmap loc ndarray;
  rng : list Z
}.

Definition M (A : Type) : Type := state -> result A * state.

Definition ret {A} (a : A) : M A := fun st => (Ok a, st).

Definition raise {A} (e : exn) : M A := fun st => (Raise e, st).

Definition bind {A B} (m : M A) (f : A -> M B) : M B :=
  fun st =>
    match m st with
    | (Ok a, st') => f a st'
    | (Raise e, st') => (Raise e, st')
    end.

Definition lift {A} (r : result A) : M A := fun st => (r, st).

Notation "x <- m ;; k" := (bind m (fun x => k))
  (at level 100, m at next level, right associativity).

(** *** The heap *)

(** A new array object holding [a]. *)
Definition alloc (a : ndarray) : M loc :=
  fun st =>
    let l := fresh (dom (heap st)) in
    (Ok l, State (<[l := a]> (heap st)) (rng st)).

Definition apply_view (v : view) (a : ndarray) : result ndarray :=
  match v, a with
  | Whole, _ => Ok a
  | Chans3, A3 m => Ok (A3 (first3 m))
  | Chan k, A3 m => Ok (A2 (channel k m))
  | _, A2 _ => Raise IndexError
  end.

(** The array a reference denotes. *)
Definition load (r : ref) : M ndarray :=
  fun st =>
    match heap st !! fst r with
    | Some a => (apply_view (snd r) a, st)
    | None => (Raise TypeError, st)
    end.

(** Overwrite the contents of a whole buffer in place. *)
Definition store (l : loc) (a : ndarray) : M unit :=
  fun st =>
    match heap st !! l with
    | Some _ => (Ok tt, State (<[l := a]> (heap st)) (rng st))
    | None => (Raise TypeError, st)
    end.

(** *** Module [random] *)

Definition draw (g : list Z) : Z * list Z :=
  match g with
  | [] => (0, [])
  | n :: g' => (n, g')
  end.

(** [random.randint(a, b)]: an integer [N] with [a <= N <= b], both ends
    included; [ValueError] on an empty range. The word is reduced to
    the [b - a + 1] values of the range, each of which is the outcome
    of one word in every [b - a + 1] consecutive ones. *)
Definition randint (a b : Z) : M Z :=
  fun st =>
    if b <? a then (Raise ValueError, st)
    else
      let '(n, g) := draw (rng st) in
      (Ok (a + n mod (b - a + 1)), State (heap st) g).

(** [random.random()]: a float in [[0, 1)]. *)
Definition random_unit (n : Z) : R := (IZR (n mod 2 ^ 53) / IZR (2 ^ 53))%R.

(** [random.uniform(a, b)] is [a + (b - a) * random()]. *)
Definition uniform (a b : R) : M R :=
  fun st =>
    let '(n, g) := draw (rng st) in
    (Ok (a + (b - a) * random_unit n)%R, State (heap st) g).

(** ** The decay-profile kernels *)

(** [mask[x] = v] on a two-dimensional float buffer: the scalar [v] is
    broadcast over row [x]; an index past the last row is an
    [IndexError]. *)
Definition setitem_row (mask : matrix R) (x : nat) (v : R) : result (matrix R) :=
  match mask !! x with
  | Some row => Ok (<[x := replicate (length row) v]> mask)
  | None => Raise IndexError
  end.

(** The body of the loop of [apply_decay_value_norm], lines 167-173: the
    value written at index [x]. *)
Definition norm_value (max_value min_value center grange x : Z) : R :=
  let radius := (IZR grange / 3)%R in
  let center_prob := (1 / (sqrt (2 * PI) * Rabs radius))%R in
  let u := (IZR (x - center) / Rabs radius)%R in
  let x_prob := ((1 / (sqrt (2 * PI) * Rabs radius)) * exp (- u * u / 2))%R in
  (x_prob / center_prob * IZR (max_value - min_value) + IZR min_value)%R.

(** One iteration of the loop. [abs(radius)] is zero exactly when
    [grange] is, and dividing by it raises [ZeroDivisionError]. *)
Definition norm_iter (max_value min_value center grange : Z)
    (mask : matrix R) (x : nat) : result (matrix R) :=
  if grange =? 0 then Raise ZeroDivisionError
  else setitem_row mask x (norm_value max_value min_value center grange (Z.of_nat x)).

(** [for x in xs: acc = body(acc, x)] with exceptions. *)
Fixpoint for_each {S A} (body : S -> A -> result S) (xs : list A) (acc : S) : result S :=
  match xs with
  | [] => Ok acc
  | x :: xs' => rbind (body acc x) (for_each body xs')
  end.

(** [range(n)] *)
Definition range (n : Z) : list nat := seq 0 (Z.to_nat n).

(** [apply_decay_value_norm(mask, canvas_y, max_value, min_value, center,
    grange)]; the mask is updated in place, here returned. *)
Definition apply_decay_value_norm (mask : matrix R)
    (canvas_y max_value min_value center grange : Z) : result (matrix R) :=
  for_each (norm_iter max_value min_value center grange) (range canvas_y) mask.

(** The body of the loop of [apply_decay_value_linear], lines 194-196. *)
Definition linear_value (max_value padding_center : Z) (decay_rate : R) (x : Z) : R :=
  let x_value := (IZR max_value - IZR (Z.abs (padding_center - x)) * decay_rate)%R in
  if Rlt_dec x_value 0 then 1%R else x_value.

(** One iteration; the state of the loop is the mask and the local
    [x_value], unbound before the first iteration. *)
Definition linear_iter (max_value padding_center : Z) (decay_rate : R)
    (acc : matrix R * option R) (x : nat) : result (matrix R * option R) :=
  let x_value := linear_value max_value padding_center decay_rate (Z.of_nat x) in
  rbind (setitem_row (fst acc) x x_value) (fun mask => Ok (mask, Some x_value)).

(** [apply_decay_value_linear(mask, canvas_y, max_value, padding_center,
    decay_rate)]: the updated mask and the returned [x_value]. The
    kernel runs compiled ([@jit(nopython=True)], line 177): when the
    loop body never runs, the local [x_value] still holds the zero it is
    initialised with and [0.0] is returned. (Run uncompiled, [return
    x_value] would raise [UnboundLocalError] there.) *)
Definition apply_decay_value_linear (mask : matrix R)
    (canvas_y max_value padding_center : Z) (decay_rate : R) : result (matrix R * R) :=
  rbind (for_each (linear_iter max_value padding_center decay_rate)
           (range canvas_y) (mask, None))
    (fun acc =>
       match snd acc with
       | Some x_value => Ok (fst acc, x_value)
       | None => Ok (fst acc, 0%R)
       end).

(** ** OpenCV *)

(** A 2x3 affine matrix [((a, b, c), (d, e, f))]. *)
Definition affine : Type := ((R * R * R) * (R * R * R))%type.

(** The numeric kernels of the OpenCV routines the operator calls. What
    the operator relies on is the structure around them (which samples
    are produced, in which shape), defined below. *)
Class Cv2 : Type := {
  (** per-pixel colour conversions on [(c0, c1, c2)] *)
  bgr2hsv : Z * Z * Z -> Z * Z * Z;
  hsv2bgr : Z * Z * Z -> Z * Z * Z;
  (** the interpolated sample of [warpAffine] at destination column [x],
      row [y] *)
  warp_sample : matrix R -> affine -> nat -> nat -> R;
  (** the median of the [ksize] x [ksize] window around row [y], column
      [x] *)
  median_sample : matrix Z -> Z -> nat -> nat -> Z
}.

Inductive color_code : Type :=
| COLOR_BGR2HSV
| COLOR_GRAY2BGR
| COLOR_HSV2BGR.

(** OpenCV rejects empty matrices. *)
Definition nonempty {A} (m : matrix A) : bool :=
  negb (length m =? 0)%nat && negb (ncols m =? 0)%nat.

Definition on_pixel (f : Z * Z * Z -> Z * Z * Z) (px : list Z) : list Z :=
  match px with
  | c0 :: c1 :: c2 :: _ => let '(d0, d1, d2) := f (c0, c1, c2) in [d0; d1; d2]
  | _ => []
  end.

Definition gray_pixel (v : Z) : list Z := [v; v; v].

Section OpenCV.
Context `{Cv2}.

(** [cv2.cvtColor(src, code)] for the three codes in use; each checks
    that the source is not empty and has a channel count the code
    accepts. *)
Definition cvtColor (src : ndarray) (code : color_code) : result ndarray :=
  match code, src with
  | COLOR_GRAY2BGR, A2 m =>
      if nonempty m then Ok (A3 (map (map gray_pixel) m)) else Raise Cv2Error
  | COLOR_GRAY2BGR, A3 m =>
      if nonempty m && (nchan m =? 1)%nat
      then Ok (A3 (map (map (fun px => gray_pixel (nth 0 px 0))) m))
      else Raise Cv2Error
  | COLOR_BGR2HSV, A3 m =>
      if nonempty m && ((nchan m =? 3)%nat || (nchan m =? 4)%nat)
      then Ok (A3 (map (map (on_pixel bgr2hsv)) m))
      else Raise Cv2Error
  | COLOR_HSV2BGR, A3 m =>
      if nonempty m && (nchan m =? 3)%nat
      then Ok (A3 (map (map (on_pixel hsv2bgr)) m))
      else Raise Cv2Error
  | _, A2 _ => Raise Cv2Error
  end.

(** [cv2.getRotationMatrix2D(center, angle, scale)], angle in
    degrees. *)
Definition getRotationMatrix2D (center : Z * Z) (angle : Z) (scale : R) : affine :=
  let alpha := (scale * cos (IZR angle * PI / 180))%R in
  let beta := (scale * sin (IZR angle * PI / 180))%R in
  let cx := IZR (fst center) in
  let cy := IZR (snd center) in
  ((alpha, beta, (1 - alpha) * cx - beta * cy)%R,
   (- beta, alpha, beta * cx + (1 - alpha) * cy)%R).

(** [cv2.warpAffine(src, M, dsize)]: a destination of [dsize = (width,
    height)] (of the size of the source when [dsize] is empty), every
    sample interpolated from the source. *)
Definition warpAffine (src : matrix R) (Mx : affine) (dsize : Z * Z) : result (matrix R) :=
  if nonempty src then
    let '(dw, dh) :=
      if (0 <? fst dsize) && (0 <? snd dsize)
      then (Z.to_nat (fst dsize), Z.to_nat (snd dsize))
      else (ncols src, length src) in
    Ok (map (fun y => map (fun x => warp_sample src Mx x y) (seq 0 dw)) (seq 0 dh))
  else Raise Cv2Error.

(** [cv2.medianBlur(src, ksize)] on a one-channel [uint8] image: same
    size as the source. *)
Definition medianBlur (src : matrix Z) (ksize : Z) : result (matrix Z) :=
  if nonempty src
  then Ok (imap (fun y row => imap (fun x _ => median_sample src ksize y x) row) src)
  else Raise Cv2Error.
End OpenCV.

(** ** NumPy helpers *)

(** [np.zeros(shape=(rows, cols), dtype=np.float32)] *)
Definition np_zeros (rows cols : Z) : result (matrix R) :=
  if (rows <? 0) || (cols <? 0) then Raise ValueError
  else Ok (replicate (Z.to_nat rows) (replicate (Z.to_nat cols) 0%R)).

(** A bound of a slice, resolved against a length as Python does:
    negative bounds count from the end, and bounds are clipped. *)
Definition slice_bound (i : Z) (n : nat) : nat :=
  Z.to_nat (if i <? 0 then Z.max 0 (i + Z.of_nat n) else Z.min i (Z.of_nat n)).

(** [l[a:b]] *)
Definition py_slice {A} (l : list A) (a b : Z) : list A :=
  take (slice_bound b (length l) - slice_bound a (length l))
       (drop (slice_bound a (length l)) l).

(** [m[r0:r1, c0:c1]] *)
Definition crop {A} (m : matrix A) (r0 r1 c0 c1 : Z) : matrix A :=
  map (fun row => py_slice row c0 c1) (py_slice m r0 r1).

(** Whether two arrays have the same [shape]. *)
Definition same_shape (a b : ndarray) : bool :=
  bool_decide (shape a = shape b).

(** ** The mask generator *)

(** The values lines 96-111 of [generate_parallel_light_mask] settle
    before the mask is built. *)
Record light_params : Type := LightParams {
  lp_pos_x : Z;
  lp_pos_y : Z;
  lp_direction : Z;
  lp_mode : string;
  lp_linear_decay_rate : option R
}.

Definition known_modes : list string :=
  ["linear_dynamic"; "linear_static"; "gaussian"]%string.

(** [x in xs] on strings *)
Definition str_in (x : string) (xs : list string) : bool :=
  existsb (String.eqb x) xs.

(** Lines 96-101: the light position, drawn inside the mask when
    unset. *)
Definition default_position (mask_size : Z * Z) (position : option (Z * Z)) : M (Z * Z) :=
  match position with
  | None =>
      pos_x <- randint 0 (fst mask_size);;
      pos_y <- randint 0 (snd mask_size);;
      ret (pos_x, pos_y)
  | Some pos => ret (fst pos, snd pos)
  end.

(** Lines 102-103: the direction, drawn when unset. *)
Definition default_direction (direction : option Z) : M Z :=
  match direction with
  | None => randint 0 360
  | Some d => ret d
  end.

(** Lines 104-106: the decay rate of mode [linear_static], drawn when
    unset. *)
Definition default_static_rate (mode : string) (linear_decay_rate : option R)
    : M (option R) :=
  match linear_decay_rate with
  | None =>
      if String.eqb mode "linear_static"
      then (r <- uniform (2 / 10) 2;; ret (Some r))
      else ret None
  | Some r => ret (Some r)
  end.

(** Lines 108-109: an invalid mode becomes [gaussian]. *)
Definition normalised_mode (mode : string) : string :=
  if negb (str_in mode known_modes) then "gaussian"%string else mode.

(** Lines 110-111: the decay rate of mode [linear_dynamic], derived. *)
Definition dynamic_rate (mask_size : Z * Z) (max_brightness min_brightness : Z)
    (mode : string) (linear_decay_rate : option R) : M (option R) :=
  if String.eqb mode "linear_dynamic"
  then
    if Z.max (fst mask_size) (snd mask_size) =? 0
    then raise ZeroDivisionError
    else ret (Some (IZR (max_brightness - min_brightness)
                    / IZR (Z.max (fst mask_size) (snd mask_size)))%R)
  else ret linear_decay_rate.

(** Lines 96-111 of [generate_parallel_light_mask]. *)
Definition resolve_light_params (mask_size : Z * Z) (position : option (Z * Z))
    (direction : option Z) (max_brightness min_brightness : Z) (mode : string)
    (linear_decay_rate : option R) : M light_params :=
  pos <- default_position mask_size position;;
  direction <- default_direction direction;;
  linear_decay_rate <- default_static_rate mode linear_decay_rate;;
  let mode := normalised_mode mode in
  linear_decay_rate <- dynamic_rate mask_size max_brightness min_brightness
                         mode linear_decay_rate;;
  ret (LightParams (fst pos) (snd pos) direction mode linear_decay_rate).

Section Mask.
Context `{Cv2}.

(** Lines 113-142: the padded canvas, the decay profile, the rotation
    about the light position, the crop, the median blur and the
    inversion. The canvas and the intermediate masks are local to the
    call and never aliased; they are values here. *)
Definition render_light_mask (mask_size : Z * Z) (max_brightness min_brightness : Z)
    (lp : light_params) : result (matrix Z) :=
  let padding := py_int (IZR (Z.max (fst mask_size) (snd mask_size)) * sqrt 2) in
  let canvas_x := padding * 2 + fst mask_size in
  let canvas_y := padding * 2 + snd mask_size in
  rbind (np_zeros canvas_y canvas_x) (fun mask =>
  let init_mask_ul := (padding, padding) in
  let init_mask_br := (padding + fst mask_size, padding + snd mask_size) in
  let init_light_pos := (padding + lp_pos_x lp, padding + lp_pos_y lp) in
  rbind (if String.eqb (lp_mode lp) "gaussian"
         then apply_decay_value_norm mask canvas_y max_brightness min_brightness
                (snd init_light_pos) (snd mask_size)
         else
           match lp_linear_decay_rate lp with
           | Some rate =>
               rbind (apply_decay_value_linear mask canvas_y max_brightness
                        (snd init_light_pos) rate)
                     (fun r => Ok (fst r))
           | None => Raise TypeError
           end) (fun mask =>
  let rotate_M := getRotationMatrix2D init_light_pos (lp_direction lp) 1 in
  rbind (warpAffine mask rotate_M (canvas_x, canvas_y)) (fun mask =>
  let mask := crop mask (snd init_mask_ul) (snd init_mask_br)
                        (fst init_mask_ul) (fst init_mask_br) in
  let mask := map (map astype_uint8) mask in
  rbind (medianBlur mask 9) (fun mask =>
  Ok (map (map (uint8_rsub 255)) mask))))).

(** [generate_parallel_light_mask(mask_size, position, direction,
    max_brightness, min_brightness, mode, linear_decay_rate)] *)
Definition generate_parallel_light_mask (mask_size : Z * Z) (position : option (Z * Z))
    (direction : option Z) (max_brightness min_brightness : Z) (mode : string)
    (linear_decay_rate : option R) : M (matrix Z) :=
  lp <- resolve_light_params mask_size position direction max_brightness
          min_brightness mode linear_decay_rate;;
  lift (render_light_mask mask_size max_brightness min_brightness lp).
End Mask.

(** ** The operator *)

(** The attributes set by [__init__]. *)
Record LightingGradient : Type := {
  light_position : option (Z * Z);
  direction : option Z;
  max_brightness : Z;
  min_brightness : Z;
  mode : string;
  linear_decay_rate : option R;
  transparency : option R;
  numba_jit : Z;
  p : R
}.

(** The operator [LightingGradient()] built with the defaults of
    [__init__]. *)
Definition default_operator : LightingGradient := {|
  light_position := None;
  direction := None;
  max_brightness := 255;
  min_brightness := 0;
  mode := "gaussian";
  linear_decay_rate := None;
  transparency := None;
  numba_jit := 1;
  p := 1
|}.

(** An annotation object (region mask, keypoints, bounding boxes) handed
    through by [__call__]: an opaque handle. *)
Definition pyobj : Type := nat.

(** What [__call__] returns: [None], the image, or the list [[image,
    mask, keypoints, bounding_boxes]]. *)
Inductive retval : Type :=
| RNone
| RImage (frame : loc)
| RList (frame : loc) (mask keypoints bounding_boxes : option pyobj).

(** The image a return value carries. *)
Definition returned_image (r : retval) : option loc :=
  match r with
  | RNone => None
  | RImage l => Some l
  | RList l _ _ _ => Some l
  end.

(** The right-hand side of line 232 written into [hsv[:, :, 2]]:
    [hsv[:, :, 2] * transparency + lighting_mask * (1 - transparency)],
    converted to [uint8] by the assignment. The operands must have the
    same shape (shapes that differ are rejected the way NumPy rejects
    shapes that do not broadcast). *)
Definition blend_value (hsv : ndarray) (lighting_mask : matrix Z) (transparency : R)
    : result ndarray :=
  match hsv with
  | A3 m =>
      if same_shape (A2 (channel 2 m)) (A2 lighting_mask)
      then Ok (A3 (zip_with (zip_with (fun px lm =>
                     <[2%nat := astype_uint8 (IZR (nth 2 px 0) * transparency
                                              + IZR lm * (1 - transparency))]> px))
                   m lighting_mask))
      else Raise ValueError
  | A2 _ => Raise IndexError
  end.

(** [frame[frame > 255] = 255] *)
Definition clamp255 (a : ndarray) : ndarray :=
  let c := fun v => if 255 <? v then 255 else v in
  match a with
  | A2 m => A2 (map (map c) m)
  | A3 m => A3 (map (map (map c)) m)
  end.

(** [np.dstack((frame, image_alpha))] *)
Definition dstack (frame alpha : ndarray) : result ndarray :=
  match frame, alpha with
  | A3 m, A2 al =>
      if same_shape (A2 (channel 0 m)) alpha
      then Ok (A3 (zip_with (zip_with (fun px a => px ++ [a])) m al))
      else Raise ValueError
  | A2 m, A2 al =>
      if same_shape frame alpha
      then Ok (A3 (zip_with (zip_with (fun v a => [v; a])) m al))
      else Raise ValueError
  | _, A3 _ => Raise ValueError
  end.

Section Operator.
Context `{Cv2}.

(** [Augmentation.should_run], inherited from the base class: it
    decides from the probability [p] and the random generator whether
    the operator runs. *)
Variable should_run : R -> list Z -> bool * list Z.

Definition call_should_run (self : LightingGradient) : M bool :=
  fun st =>
    let '(b, g) := should_run (p self) (rng st) in
    (Ok b, State (heap st) g).

(** [cv2.cvtColor] applied to the array a reference views; the result
    is a new array. *)
Definition cvt (r : ref) (code : color_code) : M loc :=
  a <- load r;;
  b <- lift (cvtColor a code);;
  alloc b.

(** Lines 216-221: the frame in HSV; a two-dimensional (grayscale)
    frame is first promoted to three channels. *)
Definition to_hsv (frame : ref) : M loc :=
  fr <- load frame;;
  if (2 <? length (shape fr))%nat
  then cvt frame COLOR_BGR2HSV
  else (bgr <- cvt frame COLOR_GRAY2BGR;;
        cvt (bgr, Whole) COLOR_BGR2HSV).

(** Line 232: [hsv[:, :, 2] = hsv[:, :, 2] * transparency +
    lighting_mask * (1 - transparency)], in place. *)
Definition blend_into (hsv : loc) (lighting_mask : matrix Z) (transparency : R)
    : M unit :=
  hsv_a <- load (hsv, Whole);;
  hsv_b <- lift (blend_value hsv_a lighting_mask transparency);;
  store hsv hsv_b.

(** Lines 233-235: back to BGR in a new array, the clamp in place;
    [np.asarray(frame, dtype=np.uint8)] returns the array it is given,
    which is [uint8] already. *)
Definition to_bgr (hsv : loc) : M loc :=
  frame <- cvt (hsv, Whole) COLOR_HSV2BGR;;
  fr <- load (frame, Whole);;
  _ <- store frame (clamp255 fr);;
  ret frame.

(** Lines 237-238 *)
Definition attach_alpha (has_alpha : bool) (frame : loc) (image_alpha : ref) : M loc :=
  if has_alpha
  then (fr <- load (frame, Whole);;
        al <- load image_alpha;;
        stacked <- lift (dstack fr al);;
        alloc stacked)
  else ret frame.

(** Lines 240-250 *)
Definition outputs (frame : loc) (mask keypoints bounding_boxes : option pyobj)
    : retval :=
  let outputs_extra :=
    match mask, keypoints, bounding_boxes with
    | None, None, None => []
    | _, _, _ => [mask; keypoints; bounding_boxes]
    end in
  match outputs_extra with
  | [] => RImage frame
  | _ => RList frame mask keypoints bounding_boxes
  end.

(** Lines 204-250, the body of the [if]. *)
Definition run_call (self : LightingGradient) (image : loc)
    (mask keypoints bounding_boxes : option pyobj) : M retval :=
  (* frame = image.copy() *)
  img <- load (image, Whole);;
  copy <- alloc img;;
  let has_alpha :=
    (2 <? length (shape img))%nat && (nth 2 (shape img) 0%nat =? 4)%nat in
  let frame := if has_alpha then (copy, Chans3) else (copy, Whole) in
  let image_alpha := (copy, Chan 3) in
  transparency <- match transparency self with
                  | None => uniform (5 / 10) (85 / 100)
                  | Some t => ret t
                  end;;
  fr <- load frame;;
  let height := Z.of_nat (nth 0 (shape fr) 0%nat) in
  let width := Z.of_nat (nth 1 (shape fr) 0%nat) in
  hsv <- to_hsv frame;;
  lighting_mask <- generate_parallel_light_mask (width, height)
                     (light_position self) (direction self)
                     (max_brightness self) (min_brightness self)
                     (mode self) (linear_decay_rate self);;
  _ <- blend_into hsv lighting_mask transparency;;
  frame <- to_bgr hsv;;
  frame <- attach_alpha has_alpha frame image_alpha;;
  ret (outputs frame mask keypoints bounding_boxes).

(** [self.__call__(image, layer, mask, keypoints, bounding_boxes,
    force)]; [layer] is not used. Without an [else], the method
    returns [None] when the gate declines. *)
Definition call (self : LightingGradient) (image : loc)
    (mask keypoints bounding_boxes : option pyobj) (force : bool) : M retval :=
  run <- (if force then ret true else call_should_run self);;
  if run : bool
  then run_call self image mask keypoints bounding_boxes
  else ret RNone.
End Operator.

(** ** A reference instance of the OpenCV kernels

    The kernels after the formulas of OpenCV's documentation, over ideal
    arithmetic. The results below hold for every instance of [Cv2]; this
    one serves to run the operator on concrete inputs. *)
Module Reference.

Definition bgr2hsv_px (c : Z * Z * Z) : Z * Z * Z :=
  let '(b, g, r) := c in
  let v := Z.max b (Z.max g r) in
  let d := v - Z.min b (Z.min g r) in
  let s := if v =? 0 then 0 else 255 * d / v in
  let h :=
    if d =? 0 then 0
    else if v =? r then 60 * (g - b) / d
    else if v =? g then 120 + 60 * (b - r) / d
    else 240 + 60 * (r - g) / d in
  ((if h <? 0 then h + 360 else h) / 2, s, v).

Definition hsv2bgr_px (c : Z * Z * Z) : Z * Z * Z :=
  let '(h, s, v) := c in
  let sector := (2 * h / 60) mod 6 in
  let f := (2 * h) mod 60 in
  let lo := v * (255 - s) / 255 in
  let dn := v * (255 * 60 - s * f) / (255 * 60) in
  let up := v * (255 * 60 - s * (60 - f)) / (255 * 60) in
  if sector =? 0 then (lo, up, v)
  else if sector =? 1 then (lo, v, dn)
  else if sector =? 2 then (up, v, lo)
  else if sector =? 3 then (v, dn, lo)
  else if sector =? 4 then (v, lo, up)
  else (dn, lo, v).

(** The source sample at integer coordinates, 0 outside the image
    (constant border). *)
Definition sample_at (src : matrix R) (x y : Z) : R :=
  if (x <? 0) || (y <? 0) then 0%R
  else
    match src !! Z.to_nat y with
    | Some row => match row !! Z.to_nat x with Some v => v | None => 0%R end
    | None => 0%R
    end.

(** Bilinear interpolation at the preimage of [(x, y)] under the
    affine map. *)
Definition bilinear (src : matrix R) (Mx : affine) (x y : nat) : R :=
  let '((a, b, c), (d, e, f)) := Mx in
  let det := (a * e - b * d)%R in
  let dx := (INR x - c)%R in
  let dy := (INR y - f)%R in
  let sx := ((e * dx - b * dy) / det)%R in
  let sy := ((a * dy - d * dx) / det)%R in
  let x0 := Zfloor sx in
  let y0 := Zfloor sy in
  let fx := (sx - IZR x0)%R in
  let fy := (sy - IZR y0)%R in
  ((1 - fx) * (1 - fy) * sample_at src x0 y0
   + fx * (1 - fy) * sample_at src (x0 + 1) y0
   + (1 - fx) * fy * sample_at src x0 (y0 + 1)
   + fx * fy * sample_at src (x0 + 1) (y0 + 1))%R.

(** An index clipped to the image (replicated border). *)
Definition clip_index (i : Z) (n : nat) : nat :=
  Z.to_nat (Z.max 0 (Z.min i (Z.of_nat n - 1))).

Definition window (src : matrix Z) (ksize : Z) (y x : nat) : list Z :=
  let offsets := map (fun k => Z.of_nat k - ksize / 2) (seq 0 (Z.to_nat ksize)) in
  flat_map (fun dy =>
    map (fun dx =>
      nth (clip_index (Z.of_nat x + dx) (ncols src))
          (nth (clip_index (Z.of_nat y + dy) (length src)) src []) 0)
      offsets) offsets.

Definition median (l : list Z) : Z :=
  nth (length l / 2) (merge_sort Z.le l) 0.

Definition median_px (src : matrix Z) (ksize : Z) (y x : nat) : Z :=
  median (window src ksize y x).

Definition cv2 : Cv2 := {|
  bgr2hsv := bgr2hsv_px;
  hsv2bgr := hsv2bgr_px;
  warp_sample := bilinear;
  median_sample := median_px
|}.

(** A gate that always declines, and one that always accepts. *)
Definition gate_no (prob : R) (g : list Z) : bool * list Z := (false, g).
Definition gate_yes (prob : R) (g : list Z) : bool * list Z := (true, g).

End Reference.

(** ** Statements of the specification, in its words *)

(** "value = max(1, max_brightness - |center - x| * rate)" *)
Definition linear_value_spec (max_value center : Z) (rate : R) (x : Z) : R :=
  Rmax 1 (IZR max_value - Rabs (IZR center - IZR x) * rate).

(** ** Reasoning about runs *)

(** The rows a loop of row assignments leaves behind: rows [a .. a+k-1]
    hold the value computed for their index, the others are as before. *)
Definition rows_filled (f : nat -> R) (a k : nat) (mask mask' : matrix R) : Prop :=
  length mask' = length mask /\
  forall x : nat,
    mask' !! x =
      if bool_decide (a <= x < a + k)%nat
      then (fun row => replicate (length row) (f x)) <$> mask !! x
      else mask !! x.

(** [wp m st Q]: started in [st], [m] returns normally with a value and
    in a state that satisfy [Q]. *)
Definition wp {A} (m : M A) (st : state) (Q : A -> state -> Prop) : Prop :=
  exists a st', m st = (Ok a, st') /\ Q a st'.

(** [m] leaves the heap as it is, whatever it returns. *)
Definition heap_neutral {A} (m : M A) : Prop :=
  forall st, heap (snd (m st)) = heap st.

(** [framed h0 m P]: run in a heap that extends [h0], [m] ends, normally
    or with an exception, in a heap that still extends [h0] (no buffer
    of [h0] is written), and a value returned normally satisfies [P]. *)
Definition framed {A} (h0 : gmap loc ndarray) (m : M A) (P : A -> Prop) : Prop :=
  forall st,
    h0 ⊆ heap st ->
    h0 ⊆ heap (snd (m st)) /\ forall a, fst (m st) = Ok a -> P a.

(** [ends m Q E]: from every state, [m] either returns a value that
    satisfies [Q] or raises an exception that satisfies [E]. *)
Definition ends {A} (m : M A) (Q : A -> Prop) (E : exn -> Prop) : Prop :=
  forall st, match fst (m st) with Ok a => Q a | Raise e => E e end.

(** The gate lets the call through. *)
Definition gate_open (should_run : R -> list Z -> bool * list Z)
    (self : LightingGradient) (force : bool) (st : state) : Prop :=
  force = true \/ fst (should_run (p self) (rng st)) = true.

(** Samples of a [uint8] buffer. *)
Definition uint8_samples (m : matrix Z) : Prop :=
  Forall (Forall (fun v => 0 <= v <= 255)) m.


(** ** Consumption of the random generator *)

(** [draws n m P]: from every state, [m] returns normally a value that
    satisfies [P], leaves the heap as it is and takes exactly [n] words
    from the generator. *)
Definition draws {A} (n : nat) (m : M A) (P : A -> Prop) : Prop :=
  forall st, exists a, m st = (Ok a, State (heap st) (drop n (rng st))) /\ P a.

(** The number of values lines 96-106 draw from [random]. *)
Definition resolve_draws (position : option (Z * Z)) (direction : option Z)
    (mode : string) (linear_decay_rate : option R) : nat :=
  (match position with None => 2 | Some _ => 0 end
   + match direction with None => 1 | Some _ => 0 end
   + match linear_decay_rate with
     | None => if String.eqb mode "linear_static" then 1 else 0
     | Some _ => 0
     end)%nat.

(** The number of values a forced call draws: the transparency (line
    212) and the defaults of the mask. *)
Definition call_draws (self : LightingGradient) : nat :=
  (match transparency self with None => 1 | Some _ => 0 end
   + resolve_draws (light_position self) (direction self) (mode self)
       (linear_decay_rate self))%nat.

(** An image [__call__] handles: [h] rows and [w] columns, grayscale
    (two-dimensional) or with three or four channels. *)
Definition wf_image (img : ndarray) (h w : nat) : Prop :=
  match img with
  | A2 m => dims2 m h w
  | A3 m => dims3 m h w 3 \/ dims3 m h w 4
  end.

(** [m[y, x]], when the indices are in range. *)
Definition entry {A} (m : matrix A) (y x : nat) : option A :=
  match m !! y with
  | Some row => row !! x
  | None => None
  end.

(** * SubtleNoise ([augraphy/augmentations/subtlenoise.py])

    The operator works on values: the copy it makes of its input is the
    only array it changes. NumPy's global generator [np.random] is a
    second tape of raw words, separate from the one of [random]. *)
Module SubtleNoise.

(** The attributes set by [__init__]. *)
Record t : Type := {
  range : Z;
  p : R
}.

(** [n] words off the tape, in order. *)
Fixpoint draw_words (n : nat) (g : list Z) : list Z * list Z :=
  match n with
  | O => ([], g)
  | S n' =>
      let '(x, g1) := draw g in
      let '(xs, g2) := draw_words n' g1 in
      (x :: xs, g2)
  end.

(** A [rows] x [cols] matrix of words, row by row. *)
Fixpoint draw_matrix (rows cols : nat) (g : list Z) : matrix Z * list Z :=
  match rows with
  | O => ([], g)
  | S rows' =>
      let '(row, g1) := draw_words cols g in
      let '(rest, g2) := draw_matrix rows' cols g1 in
      (row :: rest, g2)
  end.

(** A value of type [int64]: reduction to [[-2^63, 2^63)], which is what
    NumPy's integer arithmetic does on overflow. *)
Definition int64 (z : Z) : Z := (z + 2 ^ 63) mod 2 ^ 64 - 2 ^ 63.

(** [np.random.randint(low, high, size=(rows, cols))], of the default
    type [int64]: integers [N] with [low <= N < high]. An empty [size]
    is answered first, by an empty array, whatever the bounds are; then
    come the [ValueError]s: a bound outside [int64] ([low < -2^63] or
    [high - 1 > 2^63 - 1]), an empty range ([low >= high]). *)
Definition np_random_randint (low high : Z) (rows cols : nat) (g : list Z)
    : result (matrix Z) * list Z :=
  if (rows * cols =? 0)%nat then (Ok (replicate rows (replicate cols 0)), g)
  else if (low <? - 2 ^ 63) || (2 ^ 63 <? high) then (Raise ValueError, g)
  else if high <=? low then (Raise ValueError, g)
  else
    let '(ws, g') := draw_matrix rows cols g in
    (Ok (map (map (fun n => low + n mod (high - low))) ws), g').

(** [self.add_subtle_noise(image)] on a two-dimensional array: the
    image as integers ([int64]) plus a noise mask of its size. *)
Definition add_subtle_noise (self : t) (image : matrix Z) (g : list Z)
    : result (matrix Z) * list Z :=
  let ysize := length image in
  let xsize := ncols image in
  let '(r, g') := np_random_randint (- range self) (range self) ysize xsize g in
  (rbind r (fun image_noise =>
              Ok (zip_with (zip_with (fun v n => int64 (v + n))) image image_noise)),
   g').

(** [image[:, :, i] = ch] *)
Definition set_channel (i : nat) (image : matrix (list Z)) (ch : matrix Z)
    : matrix (list Z) :=
  zip_with (zip_with (fun px v => <[i := v]> px)) image ch.

(** Lines 52-53: [for i in cs: image[:, :, i] =
    self.add_subtle_noise(image[:, :, i])]. *)
Fixpoint noise_channels (self : t) (cs : list nat) (image : matrix (list Z)) (g : list Z)
    : result (matrix (list Z)) * list Z :=
  match cs with
  | [] => (Ok image, g)
  | i :: cs' =>
      match add_subtle_noise self (channel i image) g with
      | (Ok ch, g') => noise_channels self cs' (set_channel i image ch) g'
      | (Raise e, g') => (Raise e, g')
      end
  end.

(** Lines 59-61 on one sample: [np.clip(_, 0, 255)], then
    [astype("uint8")]. *)
Definition finish (v : Z) : Z := Z.min 255 (Z.max 0 v) mod 256.

Section Call.
Variable should_run : R -> list Z -> bool * list Z.

(** [self.__call__(image, layer, force)]: the result ([None] when the
    gate declines) and the two generators ([random], [np.random])
    afterwards. *)
Definition call (self : t) (image : ndarray) (force : bool) (py_rng np_rng : list Z)
    : result (option ndarray) * (list Z * list Z) :=
  let '(run, py_rng') :=
    if force then (true, py_rng) else should_run (p self) py_rng in
  if run : bool then
    match image with
    | A3 m =>
        let '(r, np_rng') := noise_channels self (seq 0 (nchan m)) m np_rng in
        (rbind r (fun m' => Ok (Some (A3 (map (map (map finish)) m')))),
         (py_rng', np_rng'))
    | A2 m =>
        let '(r, np_rng') := add_subtle_noise self m np_rng in
        (rbind r (fun m' => Ok (Some (A2 (map (map finish) m')))),
         (py_rng', np_rng'))
    end
  else (Ok None, (py_rng', np_rng)).
End Call.

End SubtleNoise.

(** A sample [o] the noise of range [r] leaves for an input sample [v]:
    a byte, within [r] of a byte input. *)
Definition noised (r v o : Z) : Prop :=
  0 <= o <= 255 /\ (0 <= v <= 255 -> - r <= o - v < r).

(** * Properties *)

(** ** The executable parts on small inputs *)

Example py_slice_inner_ex : py_slice [1; 2; 3; 4; 5] 1 3 = [2; 3].
Proof. reflexivity. Qed.

Example py_slice_negative_ex : py_slice [1; 2; 3; 4; 5] (-2) 9 = [4; 5].
Proof. reflexivity. Qed.

Example crop_ex : crop [[1; 2; 3]; [4; 5; 6]; [7; 8; 9]] 1 3 0 2 = [[4; 5]; [7; 8]].
Proof. reflexivity. Qed.

Example randint_ex : randint 0 360 (State ∅ [725; 9]) = (Ok 3, State ∅ [9]).
Proof. reflexivity. Qed.

Example randint_empty_ex : randint 0 (-5) (State ∅ [725]) = (Raise ValueError, State ∅ [725]).
Proof. reflexivity. Qed.

Example normalised_mode_ex :
  map normalised_mode ["linear_static"; "gaussian"; "not_a_mode"]%string
  = ["linear_static"; "gaussian"; "gaussian"]%string.
Proof. reflexivity. Qed.

Example dstack_ex :
  dstack (A3 [[[1; 2; 3]; [4; 5; 6]]]) (A2 [[7; 8]])
  = Ok (A3 [[[1; 2; 3; 7]; [4; 5; 6; 8]]]).
Proof. reflexivity. Qed.

Example red_to_hsv_ex : Reference.bgr2hsv_px (0, 0, 255) = (0, 255, 255).
Proof. reflexivity. Qed.

Example red_from_hsv_ex : Reference.hsv2bgr_px (0, 255, 255) = (0, 0, 255).
Proof. reflexivity. Qed.

Example median_ex : Reference.median [5; 1; 3; 9; 7] = 5.
Proof. reflexivity. Qed.

Example gray_to_bgr_ex :
  cvtColor (H := Reference.cv2) (A2 [[10; 20]]) COLOR_GRAY2BGR
  = Ok (A3 [[[10; 10; 10]; [20; 20; 20]]]).
Proof. reflexivity. Qed.

(** ** The decay-profile kernels *)

Lemma setitem_row_lookup (mask : matrix R) (x : nat) (v : R) (row : list R) :
  mask !! x = Some row ->
  setitem_row mask x v = Ok (<[x := replicate (length row) v]> mask).
Proof. intros E. unfold setitem_row. now rewrite E. Qed.

Lemma rows_filled_step (f : nat -> R) (a k : nat) (mask mask' : matrix R) (row : list R) :
  mask !! a = Some row ->
  rows_filled f (S a) k (<[a := replicate (length row) (f a)]> mask) mask' ->
  rows_filled f a (S k) mask mask'.
Proof.
  intros Ha [Hlen Hrows]. split.
  - rewrite Hlen. apply length_insert.
  - intros x. rewrite Hrows.
    destruct (decide (x = a)) as [->|Hne].
    + rewrite bool_decide_eq_false_2 by lia.
      rewrite bool_decide_eq_true_2 by lia.
      rewrite list_lookup_insert_eq by (apply lookup_lt_Some in Ha; lia).
      now rewrite Ha.
    + rewrite list_lookup_insert_ne by congruence.
      destruct (decide (S a <= x < S a + k)%nat).
      * rewrite !bool_decide_eq_true_2 by lia. reflexivity.
      * rewrite !bool_decide_eq_false_2 by lia. reflexivity.
Qed.

Lemma rows_filled_nil (f : nat -> R) (a : nat) (mask : matrix R) :
  rows_filled f a 0 mask mask.
Proof.
  split; [reflexivity|]. intros x. now rewrite bool_decide_eq_false_2 by lia.
Qed.

Lemma norm_loop (max_value min_value center grange : Z) (k a : nat) (mask : matrix R) :
  grange <> 0 ->
  (a + k <= length mask)%nat ->
  exists mask',
    for_each (norm_iter max_value min_value center grange) (seq a k) mask = Ok mask' /\
    rows_filled (fun x => norm_value max_value min_value center grange (Z.of_nat x))
      a k mask mask'.
Proof.
  intros Hg. revert a mask. induction k as [|k IH]; intros a mask Hlen.
  - exists mask. split; [reflexivity|apply rows_filled_nil].
  - destruct (lookup_lt_is_Some_2 mask a) as [row Hrow]; [lia|].
    simpl. unfold norm_iter at 1.
    apply Z.eqb_neq in Hg as Hg'. rewrite Hg'.
    rewrite (setitem_row_lookup _ _ _ _ Hrow). simpl.
    destruct (IH (S a) (<[a := replicate (length row)
                (norm_value max_value min_value center grange (Z.of_nat a))]> mask))
      as (mask' & Hrun & Hfill).
    { rewrite length_insert. lia. }
    exists mask'. split; [exact Hrun|].
    eapply rows_filled_step; eauto.
Qed.

Lemma linear_loop (max_value center : Z) (rate : R) (k a : nat) (mask : matrix R)
    (last : option R) :
  (a + k <= length mask)%nat ->
  exists mask',
    for_each (linear_iter max_value center rate) (seq a k) (mask, last)
    = Ok (mask', match k with
                 | O => last
                 | S _ => Some (linear_value max_value center rate (Z.of_nat (a + k - 1)))
                 end) /\
    rows_filled (fun x => linear_value max_value center rate (Z.of_nat x)) a k mask mask'.
Proof.
  revert a mask last. induction k as [|k IH]; intros a mask last Hlen.
  - exists mask. split; [reflexivity|apply rows_filled_nil].
  - destruct (lookup_lt_is_Some_2 mask a) as [row Hrow]; [lia|].
    simpl. unfold linear_iter at 1. simpl.
    rewrite (setitem_row_lookup _ _ _ _ Hrow). simpl.
    destruct (IH (S a) (<[a := replicate (length row)
                (linear_value max_value center rate (Z.of_nat a))]> mask)
                (Some (linear_value max_value center rate (Z.of_nat a))))
      as (mask' & Hrun & Hfill).
    { rewrite length_insert. lia. }
    exists mask'. split.
    + rewrite Hrun. f_equal. f_equal. destruct k.
      * do 3 f_equal. lia.
      * do 3 f_equal. lia.
    + eapply rows_filled_step; eauto.
Qed.

Lemma range_length (n : Z) : length (range n) = Z.to_nat n.
Proof. apply length_seq. Qed.

Lemma apply_decay_value_linear_rows (mask : matrix R) (canvas_y max_value center : Z)
    (rate : R) :
  0 < canvas_y <= Z.of_nat (length mask) ->
  exists mask',
    apply_decay_value_linear mask canvas_y max_value center rate
    = Ok (mask', linear_value max_value center rate (canvas_y - 1)) /\
    rows_filled (fun x => linear_value max_value center rate (Z.of_nat x))
      0 (Z.to_nat canvas_y) mask mask'.
Proof.
  intros Hc.
  destruct (linear_loop max_value center rate (Z.to_nat canvas_y) 0 mask None)
    as (mask' & Hrun & Hfill); [lia|].
  exists mask'. split; [|exact Hfill].
  unfold apply_decay_value_linear, range. rewrite Hrun. simpl.
  destruct (Z.to_nat canvas_y) as [|k] eqn:E; [lia|].
  simpl. do 3 f_equal. lia.
Qed.

Lemma apply_decay_value_norm_rows (mask : matrix R)
    (canvas_y max_value min_value center grange : Z) :
  grange <> 0 ->
  canvas_y <= Z.of_nat (length mask) ->
  exists mask',
    apply_decay_value_norm mask canvas_y max_value min_value center grange = Ok mask' /\
    rows_filled (fun x => norm_value max_value min_value center grange (Z.of_nat x))
      0 (Z.to_nat canvas_y) mask mask'.
Proof.
  intros Hg Hc. apply norm_loop; [exact Hg|lia].
Qed.

Lemma linear_value_raw (max_value center : Z) (rate : R) (x : Z) :
  linear_value max_value center rate x
  = let raw := (IZR max_value - Rabs (IZR center - IZR x) * rate)%R in
    if Rlt_dec raw 0 then 1%R else raw.
Proof.
  unfold linear_value. now rewrite abs_IZR, minus_IZR.
Qed.

Lemma linear_value_nonneg (max_value center : Z) (rate : R) (x : Z) :
  (0 <= linear_value max_value center rate x)%R.
Proof.
  unfold linear_value. destruct (Rlt_dec _ 0); lra.
Qed.

(** With a positive radius the two normalising factors cancel: the value
    is the Gaussian bell scaled into the brightness range. *)
Lemma norm_value_bell (max_value min_value center grange x : Z) :
  grange <> 0 ->
  norm_value max_value min_value center grange x
  = (exp (- (IZR (x - center) / Rabs (IZR grange / 3)) ^ 2 / 2)
     * IZR (max_value - min_value) + IZR min_value)%R.
Proof.
  intros Hg. unfold norm_value.
  assert (Hr : (0 < Rabs (IZR grange / 3))%R).
  { apply Rabs_pos_lt. apply (not_0_IZR grange) in Hg. lra. }
  assert (Hs : (0 < sqrt (2 * PI))%R).
  { apply sqrt_lt_R0. pose proof PI_RGT_0. lra. }
  set (r := Rabs (IZR grange / 3)) in *.
  set (s := sqrt (2 * PI)) in *.
  set (u := (IZR (x - center) / r)%R).
  replace (- u * u / 2)%R with (- u ^ 2 / 2)%R by (simpl; lra).
  f_equal. f_equal. field. split; lra.
Qed.

Lemma norm_value_center (max_value min_value center grange : Z) :
  grange <> 0 ->
  norm_value max_value min_value center grange center = IZR max_value.
Proof.
  intros Hg. rewrite norm_value_bell by exact Hg.
  rewrite Z.sub_diag. unfold Rdiv at 2. rewrite Rmult_0_l.
  replace (- 0 ^ 2 / 2)%R with 0%R by (simpl; lra).
  rewrite exp_0, minus_IZR. lra.
Qed.

Lemma norm_value_falloff (max_value min_value center grange x y : Z) :
  grange <> 0 ->
  min_value <= max_value ->
  Z.abs (y - center) <= Z.abs (x - center) ->
  (norm_value max_value min_value center grange x
   <= norm_value max_value min_value center grange y)%R.
Proof.
  intros Hg Hmm Hxy. rewrite !norm_value_bell by exact Hg.
  assert (Hr : (0 < Rabs (IZR grange / 3))%R).
  { apply Rabs_pos_lt. apply (not_0_IZR grange) in Hg. lra. }
  set (r := Rabs (IZR grange / 3)) in *.
  assert (Hd : (0 <= IZR (max_value - min_value))%R) by (apply IZR_le; lia).
  assert (Hsq : ((IZR (y - center) / r) ^ 2 <= (IZR (x - center) / r) ^ 2)%R).
  { rewrite <- (pow2_abs (IZR (y - center) / r)), <- (pow2_abs (IZR (x - center) / r)).
    apply pow_incr. split; [apply Rabs_pos|].
    unfold Rdiv. rewrite !Rabs_mult.
    apply Rmult_le_compat_r; [apply Rabs_pos|].
    rewrite <- !abs_IZR. now apply IZR_le. }
  assert (He : (exp (- (IZR (x - center) / r) ^ 2 / 2)
                <= exp (- (IZR (y - center) / r) ^ 2 / 2))%R).
  { destruct (Req_dec ((IZR (y - center) / r) ^ 2) ((IZR (x - center) / r) ^ 2)) as [E|N].
    - rewrite E. lra.
    - left. apply exp_increasing. lra. }
  nra.
Qed.

(** ** Numbers and shapes *)

Lemma py_int_nonneg (x : R) : (0 <= x)%R -> 0 <= py_int x.
Proof.
  intros Hx. unfold py_int. destruct (Rle_dec 0 x); [|contradiction].
  now apply Zfloor_lub.
Qed.

Lemma py_int_nonpos (x : R) : (x <= 0)%R -> py_int x <= 0.
Proof.
  intros Hx. unfold py_int. destruct (Rle_dec 0 x) as [H0|H0].
  - replace x with (IZR 0) by lra. now rewrite ZfloorZ.
  - destruct (Zceil_bound x) as [Hlo _].
    assert (IZR (Zceil x) < 1)%R by lra.
    apply lt_IZR in H. lia.
Qed.

Lemma padding_nonneg (m : Z) : 0 <= m -> 0 <= py_int (IZR m * sqrt 2).
Proof.
  intros Hm. apply py_int_nonneg. apply Rmult_le_pos; [now apply IZR_le|apply sqrt_pos].
Qed.

Lemma padding_nonpos (m : Z) : m <= 0 -> py_int (IZR m * sqrt 2) <= 0.
Proof.
  intros Hm. apply py_int_nonpos.
  apply (IZR_le m 0) in Hm. pose proof (sqrt_pos 2). nra.
Qed.

Lemma uint8_rsub_range (c v : Z) : 0 <= uint8_rsub c v <= 255.
Proof. unfold uint8_rsub. pose proof (Z.mod_pos_bound (c - v) 256). lia. Qed.

Lemma dims2_replicate {A} (h w : nat) (v : A) :
  dims2 (replicate h (replicate w v)) h w.
Proof.
  split; [apply length_replicate|].
  apply Forall_replicate. apply length_replicate.
Qed.

Lemma dims2_map {A B} (f : A -> B) (m : matrix A) (h w : nat) :
  dims2 m h w -> dims2 (map (map f) m) h w.
Proof.
  intros [Hh Hw]. split; [now rewrite length_map|].
  apply Forall_map. eapply Forall_impl; [exact Hw|].
  intros row Hrow. simpl. now rewrite length_map.
Qed.

Lemma dims2_ncols {A} (m : matrix A) (h w : nat) :
  dims2 m h w -> (0 < h)%nat -> ncols m = w.
Proof.
  intros [Hh Hw] Hpos. unfold ncols. destruct m as [|row m]; simpl in *; [lia|].
  now inversion Hw.
Qed.

Lemma dims2_nonempty {A} (m : matrix A) (h w : nat) :
  dims2 m h w -> (0 < h)%nat -> (0 < w)%nat -> nonempty m = true.
Proof.
  intros Hd Hh Hw. unfold nonempty.
  rewrite (dims2_ncols m h w Hd Hh). destruct Hd as [-> _].
  destruct h, w; try lia. reflexivity.
Qed.

Lemma rows_filled_dims (f : nat -> R) (a k : nat) (mask mask' : matrix R) (h w : nat) :
  rows_filled f a k mask mask' -> dims2 mask h w -> dims2 mask' h w.
Proof.
  intros [Hlen Hrows] [Hh Hw]. split; [congruence|].
  apply Forall_lookup. intros i row Hi.
  rewrite Hrows in Hi. rewrite Forall_lookup in Hw.
  destruct (mask !! i) as [row0|] eqn:E.
  - specialize (Hw i row0 E). simpl in Hw.
    destruct (bool_decide _); simpl in Hi; injection Hi as <-.
    + rewrite length_replicate. exact Hw.
    + exact Hw.
  - destruct (bool_decide _); simpl in Hi; discriminate.
Qed.

Lemma py_slice_inner {A} (l : list A) (a b : Z) :
  0 <= a <= b -> b <= Z.of_nat (length l) ->
  py_slice l a b = take (Z.to_nat (b - a)) (drop (Z.to_nat a) l).
Proof.
  intros Hab Hb. unfold py_slice, slice_bound.
  destruct (Z.ltb_spec a 0), (Z.ltb_spec b 0); try lia.
  rewrite !Z.min_l by lia. f_equal. lia.
Qed.

Lemma py_slice_length {A} (l : list A) (a b : Z) :
  0 <= a <= b -> b <= Z.of_nat (length l) ->
  length (py_slice l a b) = Z.to_nat (b - a).
Proof.
  intros Hab Hb. rewrite py_slice_inner by assumption.
  rewrite length_take, length_drop. lia.
Qed.

Lemma crop_dims {A} (m : matrix A) (h w : nat) (r0 r1 c0 c1 : Z) :
  dims2 m h w ->
  0 <= r0 <= r1 -> r1 <= Z.of_nat h ->
  0 <= c0 <= c1 -> c1 <= Z.of_nat w ->
  dims2 (crop m r0 r1 c0 c1) (Z.to_nat (r1 - r0)) (Z.to_nat (c1 - c0)).
Proof.
  intros [Hh Hw] Hr Hr1 Hc Hc1. unfold crop. split.
  - rewrite length_map. apply py_slice_length; [lia|]. now rewrite Hh.
  - apply Forall_map. rewrite py_slice_inner by (rewrite ?Hh; lia).
    apply Forall_take, Forall_drop.
    eapply Forall_impl; [exact Hw|].
    intros row Hrow. simpl. apply py_slice_length; [lia|]. now rewrite Hrow.
Qed.

Section MaskFacts.
Context `{Cv2}.

Lemma warpAffine_dims (src : matrix R) (Mx : affine) (dw dh : Z) :
  nonempty src = true -> 0 < dw -> 0 < dh ->
  exists dst, warpAffine src Mx (dw, dh) = Ok dst /\
              dims2 dst (Z.to_nat dh) (Z.to_nat dw).
Proof.
  intros Hne Hw Hh. unfold warpAffine. rewrite Hne. simpl.
  destruct (Z.ltb_spec 0 dw); [|lia]. destruct (Z.ltb_spec 0 dh); [|lia]. simpl.
  eexists. split; [reflexivity|]. split.
  - now rewrite length_map, length_seq.
  - apply Forall_map, Forall_forall. intros y _. simpl.
    now rewrite length_map, length_seq.
Qed.

Lemma medianBlur_dims (src : matrix Z) (ksize : Z) (h w : nat) :
  dims2 src h w -> (0 < h)%nat -> (0 < w)%nat ->
  exists dst, medianBlur src ksize = Ok dst /\ dims2 dst h w.
Proof.
  intros Hd Hh Hw. unfold medianBlur.
  rewrite (dims2_nonempty src h w Hd Hh Hw).
  eexists. split; [reflexivity|]. destruct Hd as [Hlen Hrows]. split.
  - now rewrite length_imap.
  - apply Forall_lookup. intros i row Hi.
    rewrite list_lookup_imap in Hi.
    destruct (src !! i) as [row0|] eqn:E; simpl in Hi; [|discriminate].
    inversion Hi; subst. rewrite length_imap.
    rewrite Forall_lookup in Hrows. exact (Hrows i row0 E).
Qed.
End MaskFacts.

(** ** Rules for runs that return normally *)

Lemma wp_bind {A B} (m : M A) (f : A -> M B) (st : state) (Q : B -> state -> Prop) :
  wp m st (fun a st' => wp (f a) st' Q) -> wp (bind m f) st Q.
Proof.
  intros (a & st' & Hm & b & st'' & Hf & HQ).
  exists b, st''. split; [|exact HQ]. unfold bind. now rewrite Hm.
Qed.

Lemma wp_ret {A} (a : A) (st : state) (Q : A -> state -> Prop) :
  Q a st -> wp (ret a) st Q.
Proof. intros HQ. now exists a, st. Qed.

Lemma wp_lift {A} (r : result A) (a : A) (st : state) (Q : A -> state -> Prop) :
  r = Ok a -> Q a st -> wp (lift r) st Q.
Proof. intros -> HQ. now exists a, st. Qed.

Lemma wp_mono {A} (m : M A) (st : state) (Q Q' : A -> state -> Prop) :
  wp m st Q -> (forall a st', Q a st' -> Q' a st') -> wp m st Q'.
Proof. intros (a & st' & Hm & HQ) Himp. exists a, st'. auto. Qed.

Lemma wp_randint (a b : Z) (st : state) (Q : Z -> state -> Prop) :
  a <= b ->
  (forall v g, a <= v <= b -> Q v (State (heap st) g)) ->
  wp (randint a b) st Q.
Proof.
  intros Hab HQ. unfold wp, randint. destruct (Z.ltb_spec b a); [lia|].
  destruct (draw (rng st)) as [n g]. do 2 eexists. split; [reflexivity|].
  apply HQ. pose proof (Z.mod_pos_bound n (b - a + 1)). lia.
Qed.

Lemma wp_uniform (a b : R) (st : state) (Q : R -> state -> Prop) :
  (forall v g, Q v (State (heap st) g)) -> wp (uniform a b) st Q.
Proof.
  intros HQ. unfold wp, uniform. destruct (draw (rng st)) as [n g].
  do 2 eexists. split; [reflexivity|]. apply HQ.
Qed.

Lemma wp_load (l : loc) (v : view) (a b : ndarray) (st : state)
    (Q : ndarray -> state -> Prop) :
  heap st !! l = Some a -> apply_view v a = Ok b -> Q b st ->
  wp (load (l, v)) st Q.
Proof.
  intros Hl Hv HQ. exists b, st. split; [|exact HQ].
  unfold load. simpl. now rewrite Hl, Hv.
Qed.

Lemma wp_alloc (a : ndarray) (st : state) (Q : loc -> state -> Prop) :
  (forall l, heap st !! l = None -> Q l (State (<[l := a]> (heap st)) (rng st))) ->
  wp (alloc a) st Q.
Proof.
  intros HQ. do 2 eexists. split; [reflexivity|]. apply HQ.
  apply not_elem_of_dom, is_fresh.
Qed.

Lemma wp_store (l : loc) (a : ndarray) (st : state) (Q : unit -> state -> Prop) :
  is_Some (heap st !! l) ->
  Q tt (State (<[l := a]> (heap st)) (rng st)) ->
  wp (store l a) st Q.
Proof.
  intros [old Hl] HQ. exists tt. eexists. split; [|exact HQ].
  unfold store. now rewrite Hl.
Qed.

(** ** Resolution of the defaults *)

Lemma normalised_mode_cases (md : string) :
  (md = "linear_dynamic"%string /\ normalised_mode md = "linear_dynamic"%string) \/
  (md = "linear_static"%string /\ normalised_mode md = "linear_static"%string) \/
  (md <> "linear_dynamic"%string /\ md <> "linear_static"%string /\
   normalised_mode md = "gaussian"%string).
Proof.
  unfold normalised_mode, str_in, known_modes. simpl.
  destruct (String.eqb_spec md "linear_dynamic") as [->|Hd]; [left; split; reflexivity|].
  destruct (String.eqb_spec md "linear_static") as [->|Hs];
    [right; left; split; reflexivity|].
  destruct (String.eqb_spec md "gaussian") as [->|Hg]; simpl; right; right; tauto.
Qed.

Lemma wp_default_position (w h : Z) (position : option (Z * Z)) (st : state)
    (Q : Z * Z -> state -> Prop) :
  0 <= w -> 0 <= h ->
  (forall pos g, Q pos (State (heap st) g)) ->
  wp (default_position (w, h) position) st Q.
Proof.
  intros Hw Hh HQ. destruct position as [pos|]; simpl.
  - apply wp_ret. destruct st. apply HQ.
  - apply wp_bind, wp_randint; [exact Hw|]. intros x g _.
    apply wp_bind, wp_randint; [exact Hh|]. intros y g' _.
    apply wp_ret, HQ.
Qed.

Lemma wp_default_direction (dir : option Z) (st : state) (Q : Z -> state -> Prop) :
  (forall d g,
     match dir with Some d0 => d = d0 | None => 0 <= d <= 360 end ->
     Q d (State (heap st) g)) ->
  wp (default_direction dir) st Q.
Proof.
  intros HQ. destruct dir as [d0|]; simpl.
  - apply wp_ret. destruct st. now apply HQ.
  - apply wp_randint; [lia|]. intros d g Hd. now apply HQ.
Qed.

Lemma wp_default_static_rate (md : string) (rate : option R) (st : state)
    (Q : option R -> state -> Prop) :
  (forall r g, (md = "linear_static"%string -> is_Some r) -> Q r (State (heap st) g)) ->
  wp (default_static_rate md rate) st Q.
Proof.
  intros HQ. destruct rate as [r|]; simpl.
  - apply wp_ret. destruct st. apply HQ. eauto.
  - destruct (String.eqb_spec md "linear_static") as [->|Hne].
    + apply wp_bind, wp_uniform. intros r g. apply wp_ret, HQ. eauto.
    + apply wp_ret. destruct st. apply HQ. intros E. contradiction.
Qed.

Lemma wp_dynamic_rate (w h maxb minb : Z) (md : string) (rate : option R) (st : state)
    (Q : option R -> state -> Prop) :
  Z.max w h <> 0 ->
  (forall r, (md = "linear_dynamic"%string \/ is_Some rate -> is_Some r) -> Q r st) ->
  wp (dynamic_rate (w, h) maxb minb md rate) st Q.
Proof.
  intros Hmax HQ. unfold dynamic_rate. simpl.
  destruct (String.eqb_spec md "linear_dynamic") as [->|Hne].
  - apply Z.eqb_neq in Hmax. rewrite Hmax. apply wp_ret, HQ. eauto.
  - apply wp_ret, HQ. intros [E|Hs]; [contradiction|exact Hs].
Qed.

Lemma wp_resolve_light_params (w h : Z) (position : option (Z * Z)) (dir : option Z)
    (maxb minb : Z) (md : string) (rate : option R) (st : state)
    (Q : light_params -> state -> Prop) :
  0 < w -> 0 < h ->
  (forall lp g,
     (lp_mode lp = "gaussian"%string \/ is_Some (lp_linear_decay_rate lp)) ->
     match dir with Some d => lp_direction lp = d | None => 0 <= lp_direction lp <= 360 end ->
     Q lp (State (heap st) g)) ->
  wp (resolve_light_params (w, h) position dir maxb minb md rate) st Q.
Proof.
  intros Hw Hh HQ. unfold resolve_light_params.
  apply wp_bind, wp_default_position; [lia|lia|]. intros pos g1.
  apply wp_bind, wp_default_direction. intros d g2 Hd.
  apply wp_bind, wp_default_static_rate. intros r1 g3 Hr1.
  apply wp_bind, wp_dynamic_rate; [lia|]. intros r2 Hr2.
  apply wp_ret, HQ; simpl; [|exact Hd].
  destruct (normalised_mode_cases md) as [[-> E]|[[-> E]|(_ & _ & E)]]; rewrite E.
  - right. apply Hr2. now left.
  - right. apply Hr2. right. now apply Hr1.
  - now left.
Qed.

(** With [direction] unset, the resolved direction is the word the
    generator yields for it, reduced modulo 361: the first word when a
    position is given, the third after the two of an unset position. *)
Lemma resolve_direction_word (w h : Z) (position : option (Z * Z)) (maxb minb : Z)
    (md : string) (rate : option R) (hp : gmap loc ndarray) (pre : list Z) (n : Z)
    (g : list Z) :
  0 < w -> 0 < h ->
  length pre = match position with None => 2%nat | Some _ => 0%nat end ->
  exists lp st',
    resolve_light_params (w, h) position None maxb minb md rate (State hp (pre ++ n :: g))
    = (Ok lp, st') /\
    lp_direction lp = n mod 361.
Proof.
  intros Hw Hh Hpre.
  assert (Hdir : forall pos,
    wp (direction <- default_direction None;;
        linear_decay_rate <- default_static_rate md rate;;
        linear_decay_rate <- dynamic_rate (w, h) maxb minb (normalised_mode md)
                               linear_decay_rate;;
        ret (LightParams (fst pos) (snd pos) direction (normalised_mode md)
               linear_decay_rate))
       (State hp (n :: g)) (fun lp _ => lp_direction lp = n mod 361)).
  { intros pos. apply wp_bind.
    exists (0 + n mod (360 - 0 + 1)), (State hp g). split; [reflexivity|].
    apply wp_bind, wp_default_static_rate. intros r1 g3 _.
    apply wp_bind, wp_dynamic_rate; [lia|]. intros r2 _.
    apply wp_ret. cbn [lp_direction]. now rewrite Z.add_0_l. }
  unfold resolve_light_params. apply wp_bind.
  destruct position as [pos|].
  - destruct pre; [|discriminate]. apply wp_ret, Hdir.
  - destruct pre as [|a [|b [|c pre]]]; try discriminate.
    unfold default_position, wp, bind, randint. cbn [fst snd rng heap draw app].
    destruct (Z.ltb_spec w 0); [lia|]. destruct (Z.ltb_spec h 0); [lia|].
    do 2 eexists. split; [reflexivity|]. apply Hdir.
Qed.

(** ** The mask generator on valid sizes *)

Lemma np_zeros_dims (rows cols : Z) :
  0 <= rows -> 0 <= cols ->
  exists m, np_zeros rows cols = Ok m /\ dims2 m (Z.to_nat rows) (Z.to_nat cols).
Proof.
  intros Hr Hc. unfold np_zeros.
  destruct (Z.ltb_spec rows 0); [lia|]. destruct (Z.ltb_spec cols 0); [lia|].
  simpl. eexists. split; [reflexivity|apply dims2_replicate].
Qed.

Lemma uint8_samples_rsub (m : matrix Z) : uint8_samples (map (map (uint8_rsub 255)) m).
Proof.
  unfold uint8_samples. apply Forall_map, Forall_forall. intros row _. simpl.
  apply Forall_map, Forall_forall. intros v _. simpl. apply uint8_rsub_range.
Qed.

Section GeneratorFacts.
Context `{Cv2}.

Lemma render_light_mask_ok (w h maxb minb : Z) (lp : light_params) :
  0 < w -> 0 < h ->
  lp_mode lp = "gaussian"%string \/ is_Some (lp_linear_decay_rate lp) ->
  exists mask,
    render_light_mask (w, h) maxb minb lp = Ok mask /\
    dims2 mask (Z.to_nat h) (Z.to_nat w) /\
    uint8_samples mask.
Proof.
  intros Hw Hh Hmode. unfold render_light_mask. simpl fst. simpl snd.
  pose proof (padding_nonneg (Z.max w h) ltac:(lia)) as Hp.
  set (pad := py_int (IZR (Z.max w h) * sqrt 2)) in *.
  destruct (np_zeros_dims (pad * 2 + h) (pad * 2 + w)) as (m0 & -> & Hd0); [lia|lia|].
  simpl.
  assert (Hdecay : exists m1,
    (if String.eqb (lp_mode lp) "gaussian"
     then apply_decay_value_norm m0 (pad * 2 + h) maxb minb (pad + lp_pos_y lp) h
     else match lp_linear_decay_rate lp with
          | Some rate =>
              rbind (apply_decay_value_linear m0 (pad * 2 + h) maxb
                       (pad + lp_pos_y lp) rate) (fun r => Ok (fst r))
          | None => Raise TypeError
          end) = Ok m1 /\
    dims2 m1 (Z.to_nat (pad * 2 + h)) (Z.to_nat (pad * 2 + w))).
  { destruct (String.eqb_spec (lp_mode lp) "gaussian") as [E|N].
    - destruct (apply_decay_value_norm_rows m0 (pad * 2 + h) maxb minb
                  (pad + lp_pos_y lp) h) as (m1 & Hrun & Hfill).
      + lia.
      + destruct Hd0 as [-> _]. lia.
      + exists m1. split; [exact Hrun|]. eapply rows_filled_dims; eauto.
    - destruct Hmode as [E|[rate Hrate]]; [contradiction|]. rewrite Hrate.
      destruct (apply_decay_value_linear_rows m0 (pad * 2 + h) maxb
                  (pad + lp_pos_y lp) rate) as (m1 & Hrun & Hfill).
      + destruct Hd0 as [-> _]. lia.
      + exists m1. rewrite Hrun. split; [reflexivity|].
        eapply rows_filled_dims; eauto. }
  destruct Hdecay as (m1 & -> & Hd1). simpl.
  destruct (warpAffine_dims m1
              (getRotationMatrix2D (pad + lp_pos_x lp, pad + lp_pos_y lp)
                 (lp_direction lp) 1)
              (pad * 2 + w) (pad * 2 + h)) as (m2 & -> & Hd2).
  { eapply dims2_nonempty; [exact Hd1| |]; lia. }
  { lia. } { lia. }
  simpl.
  pose proof (crop_dims m2 _ _ pad (pad + h) pad (pad + w) Hd2) as Hd3.
  replace (pad + h - pad) with h in Hd3 by lia.
  replace (pad + w - pad) with w in Hd3 by lia.
  specialize (Hd3 ltac:(lia) ltac:(lia) ltac:(lia) ltac:(lia)).
  apply (dims2_map astype_uint8) in Hd3.
  destruct (medianBlur_dims _ 9 _ _ Hd3) as (m4 & -> & Hd4); [lia|lia|].
  simpl. eexists. split; [reflexivity|]. split.
  - now apply dims2_map.
  - apply uint8_samples_rsub.
Qed.

Lemma wp_generate_parallel_light_mask (w h : Z) (position : option (Z * Z))
    (dir : option Z) (maxb minb : Z) (md : string) (rate : option R) (st : state)
    (Q : matrix Z -> state -> Prop) :
  0 < w -> 0 < h ->
  (forall mask g,
     dims2 mask (Z.to_nat h) (Z.to_nat w) -> uint8_samples mask ->
     Q mask (State (heap st) g)) ->
  wp (generate_parallel_light_mask (w, h) position dir maxb minb md rate) st Q.
Proof.
  intros Hw Hh HQ. unfold generate_parallel_light_mask.
  apply wp_bind, wp_resolve_light_params; [exact Hw|exact Hh|].
  intros lp g Hmode _.
  destruct (render_light_mask_ok w h maxb minb lp Hw Hh Hmode) as (mask & Hrun & Hd & Hu).
  eapply wp_lift; [exact Hrun|]. now apply HQ.
Qed.
End GeneratorFacts.

(** ** The mask generator on sizes that are not positive *)

Lemma ends_ret {A} (a : A) (Q : A -> Prop) (E : exn -> Prop) : Q a -> ends (ret a) Q E.
Proof. intros HQ st. exact HQ. Qed.

Lemma ends_bind {A B} (m : M A) (f : A -> M B) (Q' : A -> Prop) (Q : B -> Prop)
    (E : exn -> Prop) :
  ends m Q' E -> (forall a, Q' a -> ends (f a) Q E) -> ends (bind m f) Q E.
Proof.
  intros Hm Hf st. unfold bind. specialize (Hm st).
  destruct (m st) as [[a|e] st']; simpl in *; [now apply Hf|exact Hm].
Qed.

Lemma ends_randint (a b : Z) (E : exn -> Prop) :
  E ValueError -> ends (randint a b) (fun _ => True) E.
Proof.
  intros HE st. unfold randint. destruct (b <? a); [exact HE|].
  destruct (draw (rng st)). exact I.
Qed.

Lemma ends_uniform (a b : R) (E : exn -> Prop) : ends (uniform a b) (fun _ => True) E.
Proof. intros st. unfold uniform. destruct (draw (rng st)). exact I. Qed.

Lemma ends_default_position (mask_size : Z * Z) (position : option (Z * Z))
    (E : exn -> Prop) :
  E ValueError -> ends (default_position mask_size position) (fun _ => True) E.
Proof.
  intros HE. destruct position as [pos|]; simpl; [now apply ends_ret|].
  eapply ends_bind; [now apply ends_randint|]. intros x _.
  eapply ends_bind; [now apply ends_randint|]. intros y _. now apply ends_ret.
Qed.

Lemma ends_default_direction (dir : option Z) (E : exn -> Prop) :
  E ValueError -> ends (default_direction dir) (fun _ => True) E.
Proof.
  intros HE. destruct dir as [d|]; simpl; [now apply ends_ret|now apply ends_randint].
Qed.

Lemma ends_default_static_rate (md : string) (rate : option R) (E : exn -> Prop) :
  ends (default_static_rate md rate)
    (fun r => md = "linear_static"%string -> is_Some r) E.
Proof.
  destruct rate as [r|]; simpl; [apply ends_ret; eauto|].
  destruct (String.eqb_spec md "linear_static") as [->|Hne].
  - eapply ends_bind; [apply ends_uniform|]. intros r _. apply ends_ret. eauto.
  - apply ends_ret. intros E'. contradiction.
Qed.

Lemma ends_dynamic_rate (mask_size : Z * Z) (maxb minb : Z) (md : string)
    (rate : option R) (E : exn -> Prop) :
  E ZeroDivisionError ->
  ends (dynamic_rate mask_size maxb minb md rate)
    (fun r => md = "linear_dynamic"%string \/ is_Some rate -> is_Some r) E.
Proof.
  intros HE. unfold dynamic_rate.
  destruct (String.eqb_spec md "linear_dynamic") as [->|Hne].
  - destruct (Z.max (fst mask_size) (snd mask_size) =? 0).
    + intros st. exact HE.
    + apply ends_ret. eauto.
  - apply ends_ret. intros [E'|Hs]; [contradiction|exact Hs].
Qed.

(** Lines 96-111 raise nothing but the [ValueError] of [random.randint]
    and the [ZeroDivisionError] of line 111; what they return has a
    decay rate whenever the mode is a linear one. *)
Lemma ends_resolve_light_params (mask_size : Z * Z) (position : option (Z * Z))
    (dir : option Z) (maxb minb : Z) (md : string) (rate : option R) :
  ends (resolve_light_params mask_size position dir maxb minb md rate)
    (fun lp => lp_mode lp = "gaussian"%string \/ is_Some (lp_linear_decay_rate lp))
    (fun e => e = ValueError \/ e = ZeroDivisionError).
Proof.
  unfold resolve_light_params.
  eapply ends_bind; [apply ends_default_position; now left|]. intros pos _.
  eapply ends_bind; [apply ends_default_direction; now left|]. intros d _.
  eapply ends_bind; [apply ends_default_static_rate|]. intros r1 Hr1.
  eapply ends_bind; [apply ends_dynamic_rate; now right|]. intros r2 Hr2.
  apply ends_ret. simpl.
  destruct (normalised_mode_cases md) as [[-> E]|[[-> E]|(_ & _ & E)]]; rewrite E.
  - right. apply Hr2. now left.
  - right. apply Hr2. right. now apply Hr1.
  - now left.
Qed.

Lemma apply_decay_value_linear_ok (mask : matrix R) (canvas_y max_value center : Z)
    (rate : R) :
  canvas_y <= Z.of_nat (length mask) ->
  exists mask' v,
    apply_decay_value_linear mask canvas_y max_value center rate = Ok (mask', v) /\
    rows_filled (fun x => linear_value max_value center rate (Z.of_nat x))
      0 (Z.to_nat canvas_y) mask mask'.
Proof.
  intros Hc.
  destruct (linear_loop max_value center rate (Z.to_nat canvas_y) 0 mask None)
    as (mask' & Hrun & Hfill); [lia|].
  unfold apply_decay_value_linear, range. rewrite Hrun. simpl.
  destruct (Z.to_nat canvas_y) as [|k]; simpl; eauto.
Qed.

(** A slice [l[p : p + d]] with [d <= 0] of a list of length [2 * p + d]
    is empty, also when [p + d] is negative and counts from the end. *)
Lemma py_slice_pad_empty {A} (l : list A) (pad d : Z) :
  0 <= pad -> d <= 0 -> 0 <= pad * 2 + d -> length l = Z.to_nat (pad * 2 + d) ->
  py_slice l pad (pad + d) = [].
Proof.
  intros Hp Hd Hc Hlen. unfold py_slice, slice_bound. rewrite Hlen.
  destruct (Z.ltb_spec pad 0); [lia|].
  match goal with |- take ?n _ = _ => replace n with 0%nat end; [reflexivity|].
  destruct (Z.ltb_spec (pad + d) 0); lia.
Qed.

(** The window cut out of the canvas has no sample when the width or
    the height of the mask is not positive. *)
Lemma crop_pad_empty {A B} (f : A -> B) (m : matrix A) (pad w h : Z) :
  w <= 0 \/ h <= 0 ->
  0 <= pad -> 0 <= pad * 2 + h -> 0 <= pad * 2 + w ->
  dims2 m (Z.to_nat (pad * 2 + h)) (Z.to_nat (pad * 2 + w)) ->
  nonempty (map (map f) (crop m pad (pad + h) pad (pad + w))) = false.
Proof.
  intros Hwh Hp Hcy Hcx [Hlen Hrows]. unfold crop.
  destruct (Z.le_gt_cases h 0) as [Hh|Hh].
  - rewrite (py_slice_pad_empty m pad h) by assumption. reflexivity.
  - assert (Hw : w <= 0) by lia.
    assert (Hsub : Forall (fun row => length row = Z.to_nat (pad * 2 + w))
                     (py_slice m pad (pad + h))).
    { unfold py_slice. now apply Forall_take, Forall_drop. }
    destruct (py_slice m pad (pad + h)) as [|row rows]; [reflexivity|].
    inversion Hsub as [|? ? Hrow _]; subst.
    unfold nonempty, ncols. simpl.
    rewrite (py_slice_pad_empty row pad w) by assumption. reflexivity.
Qed.

Section InvalidSizes.
Context `{Cv2}.

(** Lines 113-142 on a size whose width or height is not positive: the
    canvas cannot be allocated ([ValueError]), the Gaussian kernel
    divides by a zero radius ([ZeroDivisionError]), or OpenCV is handed
    an array without samples (the canvas in [warpAffine], the cropped
    window in [medianBlur]). *)
Lemma render_light_mask_invalid (w h maxb minb : Z) (lp : light_params) :
  w <= 0 \/ h <= 0 ->
  lp_mode lp = "gaussian"%string \/ is_Some (lp_linear_decay_rate lp) ->
  exists e,
    render_light_mask (w, h) maxb minb lp = Raise e /\
    (e = ValueError \/ e = ZeroDivisionError \/ e = Cv2Error).
Proof.
  intros Hwh Hmode. unfold render_light_mask. simpl fst. simpl snd.
  set (pad := py_int (IZR (Z.max w h) * sqrt 2)).
  unfold np_zeros.
  destruct (Z.ltb_spec (pad * 2 + h) 0) as [|Hcy]; [exists ValueError; auto|].
  destruct (Z.ltb_spec (pad * 2 + w) 0) as [|Hcx]; [exists ValueError; auto|].
  simpl orb. cbv iota.
  assert (Hp : 0 <= pad) by lia.
  set (m0 := replicate (Z.to_nat (pad * 2 + h)) (replicate (Z.to_nat (pad * 2 + w)) 0%R)).
  assert (Hd0 : dims2 m0 (Z.to_nat (pad * 2 + h)) (Z.to_nat (pad * 2 + w)))
    by apply dims2_replicate.
  unfold rbind at 1.
  assert (Hdecay :
    (if String.eqb (lp_mode lp) "gaussian"
     then apply_decay_value_norm m0 (pad * 2 + h) maxb minb (pad + lp_pos_y lp) h
     else match lp_linear_decay_rate lp with
          | Some rate =>
              rbind (apply_decay_value_linear m0 (pad * 2 + h) maxb
                       (pad + lp_pos_y lp) rate) (fun r => Ok (fst r))
          | None => Raise TypeError
          end) = Raise ZeroDivisionError \/
    exists m1,
    (if String.eqb (lp_mode lp) "gaussian"
     then apply_decay_value_norm m0 (pad * 2 + h) maxb minb (pad + lp_pos_y lp) h
     else match lp_linear_decay_rate lp with
          | Some rate =>
              rbind (apply_decay_value_linear m0 (pad * 2 + h) maxb
                       (pad + lp_pos_y lp) rate) (fun r => Ok (fst r))
          | None => Raise TypeError
          end) = Ok m1 /\
    dims2 m1 (Z.to_nat (pad * 2 + h)) (Z.to_nat (pad * 2 + w))).
  { destruct (String.eqb_spec (lp_mode lp) "gaussian") as [E|N].
    - destruct (Z.eq_dec h 0) as [->|Hh].
      + unfold apply_decay_value_norm, range.
        destruct (Z.to_nat (pad * 2 + 0)) as [|k] eqn:Ek.
        * right. exists m0. split; [reflexivity|]. now rewrite <- Ek.
        * left. reflexivity.
      + right.
        destruct (apply_decay_value_norm_rows m0 (pad * 2 + h) maxb minb
                    (pad + lp_pos_y lp) h) as (m1 & Hrun & Hfill).
        * exact Hh.
        * destruct Hd0 as [-> _]. lia.
        * exists m1. split; [exact Hrun|]. eapply rows_filled_dims; eauto.
    - right. destruct Hmode as [E|[rate Hrate]]; [contradiction|]. rewrite Hrate.
      destruct (apply_decay_value_linear_ok m0 (pad * 2 + h) maxb
                  (pad + lp_pos_y lp) rate) as (m1 & v & Hrun & Hfill).
      + destruct Hd0 as [-> _]. lia.
      + exists m1. rewrite Hrun. split; [reflexivity|].
        eapply rows_filled_dims; eauto. }
  destruct Hdecay as [-> | (m1 & -> & Hd1)]; [exists ZeroDivisionError; auto|].
  unfold rbind at 1.
  destruct (nonempty m1) eqn:Hne.
  - assert (Hpos : (0 < Z.to_nat (pad * 2 + h))%nat /\ (0 < Z.to_nat (pad * 2 + w))%nat).
    { unfold nonempty in Hne. apply andb_prop in Hne as [Hrows Hcols].
      destruct Hd1 as [Hlen Hrw].
      assert (Hr : (0 < Z.to_nat (pad * 2 + h))%nat).
      { rewrite <- Hlen. destruct (length m1); [discriminate|lia]. }
      split; [exact Hr|].
      rewrite <- (dims2_ncols m1 _ _ (conj Hlen Hrw) Hr).
      destruct (ncols m1); [discriminate|lia]. }
    destruct (warpAffine_dims m1
                (getRotationMatrix2D (pad + lp_pos_x lp, pad + lp_pos_y lp)
                   (lp_direction lp) 1)
                (pad * 2 + w) (pad * 2 + h)) as (m2 & -> & Hd2); [exact Hne|lia|lia|].
    unfold rbind at 1. unfold medianBlur. simpl fst. simpl snd.
    rewrite (crop_pad_empty astype_uint8 m2 pad w h Hwh Hp Hcy Hcx Hd2).
    exists Cv2Error. auto.
  - unfold warpAffine. rewrite Hne. exists Cv2Error. auto.
Qed.

(** On such a size the generator never returns a mask. *)
Lemma generate_invalid_raises (w h : Z) (position : option (Z * Z)) (dir : option Z)
    (maxb minb : Z) (md : string) (rate : option R) :
  w <= 0 \/ h <= 0 ->
  ends (generate_parallel_light_mask (w, h) position dir maxb minb md rate)
    (fun _ => False)
    (fun e => e = ValueError \/ e = ZeroDivisionError \/ e = Cv2Error).
Proof.
  intros Hwh. unfold generate_parallel_light_mask.
  eapply ends_bind.
  - intros st. pose proof (ends_resolve_light_params (w, h) position dir maxb minb md rate st)
      as Hres.
    destruct (fst (resolve_light_params (w, h) position dir maxb minb md rate st));
      [exact Hres|tauto].
  - intros lp Hlp st. unfold lift. simpl.
    destruct (render_light_mask_invalid w h maxb minb lp Hwh Hlp) as (e & -> & He).
    exact He.
Qed.

(** With a negative width and height the exception is the
    [ValueError] of [random.randint] (position unset) or of [np.zeros]
    (the canvas). *)
Lemma generate_negative_raises (w h : Z) (position : option (Z * Z)) (dir : option Z)
    (maxb minb : Z) (md : string) (rate : option R) (st : state) :
  w < 0 -> h < 0 ->
  fst (generate_parallel_light_mask (w, h) position dir maxb minb md rate st)
  = Raise ValueError.
Proof.
  intros Hw Hh.
  destruct position as [pos|].
  - assert (Hres : wp (resolve_light_params (w, h) (Some pos) dir maxb minb md rate) st
                     (fun _ _ => True)).
    { unfold resolve_light_params.
      apply wp_bind, wp_ret.
      apply wp_bind, wp_default_direction. intros d g _.
      apply wp_bind, wp_default_static_rate. intros r1 g' _.
      apply wp_bind, wp_dynamic_rate; [lia|]. intros r2 _.
      now apply wp_ret. }
    destruct Hres as (lp & st' & Hrun & _).
    unfold generate_parallel_light_mask, bind. rewrite Hrun.
    unfold lift. simpl fst. unfold render_light_mask. simpl fst. simpl snd.
    pose proof (padding_nonpos (Z.max w h) ltac:(lia)) as Hp.
    set (pad := py_int (IZR (Z.max w h) * sqrt 2)) in *.
    unfold np_zeros. destruct (Z.ltb_spec (pad * 2 + h) 0); [reflexivity|lia].
  - unfold generate_parallel_light_mask, resolve_light_params, default_position,
      bind, randint. simpl.
    destruct (Z.ltb_spec w 0); [reflexivity|lia].
Qed.
End InvalidSizes.

(** ** Shapes of the arrays of the operator *)

Lemma dims3_ncols (m : matrix (list Z)) (h w c : nat) :
  dims3 m h w c -> (0 < h)%nat -> ncols m = w.
Proof. intros [Hd _]. now apply dims2_ncols. Qed.

Lemma dims3_nchan (m : matrix (list Z)) (h w c : nat) :
  dims3 m h w c -> (0 < h)%nat -> (0 < w)%nat -> nchan m = c.
Proof.
  intros [[Hh Hw] Hc] Hhp Hwp. unfold nchan.
  destruct m as [|row m]; simpl in *; [lia|].
  inversion Hw as [|? ? Hrow _]; subst. inversion Hc as [|? ? Hpx _]; subst.
  destruct row as [|px row]; simpl in *; [lia|]. now inversion Hpx.
Qed.

Lemma dims3_nonempty (m : matrix (list Z)) (h w c : nat) :
  dims3 m h w c -> (0 < h)%nat -> (0 < w)%nat -> nonempty m = true.
Proof. intros [Hd _]. now apply dims2_nonempty. Qed.

Lemma dims3_map (f : list Z -> list Z) (m : matrix (list Z)) (h w c c' : nat) :
  (forall px, length px = c -> length (f px) = c') ->
  dims3 m h w c -> dims3 (map (map f) m) h w c'.
Proof.
  intros Hf [Hd Hc]. split; [now apply dims2_map|].
  apply Forall_map. eapply Forall_impl; [exact Hc|].
  intros row Hrow. simpl. apply Forall_map. eapply Forall_impl; [exact Hrow|].
  intros px Hpx. simpl. now apply Hf.
Qed.

Lemma dims3_of_gray (m : matrix Z) (h w : nat) :
  dims2 m h w -> dims3 (map (map gray_pixel) m) h w 3.
Proof.
  intros Hd. split; [now apply dims2_map|].
  apply Forall_map, Forall_forall. intros row _. simpl.
  apply Forall_map, Forall_forall. intros v _. reflexivity.
Qed.

Lemma dims3_channel (k : nat) (m : matrix (list Z)) (h w c : nat) :
  dims3 m h w c -> dims2 (channel k m) h w.
Proof. intros [Hd _]. now apply dims2_map. Qed.

Lemma dims3_first3 (m : matrix (list Z)) (h w c : nat) :
  (3 <= c)%nat -> dims3 m h w c -> dims3 (first3 m) h w 3.
Proof.
  intros Hc. apply dims3_map. intros px Hpx. rewrite length_take. lia.
Qed.

Lemma on_pixel_length (f : Z * Z * Z -> Z * Z * Z) (px : list Z) :
  length px = 3%nat -> length (on_pixel f px) = 3%nat.
Proof.
  intros Hpx. destruct px as [|c0 [|c1 [|c2 [|]]]]; try discriminate.
  simpl. now destruct (f (c0, c1, c2)) as [[d0 d1] d2].
Qed.

Lemma zip_with_dims2 {A B C} (f : A -> B -> C) (a : matrix A) (b : matrix B) (h w : nat) :
  dims2 a h w -> dims2 b h w -> dims2 (zip_with (zip_with f) a b) h w.
Proof.
  intros [Ha Hra] [Hb Hrb]. split.
  - rewrite length_zip_with. lia.
  - apply Forall_lookup. intros i row Hi.
    apply lookup_zip_with_Some in Hi as (ra & rb & -> & Hia & Hib).
    rewrite Forall_lookup in Hra. rewrite Forall_lookup in Hrb.
    rewrite length_zip_with, (Hra i ra Hia), (Hrb i rb Hib). lia.
Qed.

Lemma zip_with_Forall2 {A B C} (P : A -> Prop) (Q : C -> Prop) (f : A -> B -> C)
    (a : matrix A) (b : matrix B) :
  (forall x y, P x -> Q (f x y)) ->
  Forall (Forall P) a -> Forall (Forall Q) (zip_with (zip_with f) a b).
Proof.
  intros Hf Ha. apply Forall_lookup. intros i row Hi.
  apply lookup_zip_with_Some in Hi as (ra & rb & -> & Hia & Hib).
  rewrite Forall_lookup in Ha. specialize (Ha i ra Hia).
  apply Forall_lookup. intros j c Hj.
  apply lookup_zip_with_Some in Hj as (x & y & -> & Hx & Hy).
  apply Hf. rewrite Forall_lookup in Ha. exact (Ha j x Hx).
Qed.

Lemma zip_with_dims3 {B} (f : list Z -> B -> list Z) (a : matrix (list Z)) (b : matrix B)
    (h w c c' : nat) :
  (forall px y, length px = c -> length (f px y) = c') ->
  dims3 a h w c -> dims2 b h w -> dims3 (zip_with (zip_with f) a b) h w c'.
Proof.
  intros Hf [Hd Hc] Hb. split; [now apply zip_with_dims2|].
  eapply zip_with_Forall2; [|exact Hc]. exact Hf.
Qed.

Lemma map_zip_with_r {A B C} (g : C -> B) (f : A -> B -> C) (l : list A) (k : list B) :
  length l = length k ->
  (forall i x y, l !! i = Some x -> k !! i = Some y -> g (f x y) = y) ->
  map g (zip_with f l k) = k.
Proof.
  revert k. induction l as [|x l IH]; intros [|y k] Hlen Hg; simpl in *;
    try discriminate; [reflexivity|].
  f_equal.
  - now apply (Hg 0%nat).
  - apply IH; [lia|]. intros i x' y' Hx' Hy'. now apply (Hg (S i)).
Qed.

Lemma channel_dstack (x : matrix (list Z)) (al : matrix Z) (h w : nat) :
  dims3 x h w 3 -> dims2 al h w ->
  channel 3 (zip_with (zip_with (fun px a => px ++ [a])) x al) = al.
Proof.
  intros [[Hh Hw] Hc] [Hah Haw]. unfold channel.
  rewrite Forall_lookup in Hw. rewrite Forall_lookup in Haw.
  rewrite Forall_lookup in Hc.
  apply map_zip_with_r; [congruence|].
  intros i row ar Hrow Har.
  apply map_zip_with_r.
  - rewrite (Hw i row Hrow). symmetry. exact (Haw i ar Har).
  - intros j px a Hpx _. specialize (Hc i row Hrow).
    rewrite Forall_lookup in Hc. specialize (Hc j px Hpx). simpl in Hc.
    destruct px as [|c0 [|c1 [|c2 [|]]]]; try discriminate. reflexivity.
Qed.

Lemma same_shape_dims2 (a b : matrix Z) (h w : nat) :
  dims2 a h w -> dims2 b h w -> (0 < h)%nat -> same_shape (A2 a) (A2 b) = true.
Proof.
  intros Ha Hb Hh. unfold same_shape. apply bool_decide_eq_true_2. simpl.
  rewrite (dims2_ncols a h w Ha Hh), (dims2_ncols b h w Hb Hh).
  destruct Ha as [-> _], Hb as [-> _]. reflexivity.
Qed.

Lemma blend_value_dims (m : matrix (list Z)) (lm : matrix Z) (t : R) (h w : nat) :
  dims3 m h w 3 -> dims2 lm h w -> (0 < h)%nat ->
  exists m', blend_value (A3 m) lm t = Ok (A3 m') /\ dims3 m' h w 3.
Proof.
  intros Hd Hlm Hh. unfold blend_value.
  rewrite (same_shape_dims2 _ _ h w (dims3_channel 2 m h w 3 Hd) Hlm Hh).
  eexists. split; [reflexivity|].
  eapply zip_with_dims3; [|exact Hd|exact Hlm].
  intros px y Hpx. now rewrite length_insert.
Qed.

Lemma dstack_alpha (x : matrix (list Z)) (al : matrix Z) (h w : nat) :
  dims3 x h w 3 -> dims2 al h w -> (0 < h)%nat ->
  exists out, dstack (A3 x) (A2 al) = Ok (A3 out) /\
              dims3 out h w 4 /\ channel 3 out = al.
Proof.
  intros Hd Hal Hh. unfold dstack.
  rewrite (same_shape_dims2 _ _ h w (dims3_channel 0 x h w 3 Hd) Hal Hh).
  eexists. split; [reflexivity|]. split.
  - eapply zip_with_dims3; [|exact Hd|exact Hal].
    intros px y Hpx. rewrite length_app, Hpx. reflexivity.
  - eapply channel_dstack; eauto.
Qed.

Section ColourFacts.
Context `{Cv2}.

Lemma cvtColor_gray (m : matrix Z) (h w : nat) :
  dims2 m h w -> (0 < h)%nat -> (0 < w)%nat ->
  exists y, cvtColor (A2 m) COLOR_GRAY2BGR = Ok (A3 y) /\ dims3 y h w 3.
Proof.
  intros Hd Hh Hw. simpl. rewrite (dims2_nonempty m h w Hd Hh Hw).
  eexists. split; [reflexivity|now apply dims3_of_gray].
Qed.

Lemma cvtColor_bgr2hsv (m : matrix (list Z)) (h w : nat) :
  dims3 m h w 3 -> (0 < h)%nat -> (0 < w)%nat ->
  exists y, cvtColor (A3 m) COLOR_BGR2HSV = Ok (A3 y) /\ dims3 y h w 3.
Proof.
  intros Hd Hh Hw. simpl.
  rewrite (dims3_nonempty m h w 3 Hd Hh Hw), (dims3_nchan m h w 3 Hd Hh Hw). simpl.
  eexists. split; [reflexivity|].
  eapply dims3_map; [|exact Hd]. intros px. apply on_pixel_length.
Qed.

Lemma cvtColor_hsv2bgr (m : matrix (list Z)) (h w : nat) :
  dims3 m h w 3 -> (0 < h)%nat -> (0 < w)%nat ->
  exists y, cvtColor (A3 m) COLOR_HSV2BGR = Ok (A3 y) /\ dims3 y h w 3.
Proof.
  intros Hd Hh Hw. simpl.
  rewrite (dims3_nonempty m h w 3 Hd Hh Hw), (dims3_nchan m h w 3 Hd Hh Hw). simpl.
  eexists. split; [reflexivity|].
  eapply dims3_map; [|exact Hd]. intros px. apply on_pixel_length.
Qed.
End ColourFacts.

(** ** The operator, when it runs on a well-formed image *)

Section OperatorFacts.
Context `{Cv2}.
Variable should_run : R -> list Z -> bool * list Z.

Lemma wp_cvt (l : loc) (v : view) (code : color_code) (a b c : ndarray) (st : state)
    (Q : loc -> state -> Prop) :
  heap st !! l = Some a -> apply_view v a = Ok b -> cvtColor b code = Ok c ->
  (forall l', heap st !! l' = None -> Q l' (State (<[l' := c]> (heap st)) (rng st))) ->
  wp (cvt (l, v) code) st Q.
Proof.
  intros Hl Hv Hc HQ. unfold cvt.
  apply wp_bind. eapply wp_load; [exact Hl|exact Hv|].
  apply wp_bind. eapply wp_lift; [exact Hc|].
  apply wp_alloc. exact HQ.
Qed.

(** The frame in HSV is a fresh [h] x [w] x 3 array; nothing else
    changes. *)
Lemma wp_to_hsv_colour (l : loc) (v : view) (a : ndarray) (x : matrix (list Z))
    (h w : nat) (st : state) (Q : loc -> state -> Prop) :
  heap st !! l = Some a -> apply_view v a = Ok (A3 x) ->
  dims3 x h w 3 -> (0 < h)%nat -> (0 < w)%nat ->
  (forall lh y hp,
     dims3 y h w 3 -> hp !! lh = Some (A3 y) -> heap st !! lh = None ->
     heap st ⊆ hp -> Q lh (State hp (rng st))) ->
  wp (to_hsv (l, v)) st Q.
Proof.
  intros Hl Hv Hd Hh Hw HQ. unfold to_hsv.
  apply wp_bind. eapply wp_load; [exact Hl|exact Hv|]. simpl.
  destruct (cvtColor_bgr2hsv x h w Hd Hh Hw) as (y & Hy & Hdy).
  eapply wp_cvt; [exact Hl|exact Hv|exact Hy|]. intros lh Hfresh.
  apply (HQ lh y); [exact Hdy|apply lookup_insert_eq|exact Hfresh|].
  now apply insert_subseteq.
Qed.

Lemma wp_to_hsv_gray (l : loc) (m : matrix Z) (h w : nat) (st : state)
    (Q : loc -> state -> Prop) :
  heap st !! l = Some (A2 m) ->
  dims2 m h w -> (0 < h)%nat -> (0 < w)%nat ->
  (forall lh y hp,
     dims3 y h w 3 -> hp !! lh = Some (A3 y) -> heap st !! lh = None ->
     heap st ⊆ hp -> Q lh (State hp (rng st))) ->
  wp (to_hsv (l, Whole)) st Q.
Proof.
  intros Hl Hd Hh Hw HQ. unfold to_hsv.
  apply wp_bind. eapply wp_load; [exact Hl|reflexivity|]. simpl.
  destruct (cvtColor_gray m h w Hd Hh Hw) as (x & Hx & Hdx).
  destruct (cvtColor_bgr2hsv x h w Hdx Hh Hw) as (y & Hy & Hdy).
  apply wp_bind. eapply wp_cvt; [exact Hl|reflexivity|exact Hx|]. intros lb Hlb.
  eapply wp_cvt; [apply lookup_insert_eq|reflexivity|exact Hy|]. intros lh Hlh.
  simpl in *. apply lookup_insert_None in Hlh as [Hlh Hne].
  apply (HQ lh y); [exact Hdy|apply lookup_insert_eq|exact Hlh|].
  etrans; [apply (insert_subseteq _ lb); exact Hlb|].
  apply insert_subseteq. now rewrite lookup_insert_ne.
Qed.

Lemma wp_blend_into (lh : loc) (y : matrix (list Z)) (lm : matrix Z) (t : R)
    (h w : nat) (st : state) (Q : unit -> state -> Prop) :
  heap st !! lh = Some (A3 y) ->
  dims3 y h w 3 -> dims2 lm h w -> (0 < h)%nat ->
  (forall y', dims3 y' h w 3 ->
              Q tt (State (<[lh := A3 y']> (heap st)) (rng st))) ->
  wp (blend_into lh lm t) st Q.
Proof.
  intros Hl Hd Hlm Hh HQ. unfold blend_into.
  destruct (blend_value_dims y lm t h w Hd Hlm Hh) as (y' & Hy' & Hdy').
  apply wp_bind. eapply wp_load; [exact Hl|reflexivity|].
  apply wp_bind. eapply wp_lift; [exact Hy'|].
  apply wp_store; [eauto|]. now apply HQ.
Qed.

Lemma wp_to_bgr (lh : loc) (y : matrix (list Z)) (h w : nat) (st : state)
    (Q : loc -> state -> Prop) :
  heap st !! lh = Some (A3 y) ->
  dims3 y h w 3 -> (0 < h)%nat -> (0 < w)%nat ->
  (forall lf z, dims3 z h w 3 -> heap st !! lf = None ->
                Q lf (State (<[lf := A3 z]> (heap st)) (rng st))) ->
  wp (to_bgr lh) st Q.
Proof.
  intros Hl Hd Hh Hw HQ. unfold to_bgr.
  destruct (cvtColor_hsv2bgr y h w Hd Hh Hw) as (z & Hz & Hdz).
  apply wp_bind. eapply wp_cvt; [exact Hl|reflexivity|exact Hz|]. intros lf Hlf.
  apply wp_bind. eapply wp_load; [apply lookup_insert_eq|reflexivity|].
  apply wp_bind. apply wp_store; [simpl; rewrite lookup_insert_eq; eauto|].
  apply wp_ret. simpl. rewrite insert_insert_eq.
  apply HQ; [|exact Hlf].
  eapply dims3_map; [|exact Hdz]. intros px Hpx. now rewrite length_map.
Qed.

Lemma wp_attach_alpha (lf lc : loc) (z m : matrix (list Z)) (h w : nat) (st : state)
    (Q : loc -> state -> Prop) :
  heap st !! lf = Some (A3 z) -> dims3 z h w 3 ->
  heap st !! lc = Some (A3 m) -> dims3 m h w 4 -> (0 < h)%nat ->
  (forall la out, dims3 out h w 4 -> channel 3 out = channel 3 m ->
                  heap st !! la = None ->
                  Q la (State (<[la := A3 out]> (heap st)) (rng st))) ->
  wp (attach_alpha true lf (lc, Chan 3)) st Q.
Proof.
  intros Hlf Hdz Hlc Hdm Hh HQ. unfold attach_alpha.
  destruct (dstack_alpha z (channel 3 m) h w Hdz (dims3_channel 3 m h w 4 Hdm) Hh)
    as (out & Hout & Hdo & Hch).
  apply wp_bind. eapply wp_load; [exact Hlf|reflexivity|].
  apply wp_bind. eapply wp_load; [exact Hlc|reflexivity|].
  apply wp_bind. eapply wp_lift; [exact Hout|].
  apply wp_alloc. intros la Hla. now apply HQ.
Qed.

Lemma wp_transparency (self : LightingGradient) (st : state) (Q : R -> state -> Prop) :
  (forall t g, Q t (State (heap st) g)) ->
  wp (match transparency self with
      | None => uniform (5 / 10) (85 / 100)
      | Some t => ret t
      end) st Q.
Proof.
  intros HQ. destruct (transparency self) as [t|].
  - apply wp_ret. destruct st. apply HQ.
  - now apply wp_uniform.
Qed.

Lemma shape_dims2 (m : matrix Z) (h w : nat) :
  dims2 m h w -> (0 < h)%nat -> shape (A2 m) = [h; w].
Proof.
  intros Hd Hh. simpl. rewrite (dims2_ncols m h w Hd Hh).
  destruct Hd as [-> _]. reflexivity.
Qed.

Lemma shape_dims3 (m : matrix (list Z)) (h w c : nat) :
  dims3 m h w c -> (0 < h)%nat -> (0 < w)%nat -> shape (A3 m) = [h; w; c].
Proof.
  intros Hd Hh Hw. simpl.
  rewrite (dims3_ncols m h w c Hd Hh), (dims3_nchan m h w c Hd Hh Hw).
  destruct Hd as [[-> _] _]. reflexivity.
Qed.

(** Three channels in, three channels out. *)
Lemma wp_run_call_bgr (self : LightingGradient) (image : loc)
    (mk kp bb : option pyobj) (m : matrix (list Z)) (h w : nat) (st : state) :
  heap st !! image = Some (A3 m) ->
  dims3 m h w 3 -> (0 < h)%nat -> (0 < w)%nat ->
  wp (run_call self image mk kp bb) st (fun ret st' =>
    exists l out, ret = outputs l mk kp bb /\
                  heap st' !! l = Some (A3 out) /\ dims3 out h w 3).
Proof.
  intros Himg Hd Hh Hw. unfold run_call.
  apply wp_bind. eapply wp_load; [exact Himg|reflexivity|].
  apply wp_bind, wp_alloc. intros lc Hlc.
  rewrite (shape_dims3 m h w 3 Hd Hh Hw). cbn [length nth Nat.ltb Nat.leb Nat.eqb andb].
  apply wp_bind, wp_transparency. intros t g1.
  apply wp_bind. eapply wp_load; [apply lookup_insert_eq|reflexivity|].
  rewrite (shape_dims3 m h w 3 Hd Hh Hw). cbn [nth].
  apply wp_bind.
  eapply wp_to_hsv_colour; [apply lookup_insert_eq|reflexivity|exact Hd|exact Hh|exact Hw|].
  intros lh y hp Hdy Hlh _ _.
  apply wp_bind, wp_generate_parallel_light_mask; [lia|lia|].
  intros lm g2 Hlm _. rewrite !Nat2Z.id in Hlm.
  apply wp_bind.
  eapply wp_blend_into; [exact Hlh|exact Hdy|exact Hlm|exact Hh|]. intros y' Hdy'.
  apply wp_bind.
  eapply wp_to_bgr; [apply lookup_insert_eq|exact Hdy'|exact Hh|exact Hw|].
  intros lf z Hdz _.
  apply wp_bind, wp_ret, wp_ret.
  exists lf, z. split; [reflexivity|]. split; [apply lookup_insert_eq|exact Hdz].
Qed.

(** Two dimensions in, three channels out. *)
Lemma wp_run_call_gray (self : LightingGradient) (image : loc)
    (mk kp bb : option pyobj) (m : matrix Z) (h w : nat) (st : state) :
  heap st !! image = Some (A2 m) ->
  dims2 m h w -> (0 < h)%nat -> (0 < w)%nat ->
  wp (run_call self image mk kp bb) st (fun ret st' =>
    exists l out, ret = outputs l mk kp bb /\
                  heap st' !! l = Some (A3 out) /\ dims3 out h w 3).
Proof.
  intros Himg Hd Hh Hw. unfold run_call.
  apply wp_bind. eapply wp_load; [exact Himg|reflexivity|].
  apply wp_bind, wp_alloc. intros lc Hlc.
  rewrite (shape_dims2 m h w Hd Hh). cbn [length nth Nat.ltb Nat.leb Nat.eqb andb].
  apply wp_bind, wp_transparency. intros t g1.
  apply wp_bind. eapply wp_load; [apply lookup_insert_eq|reflexivity|].
  rewrite (shape_dims2 m h w Hd Hh). cbn [nth].
  apply wp_bind.
  eapply wp_to_hsv_gray; [apply lookup_insert_eq|exact Hd|exact Hh|exact Hw|].
  intros lh y hp Hdy Hlh _ _.
  apply wp_bind, wp_generate_parallel_light_mask; [lia|lia|].
  intros lm g2 Hlm _. rewrite !Nat2Z.id in Hlm.
  apply wp_bind.
  eapply wp_blend_into; [exact Hlh|exact Hdy|exact Hlm|exact Hh|]. intros y' Hdy'.
  apply wp_bind.
  eapply wp_to_bgr; [apply lookup_insert_eq|exact Hdy'|exact Hh|exact Hw|].
  intros lf z Hdz _.
  apply wp_bind, wp_ret, wp_ret.
  exists lf, z. split; [reflexivity|]. split; [apply lookup_insert_eq|exact Hdz].
Qed.

(** Four channels in, four channels out, the fourth as it was. *)
Lemma wp_run_call_bgra (self : LightingGradient) (image : loc)
    (mk kp bb : option pyobj) (m : matrix (list Z)) (h w : nat) (st : state) :
  heap st !! image = Some (A3 m) ->
  dims3 m h w 4 -> (0 < h)%nat -> (0 < w)%nat ->
  wp (run_call self image mk kp bb) st (fun ret st' =>
    exists l out, ret = outputs l mk kp bb /\
                  heap st' !! l = Some (A3 out) /\ dims3 out h w 4 /\
                  channel 3 out = channel 3 m).
Proof.
  intros Himg Hd Hh Hw. unfold run_call.
  pose proof (dims3_first3 m h w 4 ltac:(lia) Hd) as Hd3.
  apply wp_bind. eapply wp_load; [exact Himg|reflexivity|].
  apply wp_bind, wp_alloc. intros lc Hlc.
  rewrite (shape_dims3 m h w 4 Hd Hh Hw). cbn [length nth Nat.ltb Nat.leb Nat.eqb andb].
  apply wp_bind, wp_transparency. intros t g1.
  apply wp_bind. eapply wp_load; [apply lookup_insert_eq|reflexivity|].
  rewrite (shape_dims3 (first3 m) h w 3 Hd3 Hh Hw). cbn [nth].
  apply wp_bind.
  eapply wp_to_hsv_colour; [apply lookup_insert_eq|reflexivity|exact Hd3|exact Hh|exact Hw|].
  intros lh y hp Hdy Hlh Hlh0 Hsub. cbn [heap rng] in *.
  assert (Hc : hp !! lc = Some (A3 m)).
  { eapply lookup_weaken; [|exact Hsub]. apply lookup_insert_eq. }
  assert (Hne : lh <> lc).
  { intros ->. rewrite lookup_insert_eq in Hlh0. discriminate. }
  apply wp_bind, wp_generate_parallel_light_mask; [lia|lia|].
  intros lm g2 Hlm _. rewrite !Nat2Z.id in Hlm.
  apply wp_bind.
  eapply wp_blend_into; [exact Hlh|exact Hdy|exact Hlm|exact Hh|]. intros y' Hdy'.
  apply wp_bind.
  eapply wp_to_bgr; [apply lookup_insert_eq|exact Hdy'|exact Hh|exact Hw|].
  intros lf z Hdz Hlf. cbn [heap rng] in *.
  assert (Hne' : lf <> lc).
  { intros ->. rewrite lookup_insert_ne in Hlf by exact Hne. congruence. }
  apply wp_bind.
  eapply (wp_attach_alpha lf lc z m h w);
    [apply lookup_insert_eq|exact Hdz| |exact Hd|exact Hh|].
  { cbn [heap]. rewrite !lookup_insert_ne by assumption. exact Hc. }
  intros la out Hdo Hch _.
  apply wp_ret.
  exists la, out. split; [reflexivity|]. split; [apply lookup_insert_eq|]. now split.
Qed.

Lemma wp_call_open (self : LightingGradient) (image : loc) (mk kp bb : option pyobj)
    (force : bool) (st : state) (Q : retval -> state -> Prop) :
  gate_open should_run self force st ->
  (forall g, wp (run_call self image mk kp bb) (State (heap st) g) Q) ->
  wp (call should_run self image mk kp bb force) st Q.
Proof.
  intros Hopen HQ. unfold call. apply wp_bind.
  destruct force.
  - apply wp_ret. destruct st. apply HQ.
  - destruct Hopen as [Hf|Hg]; [discriminate|].
    unfold wp, call_should_run.
    destruct (should_run (p self) (rng st)) as [b g]. simpl in Hg. subst b.
    do 2 eexists. split; [reflexivity|]. apply HQ.
Qed.
End OperatorFacts.

(** ** What the operator leaves untouched *)

Lemma heap_neutral_ret {A} (a : A) : heap_neutral (ret a).
Proof. intros st. reflexivity. Qed.

Lemma heap_neutral_raise {A} (e : exn) : heap_neutral (@raise A e).
Proof. intros st. reflexivity. Qed.

Lemma heap_neutral_lift {A} (r : result A) : heap_neutral (lift r).
Proof. intros st. reflexivity. Qed.

Lemma heap_neutral_bind {A B} (m : M A) (f : A -> M B) :
  heap_neutral m -> (forall a, heap_neutral (f a)) -> heap_neutral (bind m f).
Proof.
  intros Hm Hf st. unfold bind. specialize (Hm st).
  destruct (m st) as [[a|e] st']; simpl in *; [|exact Hm].
  now rewrite Hf.
Qed.

Lemma heap_neutral_randint (a b : Z) : heap_neutral (randint a b).
Proof.
  intros st. unfold randint. destruct (b <? a); [reflexivity|].
  now destruct (draw (rng st)).
Qed.

Lemma heap_neutral_uniform (a b : R) : heap_neutral (uniform a b).
Proof. intros st. unfold uniform. now destruct (draw (rng st)). Qed.

Lemma heap_neutral_load (r : ref) : heap_neutral (load r).
Proof. intros st. unfold load. now destruct (heap st !! r.1). Qed.

Lemma heap_neutral_resolve_light_params (mask_size : Z * Z) (position : option (Z * Z))
    (dir : option Z) (maxb minb : Z) (md : string) (rate : option R) :
  heap_neutral (resolve_light_params mask_size position dir maxb minb md rate).
Proof.
  unfold resolve_light_params, default_position, default_direction,
    default_static_rate, dynamic_rate.
  repeat first
    [ apply heap_neutral_bind; [|intros ?]
    | apply heap_neutral_ret
    | apply heap_neutral_raise
    | apply heap_neutral_randint
    | apply heap_neutral_uniform
    | match goal with |- heap_neutral (match ?x with _ => _ end) => destruct x end ].
Qed.

Lemma framed_bind {A B} (h0 : gmap loc ndarray) (m : M A) (f : A -> M B)
    (P : A -> Prop) (Q : B -> Prop) :
  framed h0 m P -> (forall a, P a -> framed h0 (f a) Q) -> framed h0 (bind m f) Q.
Proof.
  intros Hm Hf st Hsub. unfold bind. destruct (Hm st Hsub) as [Hsub' HP].
  destruct (m st) as [[a|e] st']; simpl in *.
  - apply Hf; [now apply HP|exact Hsub'].
  - split; [exact Hsub'|]. intros b Hb. discriminate.
Qed.

Lemma framed_ret {A} (h0 : gmap loc ndarray) (a : A) (P : A -> Prop) :
  P a -> framed h0 (ret a) P.
Proof.
  intros HP st Hsub. split; [exact Hsub|]. simpl. now intros ? [= <-].
Qed.

Lemma framed_neutral {A} (h0 : gmap loc ndarray) (m : M A) :
  heap_neutral m -> framed h0 m (fun _ => True).
Proof.
  intros Hm st Hsub. split; [|trivial]. now rewrite Hm.
Qed.

Lemma framed_alloc (h0 : gmap loc ndarray) (a : ndarray) :
  framed h0 (alloc a) (fun l => h0 !! l = None).
Proof.
  intros st Hsub. simpl.
  assert (Hfresh : heap st !! fresh (dom (heap st)) = None)
    by apply not_elem_of_dom, is_fresh.
  split.
  - etrans; [exact Hsub|]. now apply insert_subseteq.
  - intros l [= <-]. eapply lookup_weaken_None; eauto.
Qed.

Lemma framed_store (h0 : gmap loc ndarray) (l : loc) (a : ndarray) :
  h0 !! l = None -> framed h0 (store l a) (fun _ => True).
Proof.
  intros Hl st Hsub. unfold store. split; [|trivial].
  destruct (heap st !! l); simpl; [|exact Hsub].
  now apply insert_subseteq_r.
Qed.

Section FrameFacts.
Context `{Cv2}.
Variable should_run : R -> list Z -> bool * list Z.

Lemma heap_neutral_generate (mask_size : Z * Z) (position : option (Z * Z))
    (dir : option Z) (maxb minb : Z) (md : string) (rate : option R) :
  heap_neutral (generate_parallel_light_mask mask_size position dir maxb minb md rate).
Proof.
  apply heap_neutral_bind; [apply heap_neutral_resolve_light_params|].
  intros lp. apply heap_neutral_lift.
Qed.

Lemma heap_neutral_gate (self : LightingGradient) (force : bool) :
  heap_neutral (if force then ret true else call_should_run should_run self).
Proof.
  destruct force; [apply heap_neutral_ret|].
  intros st. unfold call_should_run. now destruct (should_run (p self) (rng st)).
Qed.

Lemma framed_cvt (h0 : gmap loc ndarray) (r : ref) (code : color_code) :
  framed h0 (cvt r code) (fun l => h0 !! l = None).
Proof.
  unfold cvt.
  eapply framed_bind; [apply framed_neutral, heap_neutral_load|]. intros a _.
  eapply framed_bind; [apply framed_neutral, heap_neutral_lift|]. intros b _.
  apply framed_alloc.
Qed.

Lemma framed_to_hsv (h0 : gmap loc ndarray) (r : ref) :
  framed h0 (to_hsv r) (fun l => h0 !! l = None).
Proof.
  unfold to_hsv.
  eapply framed_bind; [apply framed_neutral, heap_neutral_load|]. intros fr _.
  destruct (2 <? length (shape fr))%nat; [apply framed_cvt|].
  eapply framed_bind; [apply framed_cvt|]. intros bgr _. apply framed_cvt.
Qed.

Lemma framed_blend_into (h0 : gmap loc ndarray) (hsv : loc) (lm : matrix Z) (t : R) :
  h0 !! hsv = None -> framed h0 (blend_into hsv lm t) (fun _ => True).
Proof.
  intros Hl. unfold blend_into.
  eapply framed_bind; [apply framed_neutral, heap_neutral_load|]. intros a _.
  eapply framed_bind; [apply framed_neutral, heap_neutral_lift|]. intros b _.
  now apply framed_store.
Qed.

Lemma framed_to_bgr (h0 : gmap loc ndarray) (hsv : loc) :
  framed h0 (to_bgr hsv) (fun l => h0 !! l = None).
Proof.
  unfold to_bgr.
  eapply framed_bind; [apply framed_cvt|]. intros frame Hfr.
  eapply framed_bind; [apply framed_neutral, heap_neutral_load|]. intros fr _.
  eapply framed_bind; [now apply framed_store|]. intros _ _.
  now apply framed_ret.
Qed.

Lemma framed_attach_alpha (h0 : gmap loc ndarray) (has_alpha : bool) (frame : loc)
    (image_alpha : ref) :
  h0 !! frame = None ->
  framed h0 (attach_alpha has_alpha frame image_alpha) (fun l => h0 !! l = None).
Proof.
  intros Hfr. unfold attach_alpha. destruct has_alpha; [|now apply framed_ret].
  eapply framed_bind; [apply framed_neutral, heap_neutral_load|]. intros fr _.
  eapply framed_bind; [apply framed_neutral, heap_neutral_load|]. intros al _.
  eapply framed_bind; [apply framed_neutral, heap_neutral_lift|]. intros stacked _.
  apply framed_alloc.
Qed.

Lemma returned_image_outputs (frame : loc) (mk kp bb : option pyobj) :
  returned_image (outputs frame mk kp bb) = Some frame.
Proof. now destruct mk, kp, bb. Qed.

Lemma framed_run_call (h0 : gmap loc ndarray) (self : LightingGradient) (image : loc)
    (mk kp bb : option pyobj) :
  framed h0 (run_call self image mk kp bb)
    (fun ret => forall l, returned_image ret = Some l -> h0 !! l = None).
Proof.
  unfold run_call.
  eapply framed_bind; [apply framed_neutral, heap_neutral_load|]. intros img _.
  eapply framed_bind; [apply framed_alloc|]. intros copy _.
  eapply framed_bind.
  { apply framed_neutral. destruct (transparency self);
      [apply heap_neutral_ret|apply heap_neutral_uniform]. }
  intros t _.
  eapply framed_bind; [apply framed_neutral, heap_neutral_load|]. intros fr _.
  eapply framed_bind; [apply framed_to_hsv|]. intros hsv Hhsv.
  eapply framed_bind; [apply framed_neutral, heap_neutral_generate|]. intros lm _.
  eapply framed_bind; [now apply framed_blend_into|]. intros _ _.
  eapply framed_bind; [apply framed_to_bgr|]. intros frame Hframe.
  eapply framed_bind; [now apply framed_attach_alpha|]. intros frame' Hframe'.
  apply framed_ret. intros l. rewrite returned_image_outputs. now intros [= <-].
Qed.

Lemma framed_call (h0 : gmap loc ndarray) (self : LightingGradient) (image : loc)
    (mk kp bb : option pyobj) (force : bool) :
  framed h0 (call should_run self image mk kp bb force)
    (fun ret => forall l, returned_image ret = Some l -> h0 !! l = None).
Proof.
  unfold call.
  eapply framed_bind; [apply framed_neutral, heap_neutral_gate|]. intros run _.
  destruct run; [apply framed_run_call|].
  apply framed_ret. intros l. discriminate.
Qed.

(** A call that returns an image has read it from the heap. *)
Lemma call_image_present (self : LightingGradient) (image : loc)
    (mk kp bb : option pyobj) (force : bool) (st : state) (rv : retval) (l : loc) :
  fst (call should_run self image mk kp bb force st) = Ok rv ->
  returned_image rv = Some l ->
  is_Some (heap st !! image).
Proof.
  unfold call, bind at 1. intros Hrun Hret.
  pose proof (heap_neutral_gate self force st) as Hheap.
  destruct ((if force then ret true else call_should_run should_run self) st)
    as [[run|e] st1]; simpl in *; [|discriminate].
  destruct run.
  - unfold run_call, bind at 1, load in Hrun. simpl in Hrun.
    rewrite Hheap in Hrun. destruct (heap st !! image); [eauto|discriminate].
  - simpl in Hrun. injection Hrun as <-. discriminate.
Qed.
End FrameFacts.

(** * The claims *)

(** ** C3: the linear profile *)

(** C3, as stated, fails. With [max_value = 255], centre 0 and decay rate
    1 the value computed at index 255 is [255 - 255 * 1 = 0]; it is not
    negative, so the loop writes 0, whereas [max(1, 0)] is 1: the
    profile holds a value below 1. *)
Lemma linear_profile_below_one :
  exists mask' x_value,
    apply_decay_value_linear (replicate 256 [0%R]) 256 255 0 1 = Ok (mask', x_value) /\
    mask' !! 255%nat = Some [0%R] /\
    linear_value_spec 255 0 1 255 = 1%R /\
    (0 < 1)%R.
Proof.
  destruct (apply_decay_value_linear_rows (replicate 256 [0%R]) 256 255 0 1)
    as (mask' & Hrun & _ & Hrows).
  { rewrite length_replicate. lia. }
  exists mask', (linear_value 255 0 1 (256 - 1)). split; [exact Hrun|]. split.
  - rewrite Hrows. rewrite bool_decide_eq_true_2 by (simpl; lia).
    rewrite lookup_replicate_2 by lia. simpl. do 2 f_equal.
    change (Z.of_nat 255) with 255. rewrite linear_value_raw. cbv zeta.
    replace (IZR 255 - Rabs (IZR 0 - IZR 255) * 1)%R with 0%R.
    + destruct (Rlt_dec 0 0); [lra|reflexivity].
    + rewrite Rabs_left by lra. lra.
  - split; [|lra]. unfold linear_value_spec.
    replace (255 - Rabs (0 - 255) * 1)%R with 0%R.
    + apply Rmax_left. lra.
    + rewrite Rabs_left by lra. lra.
Qed.

(** C3, amended: in linear mode the value written at every index [x] of
    the canvas axis is [max_value - |center - x| * decay_rate] when that
    is not negative and 1 when it is negative; so no profile value is
    negative (values in [0, 1) do occur). *)
Theorem linear_profile_floor (mask : matrix R) (canvas_y max_value center : Z) (rate : R) :
  0 < canvas_y <= Z.of_nat (length mask) ->
  exists mask' x_value,
    apply_decay_value_linear mask canvas_y max_value center rate = Ok (mask', x_value) /\
    forall (x : nat) (row : list R),
      Z.of_nat x < canvas_y -> mask !! x = Some row ->
      exists v,
        mask' !! x = Some (replicate (length row) v) /\
        let raw := (IZR max_value - Rabs (IZR center - IZR (Z.of_nat x)) * rate)%R in
        ((raw < 0)%R -> v = 1%R) /\ ((0 <= raw)%R -> v = raw) /\ (0 <= v)%R.
Proof.
  intros Hc.
  destruct (apply_decay_value_linear_rows mask canvas_y max_value center rate Hc)
    as (mask' & Hrun & _ & Hrows).
  exists mask', (linear_value max_value center rate (canvas_y - 1)).
  split; [exact Hrun|]. intros x row Hx Hrow.
  exists (linear_value max_value center rate (Z.of_nat x)). split.
  - rewrite Hrows, bool_decide_eq_true_2 by lia. now rewrite Hrow.
  - split; [|split].
    + intros Hneg. rewrite linear_value_raw. simpl.
      destruct (Rlt_dec _ 0); [reflexivity|contradiction].
    + intros Hpos. rewrite linear_value_raw. simpl.
      destruct (Rlt_dec _ 0); [lra|reflexivity].
    + apply linear_value_nonneg.
Qed.

Lemma linear_profile_floor_witness :
  0 < 2 <= Z.of_nat (length [[0%R]; [0%R]]) /\
  exists mask' x_value,
    apply_decay_value_linear [[0%R]; [0%R]] 2 255 0 (1 / 2) = Ok (mask', x_value) /\
    forall (x : nat) (row : list R),
      Z.of_nat x < 2 -> [[0%R]; [0%R]] !! x = Some row ->
      exists v,
        mask' !! x = Some (replicate (length row) v) /\
        let raw := (IZR 255 - Rabs (IZR 0 - IZR (Z.of_nat x)) * (1 / 2))%R in
        ((raw < 0)%R -> v = 1%R) /\ ((0 <= raw)%R -> v = raw) /\ (0 <= v)%R.
Proof.
  split; [simpl; lia|].
  apply (linear_profile_floor [[0%R]; [0%R]] 2 255 0 (1 / 2)). simpl; lia.
Defined.

(** ** C5: the Gaussian profile *)

(** C5, as stated, fails when [max_brightness < min_brightness], which
    the operator accepts: with [max_value = 0], [min_value = 255],
    centre 0 and [grange = 3] the value at the centre is 0 and the value
    next to it is [255 * (1 - exp (-1/2)) > 0]; the profile has its
    minimum, not its maximum, at the centre. *)
Lemma gaussian_profile_inverted :
  exists mask' v0 v1,
    apply_decay_value_norm [[0%R]; [0%R]] 2 0 255 0 3 = Ok mask' /\
    mask' !! 0%nat = Some [v0] /\ mask' !! 1%nat = Some [v1] /\
    v0 = 0%R /\ (v0 < v1)%R.
Proof.
  destruct (apply_decay_value_norm_rows [[0%R]; [0%R]] 2 0 255 0 3)
    as (mask' & Hrun & _ & Hrows); [lia|simpl; lia|].
  exists mask', (norm_value 0 255 0 3 0), (norm_value 0 255 0 3 1).
  split; [exact Hrun|]. split; [|split].
  - rewrite Hrows. reflexivity.
  - rewrite Hrows. reflexivity.
  - split.
    + now rewrite norm_value_center.
    + rewrite norm_value_center by lia. rewrite norm_value_bell by lia.
      assert (Hu : (- (IZR (1 - 0) / Rabs (IZR 3 / 3)) ^ 2 / 2 = - (1 / 2))%R).
      { change (1 - 0) with 1. replace (IZR 3 / 3)%R with 1%R by lra.
        rewrite Rabs_R1. lra. }
      rewrite Hu. change (0 - 255) with (-255).
      pose proof (exp_increasing (- (1 / 2)) 0 ltac:(lra)) as He.
      rewrite exp_0 in He. lra.
Qed.

(** C5, amended: in Gaussian mode with [grange] nonzero, the centre
    inside the canvas and [min_brightness <= max_brightness], the
    profile value at the centre is exactly [max_brightness], no value
    exceeds it, and the values are non-increasing as the index moves
    away from the centre in either direction. *)
Theorem gaussian_profile_falloff (mask : matrix R)
    (canvas_y max_value min_value center grange : Z) :
  grange <> 0 ->
  0 <= center < canvas_y ->
  canvas_y <= Z.of_nat (length mask) ->
  min_value <= max_value ->
  let profile := fun x : nat => norm_value max_value min_value center grange (Z.of_nat x) in
  exists mask' : matrix R,
    apply_decay_value_norm mask canvas_y max_value min_value center grange = Ok mask' /\
    (forall (x : nat) (row : list R),
       Z.of_nat x < canvas_y -> mask !! x = Some row ->
       mask' !! x = Some (replicate (length row) (profile x))) /\
    profile (Z.to_nat center) = IZR max_value /\
    (forall x : nat, (profile x <= IZR max_value)%R) /\
    (forall x y : nat,
       Z.abs (Z.of_nat y - center) <= Z.abs (Z.of_nat x - center) ->
       (profile x <= profile y)%R).
Proof.
  intros Hg Hc Hlen Hmm profile.
  destruct (apply_decay_value_norm_rows mask canvas_y max_value min_value center grange
              Hg Hlen) as (mask' & Hrun & _ & Hrows).
  exists mask'. subst profile. cbv beta.
  split; [exact Hrun|]. split; [|split; [|split]].
  - intros x row Hx Hrow. rewrite Hrows, bool_decide_eq_true_2 by lia. now rewrite Hrow.
  - rewrite Z2Nat.id by lia. now apply norm_value_center.
  - intros x. rewrite <- (norm_value_center max_value min_value center grange Hg).
    apply norm_value_falloff; [exact Hg|exact Hmm|]. rewrite Z.sub_diag. simpl. lia.
  - intros x y Hxy. now apply norm_value_falloff.
Qed.

Lemma gaussian_profile_falloff_witness :
  let profile := fun x : nat => norm_value 255 0 2 3 (Z.of_nat x) in
  exists mask' : matrix R,
    apply_decay_value_norm (replicate 5 [0%R; 0%R]) 5 255 0 2 3 = Ok mask' /\
    (forall (x : nat) (row : list R),
       Z.of_nat x < 5 -> replicate 5 [0%R; 0%R] !! x = Some row ->
       mask' !! x = Some (replicate (length row) (profile x))) /\
    profile (Z.to_nat 2) = IZR 255 /\
    (forall x : nat, (profile x <= IZR 255)%R) /\
    (forall x y : nat,
       Z.abs (Z.of_nat y - 2) <= Z.abs (Z.of_nat x - 2) ->
       (profile x <= profile y)%R).
Proof.
  apply (gaussian_profile_falloff (replicate 5 [0%R; 0%R]) 5 255 0 2 3);
    simpl; lia.
Defined.

(** ** C7: the default direction *)

(** C7, as stated, fails: [random.randint(0, 360)] includes both ends.
    When the generator's next word is 360 the resolved direction is
    360. *)
Lemma direction_default_reaches_360 :
  resolve_light_params (100, 50) (Some (50, 25)) None 255 0 "gaussian" None
    (State ∅ [360])
  = (Ok (LightParams 50 25 360 "gaussian" None), State ∅ []).
Proof. reflexivity. Qed.

(** C7, amended: whenever [direction] is unset, the resolved direction
    is sampled uniformly from the integer degrees of the closed
    interval [0, 360]. It always lies in that interval; and it is
    settled by the one word the generator yields for it (the first
    unused word, after the two of an unset position), in such a way
    that among any 361 consecutive values of that word each of the 361
    degrees 0, ..., 360 is the outcome of exactly one: no degree is
    favoured over another, and 360 does occur. *)
Theorem direction_default_uniform (w h : Z) (position : option (Z * Z)) (maxb minb : Z)
    (md : string) (rate : option R) :
  0 < w -> 0 < h ->
  (forall st, exists lp st',
     resolve_light_params (w, h) position None maxb minb md rate st = (Ok lp, st') /\
     0 <= lp_direction lp <= 360) /\
  (forall (hp : gmap loc ndarray) (pre g : list Z) (d b : Z),
     length pre = match position with None => 2%nat | Some _ => 0%nat end ->
     0 <= d <= 360 ->
     exists n,
       361 * b <= n < 361 * b + 361 /\
       forall n', 361 * b <= n' < 361 * b + 361 ->
         ((exists lp st',
             resolve_light_params (w, h) position None maxb minb md rate
               (State hp (pre ++ n' :: g)) = (Ok lp, st') /\
             lp_direction lp = d)
          <-> n' = n)).
Proof.
  intros Hw Hh. split.
  - intros st.
    destruct (wp_resolve_light_params w h position None maxb minb md rate st
                (fun lp _ => 0 <= lp_direction lp <= 360) Hw Hh)
      as (lp & st' & Hrun & Hd); [auto|].
    now exists lp, st'.
  - intros hp pre g d b Hpre Hd. exists (361 * b + d). split; [lia|].
    intros n' Hn'.
    destruct (resolve_direction_word w h position maxb minb md rate hp pre n' g
                Hw Hh Hpre) as (lp & st' & Hrun & Hlp).
    assert (Hmod : n' mod 361 = d <-> n' = 361 * b + d).
    { pose proof (Z.div_mod n' 361 ltac:(lia)) as Hdm.
      pose proof (Z.mod_pos_bound n' 361 ltac:(lia)) as Hb.
      split; intros E.
      - assert (n' / 361 = b) by nia. lia.
      - subst n'. rewrite Z.add_comm, Z.mul_comm, Z.mod_add by lia.
        apply Z.mod_small. lia. }
    split.
    + intros (lp' & st'' & Hrun' & Hlp'). rewrite Hrun in Hrun'.
      injection Hrun' as <- _. apply Hmod. congruence.
    + intros E. exists lp, st'. split; [exact Hrun|]. rewrite Hlp. now apply Hmod.
Qed.

Lemma direction_default_uniform_witness :
  (forall st, exists lp st',
     resolve_light_params (100, 50) None None 255 0 "gaussian" None st = (Ok lp, st') /\
     0 <= lp_direction lp <= 360) /\
  (forall (hp : gmap loc ndarray) (pre g : list Z) (d b : Z),
     length pre = 2%nat ->
     0 <= d <= 360 ->
     exists n,
       361 * b <= n < 361 * b + 361 /\
       forall n', 361 * b <= n' < 361 * b + 361 ->
         ((exists lp st',
             resolve_light_params (100, 50) None None 255 0 "gaussian" None
               (State hp (pre ++ n' :: g)) = (Ok lp, st') /\
             lp_direction lp = d)
          <-> n' = n)).
Proof.
  apply (direction_default_uniform 100 50 None 255 0 "gaussian" None); lia.
Defined.

(** ** C2, C8, C9: the mask generator *)

Section GeneratorClaims.
Context `{Cv2}.

(** C2: for every mask size [(w, h)] with positive width and height,
    and any position, direction, brightness range, mode and decay
    rate, [generate_parallel_light_mask] returns a two-dimensional
    byte buffer of exactly [h] rows and [w] columns with every sample
    in [0, 255]. *)
Theorem generate_mask_dims (w h : Z) (position : option (Z * Z)) (dir : option Z)
    (maxb minb : Z) (md : string) (rate : option R) (st : state) :
  0 < w -> 0 < h ->
  exists mask st',
    generate_parallel_light_mask (w, h) position dir maxb minb md rate st
    = (Ok mask, st') /\
    dims2 mask (Z.to_nat h) (Z.to_nat w) /\
    uint8_samples mask.
Proof.
  intros Hw Hh.
  destruct (wp_generate_parallel_light_mask w h position dir maxb minb md rate st
              (fun mask _ => dims2 mask (Z.to_nat h) (Z.to_nat w) /\ uint8_samples mask)
              Hw Hh) as (mask & st' & Hrun & HQ); [auto|].
  now exists mask, st'.
Qed.

(** C9: an unrecognised mode string gives exactly the outcome of mode
    ["gaussian"] with all other parameters equal, from the same state
    of the random generator and leaving it in the same state. *)
Theorem generate_mode_fallback (mask_size : Z * Z) (position : option (Z * Z))
    (dir : option Z) (maxb minb : Z) (md : string) (rate : option R) (st : state) :
  str_in md known_modes = false ->
  generate_parallel_light_mask mask_size position dir maxb minb md rate st
  = generate_parallel_light_mask mask_size position dir maxb minb "gaussian" rate st.
Proof.
  intros Hmd.
  assert (Hstatic : String.eqb md "linear_static" = false).
  { unfold str_in, known_modes in Hmd. simpl in Hmd.
    destruct (String.eqb md "linear_static"); [|reflexivity].
    now rewrite orb_true_r in Hmd. }
  assert (Hnorm : normalised_mode md = normalised_mode "gaussian").
  { unfold normalised_mode. now rewrite Hmd. }
  unfold generate_parallel_light_mask, resolve_light_params, default_static_rate.
  rewrite Hstatic, Hnorm. reflexivity.
Qed.

(** C8, amended: the generator makes no check of the geometry and has
    no [InvalidDimensions] condition. For every mask size with a zero
    or negative width or height it never returns a mask: it ends with
    the exception of the library call, or of the interpreter, that
    first stumbles over the size, one of [ValueError],
    [ZeroDivisionError] and [cv2.error] ([UnboundLocalError] is what
    line 199 would add, were the linear kernel run uncompiled on a
    canvas without rows); for a negative width and height it is
    [ValueError]. *)
Theorem generate_invalid_size (w h : Z) (position : option (Z * Z)) (dir : option Z)
    (maxb minb : Z) (md : string) (rate : option R) (st : state) :
  w <= 0 \/ h <= 0 ->
  exists e st',
    generate_parallel_light_mask (w, h) position dir maxb minb md rate st
    = (Raise e, st') /\
    (e = ValueError \/ e = ZeroDivisionError \/ e = Cv2Error \/ e = UnboundLocalError) /\
    (w < 0 -> h < 0 -> e = ValueError).
Proof.
  intros Hwh.
  pose proof (generate_invalid_raises w h position dir maxb minb md rate Hwh st) as Hends.
  pose proof (generate_negative_raises w h position dir maxb minb md rate st) as Hneg.
  destruct (generate_parallel_light_mask (w, h) position dir maxb minb md rate st)
    as [[mask|e] st']; simpl in *; [contradiction|].
  exists e, st'. split; [reflexivity|]. split; [tauto|].
  intros Hw Hh. specialize (Hneg Hw Hh). congruence.
Qed.
End GeneratorClaims.

Lemma generate_mask_dims_witness :
  exists mask st',
    generate_parallel_light_mask (H := Reference.cv2) (100, 50) (Some (50, 25)) (Some 0)
      255 0 "gaussian" None (State ∅ [])
    = (Ok mask, st') /\
    dims2 mask 50 100 /\
    uint8_samples mask.
Proof.
  apply (generate_mask_dims (H := Reference.cv2) 100 50 (Some (50, 25)) (Some 0)
           255 0 "gaussian" None (State ∅ [])); lia.
Defined.

Lemma generate_mode_fallback_witness :
  generate_parallel_light_mask (H := Reference.cv2) (100, 50) None None 255 0
    "not_a_mode" None (State ∅ [7; 11; 13])
  = generate_parallel_light_mask (H := Reference.cv2) (100, 50) None None 255 0
      "gaussian" None (State ∅ [7; 11; 13]).
Proof.
  apply (generate_mode_fallback (H := Reference.cv2) (100, 50) None None 255 0
           "not_a_mode" None (State ∅ [7; 11; 13])).
  reflexivity.
Defined.

(** C8, as stated, fails: with mask size [(-5, -5)] (position and
    direction given) the generator resolves its defaults and then fails
    in the allocation of the canvas with NumPy's [ValueError]; no
    [InvalidDimensions] condition exists. *)
Lemma generate_negative_size_value_error :
  generate_parallel_light_mask (H := Reference.cv2) (-5, -5) (Some (0, 0)) (Some 0)
    255 0 "gaussian" None (State ∅ [])
  = (Raise ValueError, State ∅ []) /\
  exn_name ValueError <> "InvalidDimensions"%string.
Proof.
  split; [|discriminate].
  unfold generate_parallel_light_mask, bind.
  change (resolve_light_params (-5, -5) (Some (0, 0)) (Some 0) 255 0 "gaussian" None
            (State ∅ []))
    with (Ok (LightParams 0 0 0 "gaussian" None), State ∅ []).
  unfold lift. f_equal. unfold render_light_mask. simpl fst. simpl snd.
  pose proof (padding_nonpos (Z.max (-5) (-5)) ltac:(lia)) as Hp.
  set (pad := py_int (IZR (Z.max (-5) (-5)) * sqrt 2)) in *.
  unfold np_zeros. destruct (Z.ltb_spec (pad * 2 + -5) 0); [reflexivity|lia].
Qed.

Lemma generate_invalid_size_witness :
  exists e st',
    generate_parallel_light_mask (H := Reference.cv2) (-5, 3) (Some (0, 0)) (Some 0)
      255 0 "gaussian" None (State ∅ [])
    = (Raise e, st') /\
    (e = ValueError \/ e = ZeroDivisionError \/ e = Cv2Error \/ e = UnboundLocalError) /\
    (-5 < 0 -> 3 < 0 -> e = ValueError).
Proof.
  apply (generate_invalid_size (H := Reference.cv2) (-5) 3 (Some (0, 0)) (Some 0) 255 0
           "gaussian" None (State ∅ [])).
  left. lia.
Defined.

(** ** C1, C4, C6, C10: the operator *)

Section OperatorClaims.
Context `{Cv2}.
Variable should_run : R -> list Z -> bool * list Z.

(** C1 does not hold for grayscale input: when the operator runs on a
    two-dimensional image of [h] rows and [w] columns it returns an
    array of shape [(h, w, 3)]; the frame promoted to three channels
    for the HSV conversion is never converted back. *)
Theorem call_gray_returns_bgr (self : LightingGradient) (image : loc)
    (mk kp bb : option pyobj) (force : bool) (m : matrix Z) (h w : nat) (st : state) :
  heap st !! image = Some (A2 m) ->
  dims2 m h w -> (0 < h)%nat -> (0 < w)%nat ->
  gate_open should_run self force st ->
  exists rv st' l out,
    call should_run self image mk kp bb force st = (Ok rv, st') /\
    returned_image rv = Some l /\
    heap st' !! l = Some out /\
    has_shape (A2 m) [h; w] /\
    has_shape out [h; w; 3%nat] /\
    shape out <> shape (A2 m).
Proof.
  intros Himg Hd Hh Hw Hopen.
  destruct (wp_call_open should_run self image mk kp bb force st
              (fun rv st' => exists l out, rv = outputs l mk kp bb /\
                 heap st' !! l = Some (A3 out) /\ dims3 out h w 3) Hopen)
    as (rv & st' & Hrun & l & out & -> & Hl & Hdo).
  { intros g. now apply (wp_run_call_gray self image mk kp bb m h w). }
  exists (outputs l mk kp bb), st', l, (A3 out).
  split; [exact Hrun|]. split; [apply returned_image_outputs|].
  split; [exact Hl|]. split; [exact Hd|]. split; [exact Hdo|].
  simpl. discriminate.
Qed.

(** C4, amended: when the gate declines ([force] is false and
    [should_run()] is false), [__call__] returns [None]; it reads and
    writes no buffer, so the input image is left as it was. *)
Theorem call_declined_returns_none (self : LightingGradient) (image : loc)
    (mk kp bb : option pyobj) (st : state) :
  fst (should_run (p self) (rng st)) = false ->
  call should_run self image mk kp bb false st
  = (Ok RNone, State (heap st) (snd (should_run (p self) (rng st)))).
Proof.
  intros Hgate. unfold call, bind, call_should_run.
  destruct (should_run (p self) (rng st)) as [b g]. simpl in *. now subst b.
Qed.

(** C6: when the operator runs on a four-channel image, the fourth
    channel of the returned image equals the fourth channel of the
    input, sample for sample. *)
Theorem call_preserves_alpha (self : LightingGradient) (image : loc)
    (mk kp bb : option pyobj) (force : bool) (m : matrix (list Z)) (h w : nat)
    (st : state) :
  heap st !! image = Some (A3 m) ->
  dims3 m h w 4 -> (0 < h)%nat -> (0 < w)%nat ->
  gate_open should_run self force st ->
  exists rv st' l out,
    call should_run self image mk kp bb force st = (Ok rv, st') /\
    returned_image rv = Some l /\
    heap st' !! l = Some (A3 out) /\
    dims3 out h w 4 /\
    channel 3 out = channel 3 m.
Proof.
  intros Himg Hd Hh Hw Hopen.
  destruct (wp_call_open should_run self image mk kp bb force st
              (fun rv st' => exists l out, rv = outputs l mk kp bb /\
                 heap st' !! l = Some (A3 out) /\ dims3 out h w 4 /\
                 channel 3 out = channel 3 m) Hopen)
    as (rv & st' & Hrun & l & out & -> & Hl & Hdo & Hch).
  { intros g. now apply (wp_run_call_bgra self image mk kp bb m h w). }
  exists (outputs l mk kp bb), st', l, out.
  split; [exact Hrun|]. split; [apply returned_image_outputs|]. auto.
Qed.

(** C10: however [__call__] ends, every buffer that existed before the
    call, the caller's image among them, holds the contents it held;
    and an image that is returned is a buffer allocated by the call,
    distinct from the input. *)
Theorem call_never_mutates_input (self : LightingGradient) (image : loc)
    (mk kp bb : option pyobj) (force : bool) (st : state) :
  (forall l a, heap st !! l = Some a ->
               heap (snd (call should_run self image mk kp bb force st)) !! l = Some a) /\
  (forall rv l,
     fst (call should_run self image mk kp bb force st) = Ok rv ->
     returned_image rv = Some l ->
     heap st !! l = None /\ l <> image).
Proof.
  destruct (framed_call should_run (heap st) self image mk kp bb force st)
    as [Hsub Hret]; [reflexivity|].
  split.
  - intros l a Hl. eapply lookup_weaken; eauto.
  - intros rv l Hrun Hrv.
    pose proof (Hret rv Hrun l Hrv) as Hfresh.
    destruct (call_image_present should_run self image mk kp bb force st rv l Hrun Hrv)
      as [img Himg].
    split; [exact Hfresh|]. congruence.
Qed.
End OperatorClaims.

Section ColourShape.
Context `{Cv2}.
Variable should_run : R -> list Z -> bool * list Z.

(** For comparison with C1: a three-channel image keeps its shape. *)
Remark call_bgr_keeps_shape (self : LightingGradient) (image : loc)
    (mk kp bb : option pyobj) (force : bool) (m : matrix (list Z)) (h w : nat)
    (st : state) :
  heap st !! image = Some (A3 m) ->
  dims3 m h w 3 -> (0 < h)%nat -> (0 < w)%nat ->
  gate_open should_run self force st ->
  exists rv st' l out,
    call should_run self image mk kp bb force st = (Ok rv, st') /\
    returned_image rv = Some l /\
    heap st' !! l = Some out /\
    has_shape out [h; w; 3%nat].
Proof.
  intros Himg Hd Hh Hw Hopen.
  destruct (wp_call_open should_run self image mk kp bb force st
              (fun rv st' => exists l out, rv = outputs l mk kp bb /\
                 heap st' !! l = Some (A3 out) /\ dims3 out h w 3) Hopen)
    as (rv & st' & Hrun & l & out & -> & Hl & Hdo).
  { intros g. now apply (wp_run_call_bgr self image mk kp bb m h w). }
  exists (outputs l mk kp bb), st', l, (A3 out).
  split; [exact Hrun|]. split; [apply returned_image_outputs|]. auto.
Qed.
End ColourShape.

Lemma call_gray_returns_bgr_witness :
  exists rv st' l out,
    call (H := Reference.cv2) Reference.gate_no default_operator 0%nat None None None true
      (State {[ 0%nat := A2 [[10; 20]; [30; 40]] ]} [3; 1; 4; 1; 5])
    = (Ok rv, st') /\
    returned_image rv = Some l /\
    heap st' !! l = Some out /\
    has_shape (A2 [[10; 20]; [30; 40]]) [2%nat; 2%nat] /\
    has_shape out [2%nat; 2%nat; 3%nat] /\
    shape out <> shape (A2 [[10; 20]; [30; 40]]).
Proof.
  apply (call_gray_returns_bgr (H := Reference.cv2) Reference.gate_no default_operator
           0%nat None None None true [[10; 20]; [30; 40]] 2 2
           (State {[ 0%nat := A2 [[10; 20]; [30; 40]] ]} [3; 1; 4; 1; 5])).
  - reflexivity.
  - split; [reflexivity|]. repeat constructor.
  - lia.
  - lia.
  - left. reflexivity.
Defined.

(** C4, as stated, fails: when the gate declines the call returns
    [None], not the input image. *)
Lemma call_declined_returns_no_image :
  call (H := Reference.cv2) Reference.gate_no default_operator 0%nat None None None false
    (State {[ 0%nat := A3 [[[1; 2; 3]]] ]} [])
  = (Ok RNone, State {[ 0%nat := A3 [[[1; 2; 3]]] ]} []) /\
  returned_image RNone <> Some 0%nat.
Proof. split; [reflexivity|discriminate]. Qed.

Lemma call_declined_returns_none_witness :
  call (H := Reference.cv2) Reference.gate_no default_operator 0%nat None None None false
    (State {[ 0%nat := A3 [[[1; 2; 3]]] ]} [])
  = (Ok RNone,
     State {[ 0%nat := A3 [[[1; 2; 3]]] ]}
       (snd (Reference.gate_no (p default_operator) []))).
Proof.
  exact (call_declined_returns_none (H := Reference.cv2) Reference.gate_no
           default_operator 0%nat None None None
           (State {[ 0%nat := A3 [[[1; 2; 3]]] ]} []) eq_refl).
Defined.

Lemma call_preserves_alpha_witness :
  exists rv st' l out,
    call (H := Reference.cv2) Reference.gate_yes default_operator 0%nat None None None false
      (State {[ 0%nat := A3 [[[10; 20; 30; 255]; [40; 50; 60; 128]]] ]} [2; 7; 1; 8; 2; 8])
    = (Ok rv, st') /\
    returned_image rv = Some l /\
    heap st' !! l = Some (A3 out) /\
    dims3 out 1 2 4 /\
    channel 3 out = channel 3 [[[10; 20; 30; 255]; [40; 50; 60; 128]]].
Proof.
  apply (call_preserves_alpha (H := Reference.cv2) Reference.gate_yes default_operator
           0%nat None None None false [[[10; 20; 30; 255]; [40; 50; 60; 128]]] 1 2
           (State {[ 0%nat := A3 [[[10; 20; 30; 255]; [40; 50; 60; 128]]] ]}
              [2; 7; 1; 8; 2; 8])).
  - reflexivity.
  - split; [split; [reflexivity|]|]; repeat constructor.
  - lia.
  - lia.
  - right. reflexivity.
Defined.


(** * Further properties of the code *)

(** ** The padding and the canvas *)

Lemma padding_sqrt_eq (m : Z) :
  0 <= m -> py_int (IZR m * sqrt 2) = Z.sqrt (2 * m * m).
Proof.
  intros Hm.
  assert (Hsq : (IZR m * sqrt 2 = sqrt (IZR (2 * m * m)))%R).
  { rewrite !mult_IZR. replace (2 * IZR m * IZR m)%R with (2 * (IZR m * IZR m))%R by lra.
    rewrite sqrt_mult; [|lra|apply Rle_0_sqr].
    rewrite sqrt_square by (now apply IZR_le). lra. }
  unfold py_int. destruct (Rle_dec 0 (IZR m * sqrt 2)) as [_|Hneg].
  2:{ exfalso. apply Hneg. apply Rmult_le_pos; [now apply IZR_le|apply sqrt_pos]. }
  pose proof (Z.sqrt_spec (2 * m * m) ltac:(nia)) as Hspec. cbv zeta in Hspec.
  pose proof (Z.sqrt_nonneg (2 * m * m)) as Hk0.
  set (k := Z.sqrt (2 * m * m)) in *.
  apply Zfloor_eq. rewrite Hsq. split.
  - rewrite <- (sqrt_square (IZR k)) by (now apply IZR_le).
    apply sqrt_le_1_alt. rewrite <- mult_IZR. apply IZR_le. lia.
  - replace (IZR k + 1)%R with (IZR (Z.succ k)) by (rewrite succ_IZR; lra).
    rewrite <- (sqrt_square (IZR (Z.succ k))) by (apply IZR_le; lia).
    apply sqrt_lt_1_alt. split.
    + apply IZR_le. nia.
    + rewrite <- mult_IZR. apply IZR_lt. lia.
Qed.

Lemma padding_ge (m : Z) : 0 <= m -> m <= py_int (IZR m * sqrt 2).
Proof.
  intros Hm. rewrite padding_sqrt_eq by exact Hm. apply Z.sqrt_le_square; nia.
Qed.

(** X1 (line 113): for a non-negative longer side [m] the padding
    [int(m * sqrt(2))] is the integer square root of [2 * m * m]; it is
    at least [m]. *)
Theorem padding_isqrt (m : Z) :
  0 <= m ->
  py_int (IZR m * sqrt 2) = Z.sqrt (2 * m * m) /\ m <= py_int (IZR m * sqrt 2).
Proof.
  intros Hm. split; [now apply padding_sqrt_eq|now apply padding_ge].
Qed.

Lemma padding_isqrt_witness :
  py_int (IZR 100 * sqrt 2) = Z.sqrt (2 * 100 * 100) /\ 100 <= py_int (IZR 100 * sqrt 2).
Proof. apply (padding_isqrt 100). lia. Defined.

Lemma rows_filled_zeros (f : nat -> R) (cy cx : nat) (mask' : matrix R) :
  rows_filled f 0 cy (replicate cy (replicate cx 0%R)) mask' ->
  mask' = map (fun x => replicate cx (f x)) (seq 0 cy).
Proof.
  intros [Hlen Hrows]. apply list_eq. intros i. rewrite Hrows.
  destruct (decide (i < cy)%nat) as [Hi|Hi].
  - rewrite bool_decide_eq_true_2 by lia.
    rewrite lookup_replicate_2 by exact Hi. simpl. rewrite length_replicate.
    symmetry. change (map ?g ?l) with (g <$> l). rewrite list_lookup_fmap.
    rewrite lookup_seq_lt by exact Hi. reflexivity.
  - rewrite bool_decide_eq_false_2 by lia.
    rewrite (lookup_ge_None_2 (replicate cy (replicate cx 0%R)) i)
      by (rewrite length_replicate; lia).
    symmetry. apply lookup_ge_None_2. rewrite length_map, length_seq. lia.
Qed.

(** X2 (lines 117-127, 165-174, 193-197): the canvas after the decay
    step is a light strip: row [x] holds one value in every column, the
    profile value of [x]. This holds for the Gaussian kernel when
    [grange] is nonzero and for the linear kernel when the canvas has at
    least one row. *)
Theorem canvas_is_light_strip (canvas_x canvas_y max_value min_value center grange : Z)
    (rate : R) :
  0 < canvas_y -> 0 <= canvas_x -> grange <> 0 ->
  exists zeros,
    np_zeros canvas_y canvas_x = Ok zeros /\
    apply_decay_value_norm zeros canvas_y max_value min_value center grange
    = Ok (map (fun x => replicate (Z.to_nat canvas_x)
                          (norm_value max_value min_value center grange (Z.of_nat x)))
            (range canvas_y)) /\
    apply_decay_value_linear zeros canvas_y max_value center rate
    = Ok (map (fun x => replicate (Z.to_nat canvas_x)
                          (linear_value max_value center rate (Z.of_nat x)))
            (range canvas_y),
          linear_value max_value center rate (canvas_y - 1)).
Proof.
  intros Hy Hx Hg.
  exists (replicate (Z.to_nat canvas_y) (replicate (Z.to_nat canvas_x) 0%R)).
  split.
  { unfold np_zeros. destruct (Z.ltb_spec canvas_y 0); [lia|].
    destruct (Z.ltb_spec canvas_x 0); [lia|]. reflexivity. }
  split.
  - destruct (apply_decay_value_norm_rows
                (replicate (Z.to_nat canvas_y) (replicate (Z.to_nat canvas_x) 0%R))
                canvas_y max_value min_value center grange Hg) as (mask' & Hrun & Hfill).
    { rewrite length_replicate. lia. }
    rewrite Hrun. f_equal. now apply rows_filled_zeros.
  - destruct (apply_decay_value_linear_rows
                (replicate (Z.to_nat canvas_y) (replicate (Z.to_nat canvas_x) 0%R))
                canvas_y max_value center rate) as (mask' & Hrun & Hfill).
    { rewrite length_replicate. lia. }
    rewrite Hrun. do 2 f_equal. now apply rows_filled_zeros.
Qed.

Lemma canvas_is_light_strip_witness :
  exists zeros,
    np_zeros 3 2 = Ok zeros /\
    apply_decay_value_norm zeros 3 255 0 1 3
    = Ok (map (fun x => replicate (Z.to_nat 2) (norm_value 255 0 1 3 (Z.of_nat x)))
            (range 3)) /\
    apply_decay_value_linear zeros 3 255 1 (1 / 2)
    = Ok (map (fun x => replicate (Z.to_nat 2) (linear_value 255 1 (1 / 2) (Z.of_nat x)))
            (range 3),
          linear_value 255 1 (1 / 2) (3 - 1)).
Proof. apply (canvas_is_light_strip 2 3 255 0 1 3 (1 / 2)); lia. Defined.

(** ** The two profiles *)

(** X3 (lines 165-174): with [grange] nonzero the Gaussian profile is
    symmetric about the centre, and with [min_value <= max_value] every
    value lies in [[min_value, max_value]]. *)
Theorem gaussian_profile_symmetric_bounded (max_value min_value center grange : Z) :
  grange <> 0 ->
  (forall d : Z,
     norm_value max_value min_value center grange (center + d)
     = norm_value max_value min_value center grange (center - d)) /\
  (min_value <= max_value ->
   forall x : Z,
     (IZR min_value <= norm_value max_value min_value center grange x <= IZR max_value)%R).
Proof.
  intros Hg. split.
  - intros d. rewrite !norm_value_bell by exact Hg.
    replace (center + d - center) with d by lia.
    replace (center - d - center) with (- d) by lia.
    rewrite opp_IZR. do 3 f_equal.
    unfold Rdiv. simpl. ring.
  - intros Hmm x. split.
    + rewrite norm_value_bell by exact Hg.
      pose proof (exp_pos (- (IZR (x - center) / Rabs (IZR grange / 3)) ^ 2 / 2)).
      assert (0 <= IZR (max_value - min_value))%R by (apply IZR_le; lia). nra.
    + rewrite <- (norm_value_center max_value min_value center grange Hg).
      apply norm_value_falloff; [exact Hg|exact Hmm|]. rewrite Z.sub_diag. simpl. lia.
Qed.

Lemma gaussian_profile_symmetric_bounded_witness :
  (forall d : Z, norm_value 255 0 10 3 (10 + d) = norm_value 255 0 10 3 (10 - d)) /\
  (0 <= 255 ->
   forall x : Z, (IZR 0 <= norm_value 255 0 10 3 x <= IZR 255)%R).
Proof. apply (gaussian_profile_symmetric_bounded 255 0 10 3). lia. Defined.

(** X4 (lines 193-197): the linear profile is symmetric about the
    centre; with a non-negative decay rate and a non-negative
    [max_value] it is [max_value] at the centre, and it does not
    increase away from the centre as long as the computed value has not
    dropped below zero (where it jumps to 1). *)
Theorem linear_profile_symmetric_falloff (max_value center : Z) (rate : R) :
  (0 <= rate)%R ->
  (forall d : Z,
     linear_value max_value center rate (center + d)
     = linear_value max_value center rate (center - d)) /\
  (0 <= max_value -> linear_value max_value center rate center = IZR max_value) /\
  (forall x y : Z,
     Z.abs (y - center) <= Z.abs (x - center) ->
     (0 <= IZR max_value - IZR (Z.abs (center - x)) * rate)%R ->
     (linear_value max_value center rate x <= linear_value max_value center rate y)%R).
Proof.
  intros Hr. split; [|split].
  - intros d. unfold linear_value.
    replace (Z.abs (center - (center + d))) with (Z.abs d) by lia.
    replace (Z.abs (center - (center - d))) with (Z.abs d) by lia. reflexivity.
  - intros Hm. unfold linear_value. rewrite Z.sub_diag.
    change (Z.abs 0) with 0. cbv zeta.
    apply (IZR_le 0) in Hm.
    destruct (Rlt_dec (IZR max_value - 0 * rate) 0); lra.
  - intros x y Hxy Hx. unfold linear_value. cbv zeta.
    assert (Hd : (IZR (Z.abs (center - y)) <= IZR (Z.abs (center - x)))%R)
      by (apply IZR_le; lia).
    destruct (Rlt_dec (IZR max_value - IZR (Z.abs (center - x)) * rate) 0); [lra|].
    destruct (Rlt_dec (IZR max_value - IZR (Z.abs (center - y)) * rate) 0); nra.
Qed.

Lemma linear_profile_symmetric_falloff_witness :
  (forall d : Z, linear_value 255 10 (1 / 2) (10 + d) = linear_value 255 10 (1 / 2) (10 - d)) /\
  (0 <= 255 -> linear_value 255 10 (1 / 2) 10 = IZR 255) /\
  (forall x y : Z,
     Z.abs (y - 10) <= Z.abs (x - 10) ->
     (0 <= IZR 255 - IZR (Z.abs (10 - x)) * (1 / 2))%R ->
     (linear_value 255 10 (1 / 2) x <= linear_value 255 10 (1 / 2) y)%R).
Proof. apply (linear_profile_symmetric_falloff 255 10 (1 / 2)). lra. Defined.

(** ** What the defaults draw *)

Lemma draw_drop (g : list Z) : draw g = (hd 0 g, drop 1 g).
Proof. now destruct g. Qed.

Lemma draws_ret {A} (a : A) (P : A -> Prop) : P a -> draws 0 (ret a) P.
Proof. intros HP [hp g]. exists a. now split. Qed.

Lemma draws_bind {A B} (n k : nat) (m : M A) (f : A -> M B)
    (P : A -> Prop) (Q : B -> Prop) :
  draws n m P -> (forall a, P a -> draws k (f a) Q) -> draws (n + k) (bind m f) Q.
Proof.
  intros Hm Hf st. destruct (Hm st) as (a & Hrun & HP).
  destruct (Hf a HP (State (heap st) (drop n (rng st)))) as (b & Hrun' & HQ).
  exists b. split; [|exact HQ]. unfold bind. rewrite Hrun, Hrun'. simpl.
  now rewrite drop_drop.
Qed.

Lemma draws_eq {A} (n n' : nat) (m : M A) (P : A -> Prop) :
  n = n' -> draws n m P -> draws n' m P.
Proof. now intros ->. Qed.

Lemma randint_range (a b n : Z) : a <= b -> a <= a + n mod (b - a + 1) <= b.
Proof. intros Hab. pose proof (Z.mod_pos_bound n (b - a + 1)). lia. Qed.

Lemma draws_randint (a b : Z) :
  a <= b -> draws 1 (randint a b) (fun v => a <= v <= b).
Proof.
  intros Hab st. unfold randint. destruct (Z.ltb_spec b a); [lia|].
  rewrite draw_drop. eexists. split; [reflexivity|]. now apply randint_range.
Qed.

Lemma random_unit_range (n : Z) : (0 <= random_unit n < 1)%R.
Proof.
  unfold random_unit. pose proof (Z.mod_pos_bound n (2 ^ 53) ltac:(lia)) as [Hlo Hhi].
  apply IZR_le in Hlo. apply IZR_lt in Hhi.
  assert (Hpos : (0 < IZR (2 ^ 53))%R) by (apply IZR_lt; lia).
  split.
  - apply Rmult_le_pos; [exact Hlo|]. left. now apply Rinv_0_lt_compat.
  - apply (Rmult_lt_reg_r (IZR (2 ^ 53))); [exact Hpos|].
    unfold Rdiv. rewrite Rmult_assoc, Rinv_l by lra. lra.
Qed.

Lemma draws_uniform (a b : R) :
  (a <= b)%R -> draws 1 (uniform a b) (fun v => (a <= v <= b)%R).
Proof.
  intros Hab st. unfold uniform. rewrite draw_drop.
  eexists. split; [reflexivity|].
  pose proof (random_unit_range (hd 0 (rng st))). simpl. nra.
Qed.

Lemma draws_default_position (w h : Z) (position : option (Z * Z)) :
  0 <= w -> 0 <= h ->
  draws (match position with None => 2 | Some _ => 0 end)
    (default_position (w, h) position)
    (fun pos => match position with
                | Some q => pos = (fst q, snd q)
                | None => 0 <= fst pos <= w /\ 0 <= snd pos <= h
                end).
Proof.
  intros Hw Hh. destruct position as [q|]; simpl.
  - now apply draws_ret.
  - apply (draws_bind 1 1 _ _ (fun v => 0 <= v <= w)); [now apply draws_randint|].
    intros x Hx.
    apply (draws_bind 1 0 _ _ (fun v => 0 <= v <= h)); [now apply draws_randint|].
    intros y Hy. now apply draws_ret.
Qed.

Lemma draws_default_direction (dir : option Z) :
  draws (match dir with None => 1 | Some _ => 0 end)
    (default_direction dir)
    (fun d => match dir with Some d0 => d = d0 | None => 0 <= d <= 360 end).
Proof.
  destruct dir as [d0|]; simpl; [now apply draws_ret|].
  apply draws_randint. lia.
Qed.

Lemma draws_default_static_rate (md : string) (rate : option R) :
  draws (match rate with
         | None => if String.eqb md "linear_static" then 1 else 0
         | Some _ => 0
         end)
    (default_static_rate md rate)
    (fun r => match rate with
              | Some r0 => r = Some r0
              | None =>
                  if String.eqb md "linear_static"
                  then exists v, r = Some v /\ (2 / 10 <= v <= 2)%R
                  else r = None
              end).
Proof.
  destruct rate as [r0|]; simpl; [now apply draws_ret|].
  destruct (String.eqb md "linear_static"); [|now apply draws_ret].
  apply (draws_bind 1 0 _ _ (fun v => (2 / 10 <= v <= 2)%R)).
  - apply draws_uniform. lra.
  - intros v Hv. apply draws_ret. eauto.
Qed.

Lemma draws_dynamic_rate (w h maxb minb : Z) (md : string) (rate : option R) :
  Z.max w h <> 0 ->
  draws 0 (dynamic_rate (w, h) maxb minb md rate)
    (fun r => if String.eqb md "linear_dynamic"
              then r = Some (IZR (maxb - minb) / IZR (Z.max w h))%R
              else r = rate).
Proof.
  intros Hmax. unfold dynamic_rate. simpl.
  destruct (String.eqb md "linear_dynamic").
  - apply Z.eqb_neq in Hmax. rewrite Hmax. now apply draws_ret.
  - now apply draws_ret.
Qed.

(** What lines 96-111 settle on a valid mask size. *)
Lemma draws_resolve_light_params (w h : Z) (position : option (Z * Z)) (dir : option Z)
    (maxb minb : Z) (md : string) (rate : option R) :
  0 <= w -> 0 <= h -> Z.max w h <> 0 ->
  draws (resolve_draws position dir md rate)
    (resolve_light_params (w, h) position dir maxb minb md rate)
    (fun lp =>
       match position with
       | Some q => lp_pos_x lp = fst q /\ lp_pos_y lp = snd q
       | None => 0 <= lp_pos_x lp <= w /\ 0 <= lp_pos_y lp <= h
       end /\
       match dir with Some d0 => lp_direction lp = d0 | None => 0 <= lp_direction lp <= 360 end /\
       lp_mode lp = normalised_mode md /\
       (if String.eqb (normalised_mode md) "linear_dynamic"
        then lp_linear_decay_rate lp = Some (IZR (maxb - minb) / IZR (Z.max w h))%R
        else match rate with
             | Some r0 => lp_linear_decay_rate lp = Some r0
             | None =>
                 if String.eqb md "linear_static"
                 then exists v, lp_linear_decay_rate lp = Some v /\ (2 / 10 <= v <= 2)%R
                 else lp_linear_decay_rate lp = None
             end)).
Proof.
  intros Hw Hh Hmax. unfold resolve_light_params, resolve_draws.
  eapply draws_eq; [|eapply draws_bind; [apply draws_default_position; lia|]].
  2:{ intros pos Hpos.
      eapply draws_bind; [apply draws_default_direction|]. intros d Hd.
      eapply draws_bind; [apply draws_default_static_rate|]. intros r1 Hr1.
      eapply draws_bind; [apply (draws_dynamic_rate w h); lia|]. intros r2 Hr2.
      apply draws_ret. simpl. split; [|split; [exact Hd|split; [reflexivity|]]].
      - destruct position as [q|]; [now subst pos|exact Hpos].
      - destruct (String.eqb (normalised_mode md) "linear_dynamic"); [exact Hr2|].
        subst r2. exact Hr1. }
  lia.
Qed.

(** X5 (lines 96-98): an unset position is drawn inside the mask
    rectangle, both ends included: [0 <= pos_x <= width] and
    [0 <= pos_y <= height]. *)
Theorem default_position_in_mask (w h : Z) (dir : option Z) (maxb minb : Z)
    (md : string) (rate : option R) (st : state) :
  0 < w -> 0 < h ->
  exists lp st',
    resolve_light_params (w, h) None dir maxb minb md rate st = (Ok lp, st') /\
    0 <= lp_pos_x lp <= w /\ 0 <= lp_pos_y lp <= h.
Proof.
  intros Hw Hh.
  destruct (draws_resolve_light_params w h None dir maxb minb md rate
              ltac:(lia) ltac:(lia) ltac:(lia) st)
    as (lp & Hrun & Hpos & _).
  eauto.
Qed.

Lemma default_position_in_mask_witness :
  exists lp st',
    resolve_light_params (100, 50) None (Some 0) 255 0 "gaussian" None (State ∅ [250; 75])
    = (Ok lp, st') /\
    0 <= lp_pos_x lp <= 100 /\ 0 <= lp_pos_y lp <= 50.
Proof.
  apply (default_position_in_mask 100 50 (Some 0) 255 0 "gaussian" None
           (State ∅ [250; 75])); lia.
Defined.

(** X6 (lines 104-106): in mode [linear_static] an unset decay rate is
    drawn from [[0.2, 2]], and a given one is used as it is. *)
Theorem static_rate_default (w h : Z) (position : option (Z * Z)) (dir : option Z)
    (maxb minb : Z) (rate : option R) (st : state) :
  0 < w -> 0 < h ->
  exists lp st' v,
    resolve_light_params (w, h) position dir maxb minb "linear_static" rate st
    = (Ok lp, st') /\
    lp_mode lp = "linear_static"%string /\
    lp_linear_decay_rate lp = Some v /\
    match rate with
    | Some r0 => v = r0
    | None => (2 / 10 <= v <= 2)%R
    end.
Proof.
  intros Hw Hh.
  destruct (draws_resolve_light_params w h position dir maxb minb "linear_static" rate
              ltac:(lia) ltac:(lia) ltac:(lia) st) as (lp & Hrun & _ & _ & Hmode & Hrate).
  change (normalised_mode "linear_static") with "linear_static"%string in *.
  simpl in Hrate. destruct rate as [r0|].
  - exists lp, (State (heap st)
                  (drop (resolve_draws position dir "linear_static" (Some r0)) (rng st))), r0.
    auto.
  - destruct Hrate as (v & Hv & Hrange).
    exists lp, (State (heap st)
                  (drop (resolve_draws position dir "linear_static" None) (rng st))), v.
    auto.
Qed.

Lemma static_rate_default_witness :
  exists lp st' v,
    resolve_light_params (100, 50) None None 255 0 "linear_static" None (State ∅ [1; 2; 3; 4])
    = (Ok lp, st') /\
    lp_mode lp = "linear_static"%string /\
    lp_linear_decay_rate lp = Some v /\
    (2 / 10 <= v <= 2)%R.
Proof.
  apply (static_rate_default 100 50 None None 255 0 None (State ∅ [1; 2; 3; 4])); lia.
Defined.

(** X7 (lines 110-111, 194): in mode [linear_dynamic] the decay rate is
    [(max_brightness - min_brightness) / max(mask_size)] whatever rate
    was passed; with [0 <= min_brightness <= max_brightness] the linear
    profile of that rate stays in [[min_brightness, max_brightness]] at
    every index closer than [max(mask_size)] to its centre: the floor of
    line 195 is not met there. *)
Theorem dynamic_rate_keeps_range (w h : Z) (position : option (Z * Z)) (dir : option Z)
    (maxb minb : Z) (rate : option R) (st : state) :
  0 < w -> 0 < h ->
  exists lp st',
    resolve_light_params (w, h) position dir maxb minb "linear_dynamic" rate st
    = (Ok lp, st') /\
    lp_mode lp = "linear_dynamic"%string /\
    lp_linear_decay_rate lp = Some (IZR (maxb - minb) / IZR (Z.max w h))%R /\
    (0 <= minb <= maxb ->
     forall center x : Z,
       Z.abs (x - center) < Z.max w h ->
       (IZR minb
        <= linear_value maxb center (IZR (maxb - minb) / IZR (Z.max w h)) x
        <= IZR maxb)%R).
Proof.
  intros Hw Hh.
  destruct (draws_resolve_light_params w h position dir maxb minb "linear_dynamic" rate
              ltac:(lia) ltac:(lia) ltac:(lia) st) as (lp & Hrun & _ & _ & Hmode & Hrate).
  change (normalised_mode "linear_dynamic") with "linear_dynamic"%string in *.
  simpl in Hrate.
  eexists lp, _. split; [exact Hrun|]. split; [exact Hmode|]. split; [exact Hrate|].
  intros Hmm center x Hx. unfold linear_value. cbv zeta.
  assert (Hm : (0 < IZR (Z.max w h))%R) by (apply IZR_lt; lia).
  assert (Hd0 : (0 <= IZR (Z.abs (center - x)))%R) by (apply IZR_le; lia).
  assert (Hd1 : (IZR (Z.abs (center - x)) <= IZR (Z.max w h))%R) by (apply IZR_le; lia).
  assert (Hmin : (0 <= IZR minb)%R) by (apply IZR_le; lia).
  assert (Hspan : (0 <= IZR (maxb - minb))%R) by (apply IZR_le; lia).
  set (r := (IZR (maxb - minb) / IZR (Z.max w h))%R).
  assert (Hr0 : (0 <= r)%R).
  { unfold r, Rdiv. apply Rmult_le_pos; [exact Hspan|].
    left. now apply Rinv_0_lt_compat. }
  assert (Hfull : (IZR (Z.max w h) * r = IZR maxb - IZR minb)%R).
  { unfold r. rewrite minus_IZR. field. lra. }
  assert (Hstep : (IZR (Z.abs (center - x)) * r <= IZR (Z.max w h) * r)%R)
    by (apply Rmult_le_compat_r; assumption).
  assert (Hpos : (0 <= IZR (Z.abs (center - x)) * r)%R) by (apply Rmult_le_pos; assumption).
  destruct (Rlt_dec (IZR maxb - IZR (Z.abs (center - x)) * r) 0); lra.
Qed.

Lemma dynamic_rate_keeps_range_witness :
  exists lp st',
    resolve_light_params (100, 50) (Some (50, 25)) (Some 0) 255 0 "linear_dynamic"
      (Some 1%R) (State ∅ [])
    = (Ok lp, st') /\
    lp_mode lp = "linear_dynamic"%string /\
    lp_linear_decay_rate lp = Some (IZR (255 - 0) / IZR (Z.max 100 50))%R /\
    (0 <= 0 <= 255 ->
     forall center x : Z,
       Z.abs (x - center) < Z.max 100 50 ->
       (IZR 0
        <= linear_value 255 center (IZR (255 - 0) / IZR (Z.max 100 50)) x
        <= IZR 255)%R).
Proof.
  apply (dynamic_rate_keeps_range 100 50 (Some (50, 25)) (Some 0) 255 0 (Some 1%R)
           (State ∅ [])); lia.
Defined.

Lemma bind_ext_run {A B} (m : M A) (f g : A -> M B) (st : state) :
  (forall a st', f a st' = g a st') -> bind m f st = bind m g st.
Proof.
  intros Hfg. unfold bind. destruct (m st) as [[a|e] st']; [apply Hfg|reflexivity].
Qed.

Lemma bind_assoc_run {A B C} (m : M A) (f : A -> M B) (g : B -> M C) (st : state) :
  bind (bind m f) g st = bind m (fun a => bind (f a) g) st.
Proof.
  unfold bind. destruct (m st) as [[a|e] st']; reflexivity.
Qed.

Lemma bind_ok_run {A B} (m : M A) (f : A -> M B) (st st' : state) (a : A) :
  m st = (Ok a, st') -> bind m f st = f a st'.
Proof. intros Hm. unfold bind. now rewrite Hm. Qed.

Section GeneratorExtras.
Context `{Cv2}.

(** X8 (lines 96-142): on a valid mask size the generator returns
    normally and takes from [random] exactly two values for an unset
    position, one for an unset direction and one for an unset rate in
    mode [linear_static]; with everything given it takes none, so the
    run is reproducible. *)
Theorem generate_draw_count (w h : Z) (position : option (Z * Z)) (dir : option Z)
    (maxb minb : Z) (md : string) (rate : option R) (st : state) :
  0 < w -> 0 < h ->
  exists mask,
    generate_parallel_light_mask (w, h) position dir maxb minb md rate st
    = (Ok mask, State (heap st) (drop (resolve_draws position dir md rate) (rng st))).
Proof.
  intros Hw Hh.
  destruct (draws_resolve_light_params w h position dir maxb minb md rate
              ltac:(lia) ltac:(lia) ltac:(lia) st)
    as (lp & Hrun & _ & _ & Hmode & Hrate).
  assert (Hm : lp_mode lp = "gaussian"%string \/ is_Some (lp_linear_decay_rate lp)).
  { rewrite Hmode.
    destruct (normalised_mode_cases md) as [[-> E]|[[-> E]|(_ & _ & E)]];
      rewrite E in *; simpl in Hrate.
    - right. rewrite Hrate. eauto.
    - right. destruct rate as [r0|]; [rewrite Hrate; eauto|].
      destruct Hrate as (v & -> & _). eauto.
    - now left. }
  destruct (render_light_mask_ok w h maxb minb lp Hw Hh Hm) as (mask & Hrender & _).
  exists mask. unfold generate_parallel_light_mask, bind, lift.
  now rewrite Hrun, Hrender.
Qed.

(** X9 (lines 104-111, 124-127): outside mode [linear_static] the
    argument [linear_decay_rate] has no effect: two calls that differ
    only in it give the same outcome and leave the generator in the same
    state. *)
Theorem generate_ignores_rate (mask_size : Z * Z) (position : option (Z * Z))
    (dir : option Z) (maxb minb : Z) (md : string) (rate1 rate2 : option R) (st : state) :
  md <> "linear_static"%string ->
  generate_parallel_light_mask mask_size position dir maxb minb md rate1 st
  = generate_parallel_light_mask mask_size position dir maxb minb md rate2 st.
Proof.
  intros Hmd. apply String.eqb_neq in Hmd as Hmd'.
  assert (Hstatic : forall rate st', default_static_rate md rate st' = (Ok rate, st')).
  { intros [r|] st'; unfold default_static_rate; [reflexivity|]. now rewrite Hmd'. }
  unfold generate_parallel_light_mask, resolve_light_params.
  rewrite !bind_assoc_run. apply bind_ext_run. intros pos sa.
  rewrite !bind_assoc_run. apply bind_ext_run. intros d sb.
  rewrite !bind_assoc_run.
  rewrite (bind_ok_run _ _ _ _ _ (Hstatic rate1 sb)).
  rewrite (bind_ok_run _ _ _ _ _ (Hstatic rate2 sb)).
  unfold dynamic_rate.
  destruct (normalised_mode_cases md) as [[-> E]|[[-> E]|(_ & _ & E)]].
  - rewrite E. reflexivity.
  - congruence.
  - rewrite E. reflexivity.
Qed.
End GeneratorExtras.

Lemma generate_draw_count_witness :
  exists mask,
    generate_parallel_light_mask (H := Reference.cv2) (100, 50) None None 255 0
      "linear_static" None (State ∅ [1; 2; 3; 4; 5; 6])
    = (Ok mask, State ∅ [5; 6]).
Proof.
  apply (generate_draw_count (H := Reference.cv2) 100 50 None None 255 0
           "linear_static" None (State ∅ [1; 2; 3; 4; 5; 6])); lia.
Defined.

Lemma generate_ignores_rate_witness :
  generate_parallel_light_mask (H := Reference.cv2) (100, 50) None None 255 0
    "linear_dynamic" (Some 1%R) (State ∅ [1; 2; 3])
  = generate_parallel_light_mask (H := Reference.cv2) (100, 50) None None 255 0
      "linear_dynamic" None (State ∅ [1; 2; 3]).
Proof.
  apply (generate_ignores_rate (H := Reference.cv2) (100, 50) None None 255 0
           "linear_dynamic" (Some 1%R) None (State ∅ [1; 2; 3])).
  discriminate.
Defined.

(** ** The operator: what a call draws and what it hands back *)

Lemma wp_draws {A} (n : nat) (m : M A) (P : A -> Prop) (st : state)
    (Q : A -> state -> Prop) :
  draws n m P ->
  (forall a, P a -> Q a (State (heap st) (drop n (rng st)))) ->
  wp m st Q.
Proof.
  intros Hm HQ. destruct (Hm st) as (a & Hrun & HP).
  exists a. eexists. split; [exact Hrun|]. now apply HQ.
Qed.

Lemma draws_transparency (self : LightingGradient) :
  draws (match transparency self with None => 1 | Some _ => 0 end)
    (match transparency self with
     | None => uniform (5 / 10) (85 / 100)
     | Some t => ret t
     end)
    (fun t => match transparency self with
              | Some t0 => t = t0
              | None => (5 / 10 <= t <= 85 / 100)%R
              end).
Proof.
  destruct (transparency self) as [t0|]; [now apply draws_ret|].
  apply draws_uniform. lra.
Qed.

Section OperatorExtras.
Context `{Cv2}.
Variable should_run : R -> list Z -> bool * list Z.

Lemma draws_generate (w h : Z) (position : option (Z * Z)) (dir : option Z)
    (maxb minb : Z) (md : string) (rate : option R) :
  0 < w -> 0 < h ->
  draws (resolve_draws position dir md rate)
    (generate_parallel_light_mask (w, h) position dir maxb minb md rate)
    (fun mask => dims2 mask (Z.to_nat h) (Z.to_nat w) /\ uint8_samples mask).
Proof.
  intros Hw Hh st.
  destruct (draws_resolve_light_params w h position dir maxb minb md rate
              ltac:(lia) ltac:(lia) ltac:(lia) st)
    as (lp & Hrun & _ & _ & Hmode & Hrate).
  assert (Hm : lp_mode lp = "gaussian"%string \/ is_Some (lp_linear_decay_rate lp)).
  { rewrite Hmode.
    destruct (normalised_mode_cases md) as [[-> E]|[[-> E]|(_ & _ & E)]];
      rewrite E in *; simpl in Hrate.
    - right. rewrite Hrate. eauto.
    - right. destruct rate as [r0|]; [rewrite Hrate; eauto|].
      destruct Hrate as (v & -> & _). eauto.
    - now left. }
  destruct (render_light_mask_ok w h maxb minb lp Hw Hh Hm) as (mask & Hrender & Hd & Hu).
  exists mask. split; [|now split].
  unfold generate_parallel_light_mask, bind, lift. now rewrite Hrun, Hrender.
Qed.

(** The steps of [run_call] after the frame is in HSV. *)
Lemma wp_run_call_tail (self : LightingGradient) (has_alpha : bool) (lc lh : loc)
    (mk kp bb : option pyobj) (m y : matrix (list Z)) (t : R) (h w : nat) (st : state)
    (g0 : list Z) (n : nat) :
  heap st !! lh = Some (A3 y) -> dims3 y h w 3 ->
  (has_alpha = true -> lh <> lc /\ heap st !! lc = Some (A3 m) /\ dims3 m h w 4) ->
  (0 < h)%nat -> (0 < w)%nat ->
  rng st = drop n g0 ->
  wp (lighting_mask <- generate_parallel_light_mask (Z.of_nat w, Z.of_nat h)
                         (light_position self) (direction self)
                         (max_brightness self) (min_brightness self)
                         (mode self) (linear_decay_rate self);;
      _ <- blend_into lh lighting_mask t;;
      frame <- to_bgr lh;;
      frame <- attach_alpha has_alpha frame (lc, Chan 3);;
      ret (outputs frame mk kp bb)) st
    (fun rv st' =>
       exists l out, rv = outputs l mk kp bb /\ heap st' !! l = Some out /\
         rng st' = drop (n + resolve_draws (light_position self) (direction self)
                              (mode self) (linear_decay_rate self)) g0).
Proof.
  intros Hlh Hdy Halpha Hh Hw Hrng.
  apply wp_bind. eapply wp_draws; [apply draws_generate; lia|].
  intros lm [Hlm _]. rewrite !Nat2Z.id in Hlm.
  apply wp_bind.
  eapply wp_blend_into; [exact Hlh|exact Hdy|exact Hlm|exact Hh|]. intros y' Hdy'.
  apply wp_bind.
  eapply wp_to_bgr; [apply lookup_insert_eq|exact Hdy'|exact Hh|exact Hw|].
  intros lf z Hdz Hlf. cbn [heap rng] in *.
  destruct has_alpha.
  - destruct (Halpha eq_refl) as (Hne & Hlc & Hdm).
    assert (Hne' : lf <> lc).
    { intros ->. rewrite lookup_insert_ne in Hlf by exact Hne. congruence. }
    apply wp_bind.
    eapply (wp_attach_alpha lf lc z m h w);
      [apply lookup_insert_eq|exact Hdz| |exact Hdm|exact Hh|].
    { cbn [heap]. rewrite !lookup_insert_ne by assumption. exact Hlc. }
    intros la out Hdo Hch _. apply wp_ret.
    exists la, (A3 out). split; [reflexivity|]. split; [apply lookup_insert_eq|].
    cbn [rng]. rewrite Hrng. apply drop_drop.
  - apply wp_bind, wp_ret, wp_ret.
    exists lf, (A3 z). split; [reflexivity|]. split; [apply lookup_insert_eq|].
    cbn [rng]. rewrite Hrng. apply drop_drop.
Qed.

Lemma wp_run_call_wf (self : LightingGradient) (image : loc) (mk kp bb : option pyobj)
    (img : ndarray) (h w : nat) (st : state) :
  heap st !! image = Some img ->
  wf_image img h w -> (0 < h)%nat -> (0 < w)%nat ->
  wp (run_call self image mk kp bb) st
    (fun rv st' =>
       exists l out, rv = outputs l mk kp bb /\ heap st' !! l = Some out /\
         rng st' = drop (call_draws self) (rng st)).
Proof.
  intros Himg Hwf Hh Hw. unfold run_call, call_draws.
  apply wp_bind. eapply wp_load; [exact Himg|reflexivity|].
  apply wp_bind, wp_alloc. intros lc Hlc.
  destruct img as [m|m]; [|destruct Hwf as [Hd|Hd]].
  - (* grayscale *)
    rewrite (shape_dims2 m h w Hwf Hh). cbn [length nth Nat.ltb Nat.leb Nat.eqb andb].
    apply wp_bind. eapply wp_draws; [apply draws_transparency|]. intros t _.
    apply wp_bind. eapply wp_load; [apply lookup_insert_eq|reflexivity|].
    rewrite (shape_dims2 m h w Hwf Hh). cbn [nth].
    apply wp_bind.
    eapply wp_to_hsv_gray; [apply lookup_insert_eq|exact Hwf|exact Hh|exact Hw|].
    intros lh y hp Hdy Hlh _ _.
    eapply (wp_run_call_tail self false lc lh mk kp bb [] y t h w);
      [exact Hlh|exact Hdy|discriminate|exact Hh|exact Hw|reflexivity].
  - (* three channels *)
    rewrite (shape_dims3 m h w 3 Hd Hh Hw). cbn [length nth Nat.ltb Nat.leb Nat.eqb andb].
    apply wp_bind. eapply wp_draws; [apply draws_transparency|]. intros t _.
    apply wp_bind. eapply wp_load; [apply lookup_insert_eq|reflexivity|].
    rewrite (shape_dims3 m h w 3 Hd Hh Hw). cbn [nth].
    apply wp_bind.
    eapply wp_to_hsv_colour; [apply lookup_insert_eq|reflexivity|exact Hd|exact Hh|exact Hw|].
    intros lh y hp Hdy Hlh _ _.
    eapply (wp_run_call_tail self false lc lh mk kp bb [] y t h w);
      [exact Hlh|exact Hdy|discriminate|exact Hh|exact Hw|reflexivity].
  - (* four channels *)
    pose proof (dims3_first3 m h w 4 ltac:(lia) Hd) as Hd3.
    rewrite (shape_dims3 m h w 4 Hd Hh Hw). cbn [length nth Nat.ltb Nat.leb Nat.eqb andb].
    apply wp_bind. eapply wp_draws; [apply draws_transparency|]. intros t _.
    apply wp_bind. eapply wp_load; [apply lookup_insert_eq|reflexivity|].
    rewrite (shape_dims3 (first3 m) h w 3 Hd3 Hh Hw). cbn [nth].
    apply wp_bind.
    eapply wp_to_hsv_colour; [apply lookup_insert_eq|reflexivity|exact Hd3|exact Hh|exact Hw|].
    intros lh y hp Hdy Hlh Hlh0 Hsub. cbn [heap rng] in *.
    eapply (wp_run_call_tail self true lc lh mk kp bb m y t h w);
      [exact Hlh|exact Hdy| |exact Hh|exact Hw|reflexivity].
    intros _. split; [|split; [|exact Hd]].
    + intros ->. rewrite lookup_insert_eq in Hlh0. discriminate.
    + eapply lookup_weaken; [|exact Hsub]. apply lookup_insert_eq.
Qed.

(** X10 (lines 202-250, 96-106): a forced call on a well-formed
    grayscale, three- or four-channel image returns normally without
    consulting [should_run], and draws from [random] exactly one value
    for an unset transparency plus the defaults of the mask; with
    transparency, position, direction and rate given it draws none. *)
Theorem call_forced_draws (self : LightingGradient) (image : loc)
    (mk kp bb : option pyobj) (img : ndarray) (h w : nat) (st : state) :
  heap st !! image = Some img ->
  wf_image img h w -> (0 < h)%nat -> (0 < w)%nat ->
  exists rv st',
    call should_run self image mk kp bb true st = (Ok rv, st') /\
    rng st' = drop (call_draws self) (rng st).
Proof.
  intros Himg Hwf Hh Hw.
  destruct (wp_run_call_wf self image mk kp bb img h w st Himg Hwf Hh Hw)
    as (rv & st' & Hrun & l & out & _ & _ & Hrng).
  exists rv, st'. split; [|exact Hrng].
  unfold call, bind, ret. exact Hrun.
Qed.

(** X11 (lines 240-250): when the operator runs on a well-formed image
    and none of [mask], [keypoints], [bounding_boxes] is given it
    returns the image alone; as soon as one is given it returns the list
    [[image, mask, keypoints, bounding_boxes]] with the three
    annotations exactly as they were passed, the missing ones as
    [None]. *)
Theorem call_hands_back_annotations (self : LightingGradient) (image : loc)
    (mk kp bb : option pyobj) (force : bool) (img : ndarray) (h w : nat) (st : state) :
  heap st !! image = Some img ->
  wf_image img h w -> (0 < h)%nat -> (0 < w)%nat ->
  gate_open should_run self force st ->
  exists l st',
    call should_run self image mk kp bb force st
    = (Ok (match mk, kp, bb with
           | None, None, None => RImage l
           | _, _, _ => RList l mk kp bb
           end), st') /\
    is_Some (heap st' !! l).
Proof.
  intros Himg Hwf Hh Hw Hopen.
  destruct (wp_call_open should_run self image mk kp bb force st
              (fun rv st' => exists l out, rv = outputs l mk kp bb /\
                 heap st' !! l = Some out) Hopen)
    as (rv & st' & Hrun & l & out & -> & Hl).
  { intros g.
    eapply wp_mono; [apply (wp_run_call_wf self image mk kp bb img h w); assumption|].
    intros rv st' (l & out & Hrv & Hl & _). eauto. }
  exists l, st'. split; [|eauto].
  rewrite Hrun. f_equal. f_equal. unfold outputs. now destruct mk, kp, bb.
Qed.
End OperatorExtras.

Lemma call_forced_draws_witness :
  exists rv st',
    call (H := Reference.cv2) Reference.gate_no default_operator 0%nat None None None true
      (State {[ 0%nat := A3 [[[10; 20; 30]; [40; 50; 60]]] ]} [1; 2; 3; 4; 5; 6])
    = (Ok rv, st') /\
    rng st' = [5; 6].
Proof.
  apply (call_forced_draws (H := Reference.cv2) Reference.gate_no default_operator 0%nat
           None None None (A3 [[[10; 20; 30]; [40; 50; 60]]]) 1 2
           (State {[ 0%nat := A3 [[[10; 20; 30]; [40; 50; 60]]] ]} [1; 2; 3; 4; 5; 6])).
  - reflexivity.
  - left. split; [split; [reflexivity|]|]; repeat constructor.
  - lia.
  - lia.
Defined.

Lemma call_hands_back_annotations_witness :
  exists l st',
    call (H := Reference.cv2) Reference.gate_no default_operator 0%nat
      None (Some 7%nat) None true
      (State {[ 0%nat := A2 [[10; 20]; [30; 40]] ]} [1; 2; 3; 4])
    = (Ok (RList l None (Some 7%nat) None), st') /\
    is_Some (heap st' !! l).
Proof.
  apply (call_hands_back_annotations (H := Reference.cv2) Reference.gate_no
           default_operator 0%nat None (Some 7%nat) None true
           (A2 [[10; 20]; [30; 40]]) 2 2
           (State {[ 0%nat := A2 [[10; 20]; [30; 40]] ]} [1; 2; 3; 4])).
  - reflexivity.
  - split; [reflexivity|]. repeat constructor.
  - lia.
  - lia.
  - left. reflexivity.
Defined.

Lemma call_bgr_keeps_shape_witness :
  exists rv st' l out,
    call (H := Reference.cv2) Reference.gate_yes default_operator 0%nat None None None false
      (State {[ 0%nat := A3 [[[10; 20; 30]; [40; 50; 60]]] ]} [1; 2; 3; 4])
    = (Ok rv, st') /\
    returned_image rv = Some l /\
    heap st' !! l = Some out /\
    has_shape out [1%nat; 2%nat; 3%nat].
Proof.
  apply (call_bgr_keeps_shape (H := Reference.cv2) Reference.gate_yes default_operator
           0%nat None None None false [[[10; 20; 30]; [40; 50; 60]]] 1 2
           (State {[ 0%nat := A3 [[[10; 20; 30]; [40; 50; 60]]] ]} [1; 2; 3; 4])).
  - reflexivity.
  - split; [split; [reflexivity|]|]; repeat constructor.
  - lia.
  - lia.
  - right. reflexivity.
Defined.

(** ** Degenerate sizes *)

Section DegenerateSizes.
Context `{Cv2}.

(** X12 (lines 110-111): with mask size [(0, 0)] mode [linear_dynamic]
    divides by [max(mask_size) = 0]: the generator ends with
    [ZeroDivisionError]. *)
Theorem generate_zero_size_dynamic (position : option (Z * Z)) (dir : option Z)
    (maxb minb : Z) (rate : option R) (st : state) :
  exists st',
    generate_parallel_light_mask (0, 0) position dir maxb minb "linear_dynamic" rate st
    = (Raise ZeroDivisionError, st').
Proof.
  destruct (draws_default_position 0 0 position ltac:(lia) ltac:(lia) st)
    as (pos & Hpos & _).
  destruct (draws_default_direction dir
              (State (heap st) (drop match position with None => 2 | Some _ => 0 end (rng st))))
    as (d & Hd & _).
  eexists.
  unfold generate_parallel_light_mask, resolve_light_params.
  rewrite !bind_assoc_run, (bind_ok_run _ _ _ _ _ Hpos).
  rewrite !bind_assoc_run, (bind_ok_run _ _ _ _ _ Hd).
  rewrite !bind_assoc_run.
  assert (Hstatic : forall st', default_static_rate "linear_dynamic" rate st' = (Ok rate, st')).
  { intros st'. now destruct rate. }
  rewrite (bind_ok_run _ _ _ _ _ (Hstatic _)).
  reflexivity.
Qed.

(** X13 (lines 124-125, 167-170): with a positive width and height 0 the
    Gaussian kernel is run on a canvas that has rows, with [grange = 0]:
    the radius is zero and the generator ends with
    [ZeroDivisionError]. *)
Theorem generate_zero_height_gaussian (w : Z) (position : option (Z * Z)) (dir : option Z)
    (maxb minb : Z) (md : string) (rate : option R) (st : state) :
  0 < w ->
  normalised_mode md = "gaussian"%string ->
  exists st',
    generate_parallel_light_mask (w, 0) position dir maxb minb md rate st
    = (Raise ZeroDivisionError, st').
Proof.
  intros Hw Hmd.
  destruct (draws_resolve_light_params w 0 position dir maxb minb md rate
              ltac:(lia) ltac:(lia) ltac:(lia) st) as (lp & Hrun & _ & _ & Hmode & _).
  rewrite Hmd in Hmode.
  eexists. unfold generate_parallel_light_mask. rewrite (bind_ok_run _ _ _ _ _ Hrun).
  unfold lift. f_equal. unfold render_light_mask. simpl fst. simpl snd.
  pose proof (padding_ge (Z.max w 0) ltac:(lia)) as Hp.
  set (pad := py_int (IZR (Z.max w 0) * sqrt 2)) in *.
  unfold np_zeros.
  destruct (Z.ltb_spec (pad * 2 + 0) 0); [lia|].
  destruct (Z.ltb_spec (pad * 2 + w) 0); [lia|]. simpl orb. cbv iota.
  unfold rbind at 1. rewrite Hmode. simpl String.eqb. cbv iota.
  unfold apply_decay_value_norm, range.
  destruct (Z.to_nat (pad * 2 + 0)) as [|k] eqn:Ek; [lia|].
  reflexivity.
Qed.
End DegenerateSizes.

Lemma generate_zero_height_gaussian_witness :
  exists st',
    generate_parallel_light_mask (H := Reference.cv2) (100, 0) None None 255 0
      "gaussian" None (State ∅ [1; 2; 3])
    = (Raise ZeroDivisionError, st').
Proof.
  apply (generate_zero_height_gaussian (H := Reference.cv2) 100 None None 255 0
           "gaussian" None (State ∅ [1; 2; 3])); [lia|reflexivity].
Defined.

(** ** The blend *)

Lemma blend_scalar_between (v l : Z) (t : R) :
  0 <= v <= 255 -> 0 <= l <= 255 -> (0 <= t <= 1)%R ->
  Z.min v l <= astype_uint8 (IZR v * t + IZR l * (1 - t)) <= Z.max v l.
Proof.
  intros Hv Hl Ht.
  set (x := (IZR v * t + IZR l * (1 - t))%R).
  assert (Hlo : (IZR (Z.min v l) <= x)%R).
  { assert (IZR (Z.min v l) <= IZR v)%R by (apply IZR_le; lia).
    assert (IZR (Z.min v l) <= IZR l)%R by (apply IZR_le; lia).
    unfold x. nra. }
  assert (Hhi : (x <= IZR (Z.max v l))%R).
  { assert (IZR v <= IZR (Z.max v l))%R by (apply IZR_le; lia).
    assert (IZR l <= IZR (Z.max v l))%R by (apply IZR_le; lia).
    unfold x. nra. }
  assert (H0 : (0 <= x)%R).
  { assert (0 <= IZR (Z.min v l))%R by (apply IZR_le; lia). lra. }
  unfold astype_uint8, py_int. destruct (Rle_dec 0 x); [|contradiction].
  assert (Hf1 : Z.min v l <= Zfloor x) by (now apply Zfloor_lub).
  assert (Hf2 : Zfloor x <= Z.max v l).
  { apply le_IZR. destruct (Zfloor_bound x). lra. }
  rewrite Z.mod_small by lia. lia.
Qed.

(** X14 (line 232): for a transparency in [[0, 1]] the blend keeps hue
    and saturation and writes, as the new value of a pixel, a byte that
    is at most the larger of the pixel's old value and the mask's
    sample and at most one below the smaller of the two (the weighted
    sum is cut to an integer): with [uint8] operands nothing wraps
    around. *)
Theorem blend_value_between (m : matrix (list Z)) (lm : matrix Z) (t : R) (h w : nat) :
  dims3 m h w 3 -> dims2 lm h w -> (0 < h)%nat -> (0 <= t <= 1)%R ->
  exists m',
    blend_value (A3 m) lm t = Ok (A3 m') /\
    dims3 m' h w 3 /\
    forall (y x : nat) (px : list Z) (l : Z),
      entry m y x = Some px -> entry lm y x = Some l ->
      0 <= nth 2 px 0 <= 255 -> 0 <= l <= 255 ->
      exists v,
        entry m' y x = Some (<[2%nat := v]> px) /\
        Z.max 0 (Z.min (nth 2 px 0) l - 1) <= v <= Z.max (nth 2 px 0) l.
Proof.
  intros Hd Hlm Hh Ht.
  destruct (blend_value_dims m lm t h w Hd Hlm Hh) as (m' & Hrun & Hd').
  exists m'. split; [exact Hrun|]. split; [exact Hd'|].
  unfold blend_value in Hrun.
  rewrite (same_shape_dims2 _ _ h w (dims3_channel 2 m h w 3 Hd) Hlm Hh) in Hrun.
  injection Hrun as <-.
  intros y x px l Hpx Hl Hv Hlr. unfold entry in *.
  destruct (m !! y) as [row|] eqn:Erow; [|discriminate].
  destruct (lm !! y) as [lrow|] eqn:Elrow; [|discriminate].
  eexists. split.
  - erewrite (proj2 (lookup_zip_with_Some _ m lm y _)).
    2:{ exists row, lrow. split; [reflexivity|]. now split. }
    apply lookup_zip_with_Some. exists px, l. split; [reflexivity|]. now split.
  - pose proof (blend_scalar_between (nth 2 px 0) l t Hv Hlr Ht). lia.
Qed.

Lemma blend_value_between_witness :
  exists m',
    blend_value (A3 [[[10; 20; 200]]]) [[100]] (7 / 10) = Ok (A3 m') /\
    dims3 m' 1 1 3 /\
    forall (y x : nat) (px : list Z) (l : Z),
      entry [[[10; 20; 200]]] y x = Some px -> entry [[100]] y x = Some l ->
      0 <= nth 2 px 0 <= 255 -> 0 <= l <= 255 ->
      exists v,
        entry m' y x = Some (<[2%nat := v]> px) /\
        Z.max 0 (Z.min (nth 2 px 0) l - 1) <= v <= Z.max (nth 2 px 0) l.
Proof.
  apply (blend_value_between [[[10; 20; 200]]] [[100]] (7 / 10) 1 1).
  - split; [split; [reflexivity|]|]; repeat constructor.
  - split; [reflexivity|]. repeat constructor.
  - lia.
  - lra.
Defined.

(** ** SubtleNoise *)

Example subtle_noise_gray_ex :
  SubtleNoise.call Reference.gate_no {| SubtleNoise.range := 10; SubtleNoise.p := 1 |}
    (A2 [[0; 100]; [250; 255]]) true [] [0; 19; 18; 5]
  = (Ok (Some (A2 [[0; 109]; [255; 250]])), ([], [])).
Proof. reflexivity. Qed.

Example subtle_noise_bgr_ex :
  SubtleNoise.call Reference.gate_no {| SubtleNoise.range := 2; SubtleNoise.p := 1 |}
    (A3 [[[10; 20; 30]]]) true [] [0; 1; 3; 9]
  = (Ok (Some (A3 [[[8; 19; 31]]])), ([], [9])).
Proof. reflexivity. Qed.

Example subtle_noise_no_pixels_ex :
  SubtleNoise.call Reference.gate_no {| SubtleNoise.range := 0; SubtleNoise.p := 1 |}
    (A2 []) true [] [3; 1; 4]
  = (Ok (Some (A2 [])), ([], [3; 1; 4])).
Proof. reflexivity. Qed.

Lemma draw_words_spec (n : nat) (g : list Z) :
  length (fst (SubtleNoise.draw_words n g)) = n /\
  snd (SubtleNoise.draw_words n g) = drop n g.
Proof.
  revert g. induction n as [|n IH]; intros g; [now split|]. simpl.
  rewrite draw_drop. specialize (IH (drop 1 g)).
  destruct (SubtleNoise.draw_words n (drop 1 g)) as [xs g2]. simpl in *.
  destruct IH as [-> ->]. split; [reflexivity|].
  rewrite drop_drop. reflexivity.
Qed.

Lemma draw_matrix_spec (rows cols : nat) (g : list Z) :
  dims2 (fst (SubtleNoise.draw_matrix rows cols g)) rows cols /\
  snd (SubtleNoise.draw_matrix rows cols g) = drop (rows * cols) g.
Proof.
  revert g. induction rows as [|rows IH]; intros g.
  - split; [split; [reflexivity|constructor]|reflexivity].
  - simpl. destruct (draw_words_spec cols g) as [Hlen Hrest].
    destruct (SubtleNoise.draw_words cols g) as [row g1]. simpl in *. subst g1.
    specialize (IH (drop cols g)).
    destruct (SubtleNoise.draw_matrix rows cols (drop cols g)) as [rest g2]. simpl in *.
    destruct IH as [[Hl Hr] ->]. split.
    + split; [simpl; now rewrite Hl|]. now constructor.
    + rewrite drop_drop. reflexivity.
Qed.

Lemma np_random_randint_spec (low high : Z) (rows cols : nat) (g : list Z) :
  - 2 ^ 63 <= low -> low < high -> high <= 2 ^ 63 ->
  exists noise,
    SubtleNoise.np_random_randint low high rows cols g = (Ok noise, drop (rows * cols) g) /\
    dims2 noise rows cols /\
    Forall (Forall (fun n => low <= n < high)) noise.
Proof.
  intros Hlo Hlh Hhi. unfold SubtleNoise.np_random_randint.
  destruct (Nat.eqb_spec (rows * cols) 0) as [E|_].
  { rewrite E. exists (replicate rows (replicate cols 0)).
    split; [reflexivity|]. split.
    - split; [apply length_replicate|]. apply Forall_replicate, length_replicate.
    - destruct cols as [|cols]; [now apply Forall_replicate|].
      destruct rows as [|rows]; [constructor|lia]. }
  destruct (Z.ltb_spec low (- 2 ^ 63)); [lia|].
  destruct (Z.ltb_spec (2 ^ 63) high); [lia|]. simpl orb. cbv iota.
  destruct (Z.leb_spec high low); [lia|].
  destruct (draw_matrix_spec rows cols g) as [Hd Hrest].
  destruct (SubtleNoise.draw_matrix rows cols g) as [ws g']. simpl in *. subst g'.
  eexists. split; [reflexivity|]. split; [now apply dims2_map|].
  apply Forall_map, Forall_forall. intros row _. simpl.
  apply Forall_map, Forall_forall. intros n _. simpl.
  pose proof (Z.mod_pos_bound n (high - low)). lia.
Qed.

Lemma entry_Some {A} (m : matrix A) (y x : nat) (v : A) :
  entry m y x = Some v <-> exists row, m !! y = Some row /\ row !! x = Some v.
Proof.
  unfold entry. split.
  - destruct (m !! y) as [row|]; [eauto|discriminate].
  - now intros (row & -> & Hx).
Qed.

Lemma entry_zip_with {A B C} (f : A -> B -> C) (a : matrix A) (b : matrix B)
    (y x : nat) (u : A) (v : B) :
  entry a y x = Some u -> entry b y x = Some v ->
  entry (zip_with (zip_with f) a b) y x = Some (f u v).
Proof.
  intros (ra & Hra & Hu)%entry_Some (rb & Hrb & Hv)%entry_Some.
  apply entry_Some. exists (zip_with f ra rb). split.
  - apply lookup_zip_with_Some. exists ra, rb. auto.
  - apply lookup_zip_with_Some. exists u, v. auto.
Qed.

Lemma entry_map {A B} (f : A -> B) (m : matrix A) (y x : nat) (v : A) :
  entry m y x = Some v -> entry (map (map f) m) y x = Some (f v).
Proof.
  intros (row & Hrow & Hv)%entry_Some. apply entry_Some. exists (map f row).
  change (map (map f) m) with (map f <$> m). change (map f row) with (f <$> row).
  rewrite !list_lookup_fmap, Hrow, Hv. split; reflexivity.
Qed.

Lemma entry_dims2 {A} (m : matrix A) (h w y x : nat) :
  dims2 m h w -> (y < h)%nat -> (x < w)%nat -> is_Some (entry m y x).
Proof.
  intros [Hh Hw] Hy Hx.
  destruct (lookup_lt_is_Some_2 m y) as [row Hrow]; [lia|].
  rewrite Forall_lookup in Hw. specialize (Hw y row Hrow). simpl in Hw.
  destruct (lookup_lt_is_Some_2 row x) as [v Hv]; [lia|].
  exists v. apply entry_Some. eauto.
Qed.

Lemma entry_dims2_lt {A} (m : matrix A) (h w y x : nat) (v : A) :
  dims2 m h w -> entry m y x = Some v -> (y < h)%nat /\ (x < w)%nat.
Proof.
  intros [Hh Hw] (row & Hrow & Hv)%entry_Some.
  rewrite Forall_lookup in Hw. specialize (Hw y row Hrow). simpl in Hw.
  apply lookup_lt_Some in Hrow. apply lookup_lt_Some in Hv. lia.
Qed.

Lemma entry_dims3_length (m : matrix (list Z)) (h w c y x : nat) (px : list Z) :
  dims3 m h w c -> entry m y x = Some px -> length px = c.
Proof.
  intros [_ Hc] (row & Hrow & Hpx)%entry_Some.
  rewrite Forall_lookup in Hc. specialize (Hc y row Hrow).
  rewrite Forall_lookup in Hc. exact (Hc x px Hpx).
Qed.

(** Two matrices of the same size are related entry by entry. *)
Lemma Forall2_entries {A B} (P : A -> B -> Prop) (a : matrix A) (b : matrix B) (h w : nat) :
  dims2 a h w -> dims2 b h w ->
  (forall y x u v, entry a y x = Some u -> entry b y x = Some v -> P u v) ->
  Forall2 (Forall2 P) a b.
Proof.
  intros [Ha Hra] [Hb Hrb] HP.
  apply Forall2_same_length_lookup. split; [congruence|].
  intros y ra rb Hya Hyb.
  rewrite Forall_lookup in Hra. rewrite Forall_lookup in Hrb.
  apply Forall2_same_length_lookup. split.
  - rewrite (Hra y ra Hya), (Hrb y rb Hyb). reflexivity.
  - intros x u v Hu Hv. apply (HP y x); apply entry_Some; eauto.
Qed.

Lemma int64_small (z : Z) : - 2 ^ 63 <= z < 2 ^ 63 -> SubtleNoise.int64 z = z.
Proof.
  intros Hz. unfold SubtleNoise.int64.
  change (2 ^ 64) with (2 ^ 63 + 2 ^ 63). rewrite Z.mod_small; lia.
Qed.

(** The sum is reduced to [int64] before it is clipped: for a range
    above 255 every byte is within the range of every other, and below
    that nothing overflows. *)
Lemma finish_noised (r v n : Z) :
  - r <= n < r -> noised r v (SubtleNoise.finish (SubtleNoise.int64 (v + n))).
Proof.
  intros Hn. unfold noised.
  assert (Hb : forall z, 0 <= SubtleNoise.finish z <= 255).
  { intros z. unfold SubtleNoise.finish. rewrite Z.mod_small by lia. lia. }
  split; [apply Hb|]. intros Hv.
  destruct (Z.le_gt_cases r 255) as [Hr|Hr].
  - rewrite int64_small.
    + unfold SubtleNoise.finish. rewrite Z.mod_small by lia. lia.
    + change (2 ^ 63) with 9223372036854775808. lia.
  - specialize (Hb (SubtleNoise.int64 (v + n))). lia.
Qed.

Lemma add_subtle_noise_spec (self : SubtleNoise.t) (image : matrix Z) (h w : nat)
    (g : list Z) :
  0 < SubtleNoise.range self <= 2 ^ 63 ->
  dims2 image h w -> (0 < h)%nat ->
  exists ch,
    SubtleNoise.add_subtle_noise self image g = (Ok ch, drop (h * w) g) /\
    dims2 ch h w /\
    forall y x v, entry image y x = Some v ->
      exists n, - SubtleNoise.range self <= n < SubtleNoise.range self /\
                entry ch y x = Some (SubtleNoise.int64 (v + n)).
Proof.
  intros Hr Hd Hh. unfold SubtleNoise.add_subtle_noise.
  rewrite (dims2_ncols image h w Hd Hh). destruct Hd as [Hlen Hrows]. rewrite Hlen.
  destruct (np_random_randint_spec (- SubtleNoise.range self) (SubtleNoise.range self)
              h w g ltac:(lia) ltac:(lia) ltac:(lia)) as (noise & -> & Hdn & Hrange).
  simpl. eexists. split; [reflexivity|]. split.
  - apply zip_with_dims2; [now split|exact Hdn].
  - intros y x v Hv.
    destruct (entry_dims2_lt image h w y x v ltac:(now split) Hv) as [Hy Hx].
    destruct (entry_dims2 noise h w y x Hdn Hy Hx) as [n Hn].
    exists n. split; [|now apply (entry_zip_with (fun v n => SubtleNoise.int64 (v + n)))].
    apply entry_Some in Hn as (nrow & Hnrow & Hnx).
    rewrite Forall_lookup in Hrange. specialize (Hrange y nrow Hnrow).
    rewrite Forall_lookup in Hrange. exact (Hrange x n Hnx).
Qed.

Lemma nth_insert_eq (l : list Z) (a : nat) (v d : Z) :
  (a < length l)%nat -> nth a (<[a := v]> l) d = v.
Proof.
  intros Ha. rewrite nth_lookup, list_lookup_insert_eq by exact Ha. reflexivity.
Qed.

Lemma nth_insert_ne (l : list Z) (a j : nat) (v d : Z) :
  j <> a -> nth j (<[a := v]> l) d = nth j l d.
Proof.
  intros Hne. rewrite !nth_lookup, list_lookup_insert_ne by congruence. reflexivity.
Qed.

Lemma noise_channels_spec (self : SubtleNoise.t) (h w c : nat) :
  0 < SubtleNoise.range self <= 2 ^ 63 -> (0 < h)%nat ->
  forall (k a : nat) (m : matrix (list Z)) (g : list Z),
    (a + k = c)%nat -> dims3 m h w c ->
    exists m',
      SubtleNoise.noise_channels self (seq a k) m g = (Ok m', drop (k * (h * w)) g) /\
      dims3 m' h w c /\
      forall y x px, entry m y x = Some px ->
        exists px', entry m' y x = Some px' /\
          forall j : nat,
            ((a <= j < a + k)%nat ->
             exists n, - SubtleNoise.range self <= n < SubtleNoise.range self /\
                       nth j px' 0 = SubtleNoise.int64 (nth j px 0 + n)) /\
            (~ (a <= j < a + k)%nat -> nth j px' 0 = nth j px 0).
Proof.
  intros Hr Hh. induction k as [|k IH]; intros a m g Hak Hd.
  - exists m. split; [reflexivity|]. split; [exact Hd|].
    intros y x px Hpx. exists px. split; [exact Hpx|]. intros j. split; [lia|reflexivity].
  - simpl.
    destruct (add_subtle_noise_spec self (channel a m) h w g Hr
                (dims3_channel a m h w c Hd) Hh) as (ch & -> & Hdch & Hch).
    assert (Hd1 : dims3 (SubtleNoise.set_channel a m ch) h w c).
    { unfold SubtleNoise.set_channel. eapply zip_with_dims3; [|exact Hd|exact Hdch].
      intros px v Hpx. now rewrite length_insert. }
    destruct (IH (S a) (SubtleNoise.set_channel a m ch) (drop (h * w) g) ltac:(lia) Hd1)
      as (m' & Hrun & Hd' & Hent).
    exists m'. split; [|split; [exact Hd'|]].
    { rewrite Hrun, drop_drop. reflexivity. }
    intros y x px Hpx.
    pose proof (entry_dims3_length m h w c y x px Hd Hpx) as Hlen.
    destruct (Hch y x (nth a px 0)) as (n & Hn & Hchv).
    { unfold channel. now apply (entry_map (fun px => nth a px 0)). }
    assert (Hpx1 : entry (SubtleNoise.set_channel a m ch) y x
                   = Some (<[a := SubtleNoise.int64 (nth a px 0 + n)]> px)).
    { unfold SubtleNoise.set_channel.
      now apply (entry_zip_with (fun px v => <[a := v]> px)). }
    destruct (Hent y x _ Hpx1) as (px' & Hpx' & Hj).
    exists px'. split; [exact Hpx'|]. intros j. destruct (Hj j) as [Hin Hout]. split.
    + intros Hrange. destruct (decide (j = a)) as [->|Hne].
      * exists n. split; [exact Hn|]. rewrite Hout by lia.
        apply nth_insert_eq. lia.
      * destruct Hin as (n' & Hn' & E); [lia|]. exists n'. split; [exact Hn'|].
        rewrite E. now rewrite nth_insert_ne.
    + intros Hrange. rewrite Hout by lia. apply nth_insert_ne. lia.
Qed.

Section SubtleNoiseFacts.
Variable should_run : R -> list Z -> bool * list Z.

(** X15 (subtlenoise.py, lines 31-41, 44-61): when the operator runs on
    a grayscale image with a [range] that [np.random.randint] accepts
    ([0 < range <= 2^63]: the bounds [-range] and [range - 1] fit
    [int64]), it returns an image of the same size whose every sample
    is a byte within [range] of the input sample ([-range <= out - in <
    range] for a byte input); it takes one value per pixel from
    [np.random]. *)
Theorem subtle_noise_gray (self : SubtleNoise.t) (m : matrix Z) (h w : nat)
    (force : bool) (py_rng np_rng : list Z) :
  0 < SubtleNoise.range self <= 2 ^ 63 ->
  dims2 m h w -> (0 < h)%nat ->
  force = true \/ fst (should_run (SubtleNoise.p self) py_rng) = true ->
  exists out py_rng',
    SubtleNoise.call should_run self (A2 m) force py_rng np_rng
    = (Ok (Some (A2 out)), (py_rng', drop (h * w) np_rng)) /\
    Forall2 (Forall2 (noised (SubtleNoise.range self))) m out.
Proof.
  intros Hr Hd Hh Hrun.
  destruct (add_subtle_noise_spec self m h w np_rng Hr Hd Hh) as (ch & Hch & Hdch & Hent).
  exists (map (map SubtleNoise.finish) ch),
         (snd (if force then (true, py_rng) else should_run (SubtleNoise.p self) py_rng)).
  split.
  - unfold SubtleNoise.call.
    assert (Hgate : fst (if force then (true, py_rng)
                         else should_run (SubtleNoise.p self) py_rng) = true).
    { destruct force; [reflexivity|]. destruct Hrun as [Hf|Hg]; [discriminate|exact Hg]. }
    destruct (if force then (true, py_rng) else should_run (SubtleNoise.p self) py_rng)
      as [run py']. simpl in *. subst run. now rewrite Hch.
  - apply (Forall2_entries _ m _ h w Hd (dims2_map _ _ _ _ Hdch)).
    intros y x v o Hv Ho.
    destruct (Hent y x v Hv) as (n & Hn & Hchv).
    rewrite (entry_map SubtleNoise.finish ch y x _ Hchv) in Ho. injection Ho as <-.
    now apply finish_noised.
Qed.

(** X16 (subtlenoise.py, lines 44-61): when the operator runs on an
    image with [c] channels and a [range] that [np.random.randint]
    accepts ([0 < range <= 2^63]), it returns an image of the same shape
    whose every sample, in every channel (a fourth, alpha, channel
    included), is a byte within [range] of the input sample; it takes
    one value per sample from [np.random]. *)
Theorem subtle_noise_channels (self : SubtleNoise.t) (m : matrix (list Z)) (h w c : nat)
    (force : bool) (py_rng np_rng : list Z) :
  0 < SubtleNoise.range self <= 2 ^ 63 ->
  dims3 m h w c -> (0 < h)%nat -> (0 < w)%nat ->
  force = true \/ fst (should_run (SubtleNoise.p self) py_rng) = true ->
  exists out py_rng',
    SubtleNoise.call should_run self (A3 m) force py_rng np_rng
    = (Ok (Some (A3 out)), (py_rng', drop (c * (h * w)) np_rng)) /\
    dims3 out h w c /\
    Forall2 (Forall2 (Forall2 (noised (SubtleNoise.range self)))) m out.
Proof.
  intros Hr Hd Hh Hw Hrun.
  destruct (noise_channels_spec self h w c Hr Hh c 0%nat m np_rng ltac:(lia) Hd)
    as (m' & Hnc & Hd' & Hent).
  assert (Hdo : dims3 (map (map (map SubtleNoise.finish)) m') h w c).
  { eapply dims3_map; [|exact Hd']. intros px Hpx. now rewrite length_map. }
  exists (map (map (map SubtleNoise.finish)) m'),
         (snd (if force then (true, py_rng) else should_run (SubtleNoise.p self) py_rng)).
  split; [|split; [exact Hdo|]].
  - unfold SubtleNoise.call.
    assert (Hgate : fst (if force then (true, py_rng)
                         else should_run (SubtleNoise.p self) py_rng) = true).
    { destruct force; [reflexivity|]. destruct Hrun as [Hf|Hg]; [discriminate|exact Hg]. }
    destruct (if force then (true, py_rng) else should_run (SubtleNoise.p self) py_rng)
      as [run py']. simpl in *. subst run.
    rewrite (dims3_nchan m h w c Hd Hh Hw). now rewrite Hnc.
  - destruct Hd as [Hd2 Hc]. destruct Hdo as [Hdo2 _].
    apply (Forall2_entries _ m _ h w Hd2 Hdo2).
    intros y x px pxo Hpx Hpxo.
    destruct (Hent y x px Hpx) as (px' & Hpx' & Hj).
    rewrite (entry_map (map SubtleNoise.finish) m' y x _ Hpx') in Hpxo.
    injection Hpxo as <-.
    pose proof (entry_dims3_length m h w c y x px (conj Hd2 Hc) Hpx) as Hlen.
    pose proof (entry_dims3_length m' h w c y x px' Hd' Hpx') as Hlen'.
    apply Forall2_same_length_lookup. split; [rewrite length_map; congruence|].
    intros j v o Hv Ho.
    change (map SubtleNoise.finish px') with (SubtleNoise.finish <$> px') in Ho.
    rewrite list_lookup_fmap in Ho.
    destruct (px' !! j) as [v'|] eqn:Ev'; [|discriminate]. injection Ho as <-.
    destruct (Hj j) as [Hin _].
    destruct Hin as (n & Hn & E).
    { apply lookup_lt_Some in Hv. lia. }
    rewrite !nth_lookup, Hv, Ev' in E. simpl in E. subst v'.
    now apply finish_noised.
Qed.

(** X17 (subtlenoise.py, lines 36, 44-56): with [range <= 0] the noise
    interval [[-range, range)] is empty: a call that runs on an image
    that has pixels (at least one row and one column; at least one
    channel when it has a third axis) ends with NumPy's [ValueError] and
    takes nothing from [np.random]. (For an image without pixels
    [np.random.randint] looks at no bound and nothing is raised.) *)
Theorem subtle_noise_empty_range (self : SubtleNoise.t) (image : ndarray)
    (force : bool) (py_rng np_rng : list Z) :
  SubtleNoise.range self <= 0 ->
  match image with
  | A2 m => (0 < length m)%nat /\ (0 < ncols m)%nat
  | A3 m => (0 < length m)%nat /\ (0 < ncols m)%nat /\ (0 < nchan m)%nat
  end ->
  force = true \/ fst (should_run (SubtleNoise.p self) py_rng) = true ->
  exists py_rng',
    SubtleNoise.call should_run self image force py_rng np_rng
    = (Raise ValueError, (py_rng', np_rng)).
Proof.
  intros Hr Himg Hrun.
  exists (snd (if force then (true, py_rng) else should_run (SubtleNoise.p self) py_rng)).
  unfold SubtleNoise.call.
  assert (Hgate : fst (if force then (true, py_rng)
                       else should_run (SubtleNoise.p self) py_rng) = true).
  { destruct force; [reflexivity|]. destruct Hrun as [Hf|Hg]; [discriminate|exact Hg]. }
  destruct (if force then (true, py_rng) else should_run (SubtleNoise.p self) py_rng)
    as [run py']. simpl in *. subst run.
  assert (Hnoise : forall ch : matrix Z, (0 < length ch)%nat -> (0 < ncols ch)%nat ->
            SubtleNoise.add_subtle_noise self ch np_rng = (Raise ValueError, np_rng)).
  { intros ch Hrows Hcols.
    unfold SubtleNoise.add_subtle_noise, SubtleNoise.np_random_randint.
    destruct (Nat.eqb_spec (length ch * ncols ch) 0) as [E|_]; [nia|].
    destruct ((- SubtleNoise.range self <? - 2 ^ 63) || (2 ^ 63 <? SubtleNoise.range self));
      [reflexivity|].
    destruct (Z.leb_spec (SubtleNoise.range self) (- SubtleNoise.range self)); [|lia].
    reflexivity. }
  destruct image as [m|m].
  - destruct Himg as [Hrows Hcols]. now rewrite Hnoise.
  - destruct Himg as (Hrows & Hcols & Hchan).
    destruct (nchan m) as [|k]; [lia|]. simpl. rewrite Hnoise; [reflexivity| |].
    + unfold channel. now rewrite length_map.
    + unfold channel, ncols in *. destruct m as [|row m]; [simpl in Hrows; lia|].
      simpl in *. now rewrite length_map.
Qed.
End SubtleNoiseFacts.

Lemma subtle_noise_gray_witness :
  exists out py_rng',
    SubtleNoise.call Reference.gate_no {| SubtleNoise.range := 10; SubtleNoise.p := 1 |}
      (A2 [[0; 100]; [250; 255]]) true [] [0; 19; 18; 5; 7]
    = (Ok (Some (A2 out)), (py_rng', drop (2 * 2) [0; 19; 18; 5; 7])) /\
    Forall2 (Forall2 (noised 10)) [[0; 100]; [250; 255]] out.
Proof.
  apply (subtle_noise_gray Reference.gate_no
           {| SubtleNoise.range := 10; SubtleNoise.p := 1 |}
           [[0; 100]; [250; 255]] 2 2 true [] [0; 19; 18; 5; 7]).
  - simpl. change (2 ^ 63) with 9223372036854775808. lia.
  - split; [reflexivity|]. repeat constructor.
  - lia.
  - left. reflexivity.
Defined.

Lemma subtle_noise_channels_witness :
  exists out py_rng',
    SubtleNoise.call Reference.gate_no {| SubtleNoise.range := 2; SubtleNoise.p := 1 |}
      (A3 [[[10; 20; 30; 255]]]) true [] [0; 1; 3; 9; 4]
    = (Ok (Some (A3 out)), (py_rng', drop (4 * (1 * 1)) [0; 1; 3; 9; 4])) /\
    dims3 out 1 1 4 /\
    Forall2 (Forall2 (Forall2 (noised 2))) [[[10; 20; 30; 255]]] out.
Proof.
  apply (subtle_noise_channels Reference.gate_no
           {| SubtleNoise.range := 2; SubtleNoise.p := 1 |}
           [[[10; 20; 30; 255]]] 1 1 4 true [] [0; 1; 3; 9; 4]).
  - simpl. change (2 ^ 63) with 9223372036854775808. lia.
  - split; [split; [reflexivity|]|]; repeat constructor.
  - lia.
  - lia.
  - left. reflexivity.
Defined.

Lemma subtle_noise_empty_range_witness :
  exists py_rng',
    SubtleNoise.call Reference.gate_no {| SubtleNoise.range := 0; SubtleNoise.p := 1 |}
      (A2 [[0; 100]]) true [] [3; 1; 4]
    = (Raise ValueError, (py_rng', [3; 1; 4])).
Proof.
  apply (subtle_noise_empty_range Reference.gate_no
           {| SubtleNoise.range := 0; SubtleNoise.p := 1 |}
           (A2 [[0; 100]]) true [] [3; 1; 4]).
  - simpl. lia.
  - split; unfold ncols; simpl; lia.
  - left. reflexivity.
Defined.
